(** * svFSGe post-processing and regression scripts: a shallow embedding

    This development embeds the numerical core of three scripts,

      - [scripts/compare_results.py]            (module [CompareResults]),
      - [pulsatile_flow/post_fluid.py]          (module [PostFluid]),
      - [pulsatile_flow/post_steady_fluid.py]   (module [PostSteadyFluid]),

    and proves properties of them.

    Conventions.  Python [int]s are [Z]; finite Python and numpy floats
    are idealised as exact rationals [Q] and compared with
    [Qeq]/[Qle]/[Qlt] (rounding is outside the model).  Where a script
    can be handed infinities and NaN and they change what it does (the
    numbers of a JSON document, the command-line tolerance, the arrays
    of a mesh file), floats are values of [pyfloat], which has them.
    Exceptions are values of [exn] carried by the error monad [result].
    A Python [dict] is an insertion-ordered association list, because
    iteration order is observable in the code under study. *)

From Stdlib Require Import ZArith QArith Qabs Qround String Bool List.
From Stdlib Require Import Sorting.Sorted Sorting.Permutation Lia Lqa.
Import ListNotations.

Set Implicit Arguments.
Set Warnings "-register-all".
Set Warnings "-automation".
Set Warnings "-notation-overridden".
Set Warnings "-notation-incompatible-prefix".

(* ===================================================================== *)
(** * Python prelude *)
(* ===================================================================== *)

Module Py.

(** Structured payload of the [ComparisonError] messages built by
    [compare_results.py]; every constructor carries the values the
    corresponding f-string interpolates. *)
Record iter_failure := IterFailure {
  if_step : nat;       (* t *)
  if_ref : Z;          (* ref_iters *)
  if_test : Z;         (* test_iters *)
  if_diff : Z;         (* diff *)
  if_tol : Z           (* tolerance *)
}.

(** The floats that are not finite. *)
Inductive special := PosInf | NegInf | NaN.

(** A Python float: a finite value, idealised as an exact rational, or
    one of the three special values. *)
Inductive pyfloat :=
| Finite (q : Q)
| Special (s : special).

Record norm_failure := NormFailure {
  nf_field : string;   (* field *)
  nf_step : nat;       (* t *)
  nf_ref : pyfloat;    (* ref_err *)
  nf_test : pyfloat;   (* test_err *)
  nf_rel : pyfloat;    (* rel_diff *)
  nf_tol : pyfloat     (* rel_tolerance *)
}.

Inductive comparison_msg :=
| NoErrorField                                   (* "No 'error' or 'convergence' field found in JSON" *)
| InconsistentTimeSteps (seen now : nat)         (* "Inconsistent time step counts across fields: ..." *)
| InvalidErrorData (field : string) (t : nat)    (* "Invalid error data for {field} at time step {t}" *)
| MissingField (key : string)                    (* "Missing expected field in JSON: {e}" *)
| TimeStepMismatch (ref_steps test_steps : nat)  (* "Time step count mismatch: ..." *)
| IterationFailures (fs : list iter_failure)     (* "Iteration count differences exceed tolerance:\n" + lines *)
| ErrorNormFailures (fs : list norm_failure)     (* "Error norm differences exceed tolerance:\n" + lines *)
| VtuPairIncomplete                              (* "Both --ref-vtu and --test-vtu must be provided together" *)
| VtuFailure (msg : string).                     (* raised by compare_vtu *)

(** One slot of a point group key: an integer label ([0], [3], [6], [9])
    or a string label (["center"], ["wall"], ["start"], ["mid"], ["end"],
    and [":"] for the axis that varies). *)
Inductive slot :=
| SInt (n : Z)
| SStr (s : string).

(** A point group key, the tuple [(circumferential, radial, axial)]. *)
Definition loc : Type := slot * slot * slot.

(** Dictionary keys that can appear in a [KeyError]. *)
Inductive pykey :=
| KStr (s : string)
| KLoc (l : loc).

(** The two [RuntimeError]s of [post_steady_fluid.post_process]. *)
Inductive runtime_msg :=
| NoResultsFound                                 (* "No results found in " + f_out *)
| StartStepBeyond (start_step : Z) (n : nat).    (* "Start step {start_step} is beyond available steps {len(res)}" *)

Inductive exn :=
| RuntimeError (m : runtime_msg)
| ValueError (msg : string)
| AssertionError (crd : list Q)                  (* "coordinates not unique: " + str(crd) *)
| ComparisonError (m : comparison_msg)
| IndexError
| KeyError (key : pykey)
| TypeError
| AttributeError
| AxisError
| ZeroDivisionError.

Inductive result (A : Type) :=
| Ok (a : A)
| Raise (e : exn).
Arguments Ok {A} a.
Arguments Raise {A} e.

Definition bind {A B} (m : result A) (k : A -> result B) : result B :=
  match m with
  | Ok a => k a
  | Raise e => Raise e
  end.

Definition is_ok {A} (m : result A) : bool :=
  match m with Ok _ => true | Raise _ => false end.

(** [l[i]] for a non-negative index. *)
Definition getitem {A} (l : list A) (i : nat) : result A :=
  match nth_error l i with
  | Some a => Ok a
  | None => Raise IndexError
  end.

(** Insertion-ordered dictionaries. *)
Section Dict.
Variables (K V : Type).
Variable eqb : K -> K -> bool.

Fixpoint dict_get (d : list (K * V)) (k : K) : option V :=
  match d with
  | [] => None
  | (k', v) :: d' => if eqb k k' then Some v else dict_get d' k
  end.

(** [d[k] = v]: overwrite in place when the key exists, append otherwise. *)
Fixpoint dict_set (d : list (K * V)) (k : K) (v : V) : list (K * V) :=
  match d with
  | [] => [(k, v)]
  | (k', v') :: d' =>
      if eqb k k' then (k', v) :: d' else (k', v') :: dict_set d' k v
  end.

Definition dict_keys (d : list (K * V)) : list K := map fst d.

Definition dict_mem (d : list (K * V)) (k : K) : bool :=
  match dict_get d k with Some _ => true | None => false end.
End Dict.

(** Strict comparison of floats. *)
Definition Qlt_bool (a b : Q) : bool := negb (Qle_bool b a).

(** [a - b] on floats: the difference of two infinities of the same
    sign is NaN, and NaN propagates. *)
Definition float_sub (a b : pyfloat) : pyfloat :=
  match a, b with
  | Finite x, Finite y => Finite (x - y)
  | Special NaN, _ => Special NaN
  | _, Special NaN => Special NaN
  | Special PosInf, Special PosInf => Special NaN
  | Special NegInf, Special NegInf => Special NaN
  | Special PosInf, _ => Special PosInf
  | Special NegInf, _ => Special NegInf
  | Finite _, Special PosInf => Special NegInf
  | Finite _, Special NegInf => Special PosInf
  end.

(** [abs(a)]. *)
Definition float_abs (a : pyfloat) : pyfloat :=
  match a with
  | Finite x => Finite (Qabs x)
  | Special NaN => Special NaN
  | Special _ => Special PosInf
  end.

(** [a > b]: every comparison with NaN is false. *)
Definition float_gt (a b : pyfloat) : bool :=
  match a, b with
  | Finite x, Finite y => Qlt_bool y x
  | Special NaN, _ => false
  | _, Special NaN => false
  | Special PosInf, Special PosInf => false
  | Special PosInf, _ => true
  | Special NegInf, _ => false
  | Finite _, Special PosInf => false
  | Finite _, Special NegInf => true
  end.

(** Python true division [a / b]: a zero divisor raises, whatever the
    dividend; a finite value divided by an infinity is zero, and an
    infinity divided by an infinity is NaN. *)
Definition float_truediv (a b : pyfloat) : result pyfloat :=
  match b with
  | Finite y =>
      if Qeq_bool y 0 then Raise ZeroDivisionError
      else Ok (match a with
               | Finite x => Finite (x / y)
               | Special NaN => Special NaN
               | Special PosInf =>
                   if Qlt_bool 0 y then Special PosInf else Special NegInf
               | Special NegInf =>
                   if Qlt_bool 0 y then Special NegInf else Special PosInf
               end)
  | Special NaN => Ok (Special NaN)
  | Special _ =>
      Ok (match a with
          | Finite _ => Finite 0
          | Special _ => Special NaN
          end)
  end.

End Py.
Export Py.

(** A finite number where a float is expected. *)
Coercion Finite : Q >-> pyfloat.

Declare Scope result_scope.
Delimit Scope result_scope with result.
Notation "x <- m ;; k" := (bind m (fun x => k))
  (at level 61, m at next level, right associativity) : result_scope.
Notation "m ;;; k" := (bind m (fun _ => k))
  (at level 61, right associativity) : result_scope.
Open Scope string_scope.
Open Scope list_scope.
Open Scope result_scope.
Open Scope Q_scope.

(* ===================================================================== *)
(** * scripts/compare_results.py *)
(* ===================================================================== *)

Module CompareResults.

(** A parsed JSON document ([json.load]).  Objects keep their members in
    document order, as Python dictionaries do.  [JNum] is an integer or
    a finite float; [JNonFinite] is what [json.load] makes of the
    literals [Infinity], [-Infinity] and [NaN], and of a number beyond
    the range of a double such as [1e400]. *)
Inductive json :=
| JNull
| JBool (b : bool)
| JNum (q : Q)
| JNonFinite (s : special)
| JStr (s : string)
| JList (l : list json)
| JObj (members : list (string * json)).

(** A value used in arithmetic: numbers, and booleans as 0/1 (a Python
    [bool] is an [int]); anything else raises [TypeError]. *)
Definition as_number (j : json) : result pyfloat :=
  match j with
  | JNum q => Ok (Finite q)
  | JNonFinite s => Ok (Special s)
  | JBool true => Ok (Finite 1)
  | JBool false => Ok (Finite 0)
  | _ => Raise TypeError
  end.

Definition get_member := dict_get (V := json) String.eqb.

(** [convergence_data], the dictionary returned by
    [extract_convergence_data]. *)
Record convergence_data := ConvergenceData {
  time_steps : nat;
  iterations : list Z;
  errors : list (string * list json)
}.

(** Lines 84-96: the loop over the time steps of one field.  [t] is the
    [enumerate] counter; [iters] is [convergence_data['iterations']] and
    [finals] is [convergence_data['errors'][field_name]]. *)
Fixpoint time_step_loop (field_name : string) (t : nat) (time_step_errors : list json)
    (iters : list Z) (finals : list json) : result (list Z * list json) :=
  match time_step_errors with
  | [] => Ok (iters, finals)
  | iteration_errors :: rest =>
      match iteration_errors with
      | JList (e0 :: es) =>
          let iters' :=
            if (length iters <=? t)%nat
            then iters ++ [Z.of_nat (length (e0 :: es))]
            else iters in
          let final_error := last (e0 :: es) e0 in
          time_step_loop field_name (S t) rest iters' (finals ++ [final_error])
      | _ => Raise (ComparisonError (InvalidErrorData field_name t))
      end
  end.

(** Lines 69-96: the loop over the fields of the [errors] mapping. *)
Fixpoint field_loop (items : list (string * json)) (cd : convergence_data)
    : result convergence_data :=
  match items with
  | [] => Ok cd
  | (field_name, time_step_errors) :: rest =>
      match time_step_errors with
      | JList tse =>
          let num_time_steps := length tse in
          ts <- (if (time_steps cd =? 0)%nat then Ok num_time_steps
                 else if negb (time_steps cd =? num_time_steps)%nat
                 then Raise (ComparisonError
                               (InconsistentTimeSteps (time_steps cd) num_time_steps))
                 else Ok (time_steps cd)) ;;
          r <- time_step_loop field_name 0 tse (iterations cd) [] ;;
          field_loop rest
            (ConvergenceData ts (fst r)
               (dict_set String.eqb (errors cd) field_name (snd r)))
      | _ => field_loop rest cd
      end
  end.

(** [errors.items()]: only a mapping has [items]. *)
Definition items_of (errors : json) : result (list (string * json)) :=
  match errors with
  | JObj members => Ok members
  | _ => Raise AttributeError
  end.

(** [obj[key]] for a string key on an arbitrary JSON value. *)
Definition subscript (obj : json) (key : string) : result json :=
  match obj with
  | JObj members =>
      match get_member members key with
      | Some v => Ok v
      | None => Raise (KeyError (KStr key))
      end
  | _ => Raise TypeError
  end.

(** The [try ... except KeyError] wrapper of lines 51 and 100-101. *)
Definition except_KeyError {A} (m : result A) : result A :=
  match m with
  | Raise (KeyError (KStr k)) => Raise (ComparisonError (MissingField k))
  | other => other
  end.

(** Lines 53-59: the [errors] mapping of a top-level JSON object [data]. *)
Definition select_errors (data : list (string * json)) : result json :=
  if dict_mem String.eqb data "error"
  then subscript (JObj data) "error"
  else if dict_mem String.eqb data "convergence"
  then c <- subscript (JObj data) "convergence" ;;
       subscript c "error"
  else Raise (ComparisonError NoErrorField).

(** [extract_convergence_data(data)], for a top-level JSON object [data]. *)
Definition extract_convergence_data (data : list (string * json))
    : result convergence_data :=
  except_KeyError
    (errors <- select_errors data ;;
     items <- items_of errors ;;
     field_loop items (ConvergenceData 0 [] [])).

(** [compare_time_steps]; the warning about the expected count of three
    steps is only printed. *)
Definition compare_time_steps (ref_data test_data : convergence_data) : result bool :=
  let ref_steps := time_steps ref_data in
  let test_steps := time_steps test_data in
  if negb (ref_steps =? test_steps)%nat
  then Raise (ComparisonError (TimeStepMismatch ref_steps test_steps))
  else Ok true.

(** Lines 132-141: the loop of [compare_iterations] over
    [range(ref_data['time_steps'])], accumulating [failures]. *)
Fixpoint iterations_loop (ref_iterations test_iterations : list Z) (tolerance : Z)
    (ts : list nat) (failures : list iter_failure) : result (list iter_failure) :=
  match ts with
  | [] => Ok failures
  | t :: rest =>
      ref_iters <- getitem ref_iterations t ;;
      test_iters <- getitem test_iterations t ;;
      let diff := Z.abs (test_iters - ref_iters) in
      iterations_loop ref_iterations test_iterations tolerance rest
        (if (tolerance <? diff)%Z
         then failures ++ [IterFailure t ref_iters test_iters diff tolerance]
         else failures)
  end.

Definition compare_iterations (ref_data test_data : convergence_data) (tolerance : Z)
    : result bool :=
  failures <- iterations_loop (iterations ref_data) (iterations test_data) tolerance
                (seq 0 (time_steps ref_data)) [] ;;
  match failures with
  | [] => Ok true
  | _ :: _ => Raise (ComparisonError (IterationFailures failures))
  end.

(** Lines 179-184: the difference that is compared with the tolerance. *)
Definition rel_diff (ref_err test_err : pyfloat) : result pyfloat :=
  if float_gt ref_err (Finite 0)
  then float_truediv (float_abs (float_sub test_err ref_err)) ref_err
  else Ok (float_abs (float_sub test_err ref_err)).

(** Lines 175-191: the loop over the time steps of one field. *)
Fixpoint norms_step_loop (field : string) (ref_errors test_errors : list json)
    (rel_tolerance : pyfloat) (ts : list nat) (failures : list norm_failure)
    : result (list norm_failure) :=
  match ts with
  | [] => Ok failures
  | t :: rest =>
      ref_j <- getitem ref_errors t ;;
      test_j <- getitem test_errors t ;;
      ref_err <- as_number ref_j ;;
      test_err <- as_number test_j ;;
      d <- rel_diff ref_err test_err ;;
      norms_step_loop field ref_errors test_errors rel_tolerance rest
        (if float_gt d rel_tolerance
         then failures ++ [NormFailure field t ref_err test_err d rel_tolerance]
         else failures)
  end.

(** Lines 171-191: the loop over the compared fields. *)
Fixpoint norms_field_loop (ref_data test_data : convergence_data) (rel_tolerance : pyfloat)
    (fields : list string) (failures : list norm_failure)
    : result (list norm_failure) :=
  match fields with
  | [] => Ok failures
  | field :: rest =>
      match dict_get String.eqb (errors ref_data) field,
            dict_get String.eqb (errors test_data) field with
      | Some ref_errors, Some test_errors =>
          fs <- norms_step_loop field ref_errors test_errors rel_tolerance
                  (seq 0 (time_steps ref_data)) failures ;;
          norms_field_loop ref_data test_data rel_tolerance rest fs
      | None, _ => Raise (KeyError (KStr field))
      | _, None => Raise (KeyError (KStr field))
      end
  end.

(** [compare_error_norms].  When the two key sets differ the code compares
    their intersection, otherwise the reference keys; both are the
    reference keys that also occur in the test data.  The fields are
    visited in reference order (a Python [set] fixes no order; only the
    order of the report lines depends on it). *)
Definition compare_error_norms (ref_data test_data : convergence_data)
    (rel_tolerance : pyfloat)
    : result bool :=
  let fields :=
    filter (dict_mem String.eqb (errors test_data))
           (dict_keys (errors ref_data)) in
  failures <- norms_field_loop ref_data test_data rel_tolerance fields [] ;;
  match failures with
  | [] => Ok true
  | _ :: _ => Raise (ComparisonError (ErrorNormFailures failures))
  end.

(** Lines 282-288 of [print_summary]: the iteration table reads
    [ref_data['iterations'][t]] for every test time step. *)
Fixpoint summary_iterations (ref_iterations test_iterations : list Z) (ts : list nat)
    : result unit :=
  match ts with
  | [] => Ok tt
  | t :: rest =>
      _ <- getitem ref_iterations t ;;
      _ <- getitem test_iterations t ;;
      summary_iterations ref_iterations test_iterations rest
  end.

(** Lines 297-309 of [print_summary]: the error table of one field. *)
Fixpoint summary_steps (ref_errors test_errors : list json) (ts : list nat)
    : result unit :=
  match ts with
  | [] => Ok tt
  | t :: rest =>
      (if (t <? length ref_errors)%nat
       then ref_j <- getitem ref_errors t ;;
            test_j <- getitem test_errors t ;;
            ref_err <- as_number ref_j ;;
            test_err <- as_number test_j ;;
            _ <- rel_diff ref_err test_err ;;
            Ok tt
       else test_j <- getitem test_errors t ;;
            _ <- as_number test_j ;;
            Ok tt) ;;;
      summary_steps ref_errors test_errors rest
  end.

Fixpoint summary_fields (ref_data test_data : convergence_data)
    (fields : list (string * list json)) : result unit :=
  match fields with
  | [] => Ok tt
  | (field, test_errors) :: rest =>
      let ref_errors :=
        match dict_get String.eqb (errors ref_data) field with
        | Some l => l
        | None => []
        end in
      summary_steps ref_errors test_errors (seq 0 (time_steps test_data)) ;;;
      summary_fields ref_data test_data rest
  end.

(** [print_summary]: the printed text is not modelled, only the
    exceptions its subscripts and number formats can raise.  The fields
    are printed in sorted order; whether an exception is raised does not
    depend on the order. *)
Definition print_summary (ref_data test_data : convergence_data) : result unit :=
  summary_iterations (iterations ref_data) (iterations test_data)
    (seq 0 (time_steps test_data)) ;;;
  summary_fields ref_data test_data (errors test_data).

(** Command-line defaults of [main].  [--iter-tolerance] is parsed by
    [int] and [--error-tolerance] by [float], which also accepts [inf]
    and [nan]. *)
Definition default_iter_tolerance : Z := 2.
Definition default_error_tolerance : pyfloat := Finite (10 # 100).

(** The body of the [try] block of [main], after the two documents have
    been loaded.  [vtu] is [None] when neither [--ref-vtu] nor
    [--test-vtu] is given, and otherwise the outcome of the fourth step
    (lines 390-399), which reads mesh files. *)
Definition main_body (ref_json test_json : list (string * json))
    (iter_tolerance : Z) (error_tolerance : pyfloat) (vtu : option (result unit))
    : result unit :=
  ref_data <- extract_convergence_data ref_json ;;
  test_data <- extract_convergence_data test_json ;;
  print_summary ref_data test_data ;;;
  compare_time_steps ref_data test_data ;;;
  compare_iterations ref_data test_data iter_tolerance ;;;
  compare_error_norms ref_data test_data error_tolerance ;;;
  match vtu with
  | None => Ok tt
  | Some check => check
  end.

(** [main]: the exit code.  Both [except] clauses return 1. *)
Definition main (ref_json test_json : list (string * json))
    (iter_tolerance : Z) (error_tolerance : pyfloat) (vtu : option (result unit)) : Z :=
  match main_body ref_json test_json iter_tolerance error_tolerance vtu with
  | Ok _ => 0%Z
  | Raise (ComparisonError _) => 1%Z
  | Raise _ => 1%Z
  end.

End CompareResults.

(* ===================================================================== *)
(** * numpy and VTK prelude *)
(* ===================================================================== *)

Module Np.

(** The two transcendental routines the scripts call.  Their values are
    not fixed by the model: every theorem holds for whatever
    [np.arctan2] and [np.sqrt] return. *)
Class Libm := {
  np_arctan2 : Q -> Q -> Q;
  np_sqrt : Q -> Q
}.

(** [np.pi], the double nearest to pi, as the exact rational it denotes. *)
Definition np_pi : Q := 884279719003555 # 281474976710656.

(** [a % m] on floats: the result has the sign of [m]. *)
Definition np_mod (a m : Q) : Q := a - m * inject_Z (Qfloor (a / m)).

Definition np_sum (l : list Q) : Q := fold_right Qplus 0 l.

(** [np.mean] of a one-dimensional array.  For an empty array numpy
    returns nan with a warning; nan is outside the model and no theorem
    below takes the mean of an empty array. *)
Definition np_mean (l : list Q) : Q := np_sum l / inject_Z (Z.of_nat (length l)).

Definition Qmax (a b : Q) : Q := if Qle_bool a b then b else a.
Definition Qmin (a b : Q) : Q := if Qle_bool a b then a else b.

(** [np.max] and [np.min]: a zero-size array has no maximum. *)
Definition np_max (l : list Q) : result Q :=
  match l with
  | [] => Raise (ValueError "zero-size array to reduction operation maximum which has no identity")
  | x :: xs => Ok (fold_left Qmax xs x)
  end.

Definition np_min (l : list Q) : result Q :=
  match l with
  | [] => Raise (ValueError "zero-size array to reduction operation minimum which has no identity")
  | x :: xs => Ok (fold_left Qmin xs x)
  end.

(** A point-data array as [vtk_to_numpy] returns it: one value per point
    or one row of components per point. *)
Inductive ndarray :=
| Arr1 (v : list Q)
| Arr2 (rows : list (list Q)).

(** Euclidean norm of one row. *)
Definition norm_row {L : Libm} (row : list Q) : Q :=
  np_sqrt (np_sum (map (fun c => c * c) row)).

(** [np.linalg.norm(a, axis=1)]: only a 2-D array has an axis 1. *)
Definition linalg_norm_axis1 {L : Libm} (a : ndarray) : result (list Q) :=
  match a with
  | Arr2 rows => Ok (map norm_row rows)
  | Arr1 _ => Raise AxisError
  end.

(** [arr[idx]] for an integer index array (fancy indexing). *)
Fixpoint take {A} (arr : list A) (idx : list nat) : result (list A) :=
  match idx with
  | [] => Ok []
  | k :: idx' =>
      x <- getitem arr k ;;
      xs <- take arr idx' ;;
      Ok (x :: xs)
  end.

(** [arr[mask]] for a boolean mask, which must have the shape of [arr]. *)
Definition mask_select {A} (arr : list A) (mask : list bool) : result (list A) :=
  if (length mask =? length arr)%nat
  then Ok (map fst (filter snd (combine arr mask)))
  else Raise IndexError.

(** [np.any]. *)
Definition np_any (mask : list bool) : bool := existsb (fun b => b) mask.

(** [np.where(mask)[0]]: the indices at which [mask] holds. *)
Definition np_where (mask : list bool) : list nat :=
  filter (fun k => nth k mask false) (seq 0 (length mask)).

(** [np.logical_and.reduce] over the first axis of a stack of boolean
    rows of length [n]. *)
Definition logical_and_reduce (n : nat) (rows : list (list bool)) : list bool :=
  map (fun k => forallb (fun row => nth k row false) rows) (seq 0 n).

(** [np.isclose(a, b)] with numpy's default tolerances:
    [|a - b| <= atol + rtol * |b|]. *)
Definition isclose_rtol : Q := 1 # 100000.
Definition isclose_atol : Q := 1 # 100000000.
Definition isclose (a b : Q) : bool :=
  Qle_bool (Qabs (a - b)) (isclose_atol + isclose_rtol * Qabs b).

(** Stable insertion sort by a rational key. *)
Section Sort.
Variable A : Type.
Variable key : A -> Q.

Fixpoint insert_by (x : A) (l : list A) : list A :=
  match l with
  | [] => [x]
  | y :: l' => if Qle_bool (key x) (key y) then x :: l else y :: insert_by x l'
  end.

Fixpoint sort_by (l : list A) : list A :=
  match l with
  | [] => []
  | x :: l' => insert_by x (sort_by l')
  end.
End Sort.

(** [np.argsort(crd)].  numpy's default sort is not stable, but two
    argsorts of one array differ only in the order of equal keys. *)
Definition argsort (crd : list Q) : list nat :=
  map fst (sort_by (fun p : nat * Q => snd p) (combine (seq 0 (length crd)) crd)).

(** Drop every element equal to its successor. *)
Fixpoint dedup (l : list Q) : list Q :=
  match l with
  | [] => []
  | x :: l' =>
      match l' with
      | [] => [x]
      | y :: _ => if Qeq_bool x y then dedup l' else x :: dedup l'
      end
  end.

(** [np.sort] of a one-dimensional array. *)
Definition sort_values (l : list Q) : list Q := sort_by (fun q => q) l.

(** [np.unique]: the sorted distinct values. *)
Definition np_unique (l : list Q) : list Q := dedup (sort_values l).

(** Python's slice [l[a:b]] with step 1: a negative bound counts from the
    end, and both bounds are clamped to the list. *)
Definition slice_bound (len i : Z) : Z :=
  if (i <? 0)%Z then Z.max 0 (i + len) else Z.min i len.

Definition py_slice {A} (l : list A) (a b : Z) : list A :=
  let len := Z.of_nat (length l) in
  let a' := slice_bound len a in
  let b' := slice_bound len b in
  firstn (Z.to_nat (b' - a')) (skipn (Z.to_nat a') l).

(** [range(n)] and [np.arange(n)] for a Python int [n]. *)
Definition py_range (n : Z) : list nat := seq 0 (Z.to_nat n).

(** Python's [a // b] on ints. *)
Definition floordiv (a b : Z) : result Z :=
  if (b =? 0)%Z then Raise ZeroDivisionError else Ok (a / b)%Z.

(** One result file: the mesh points and the named point-data arrays the
    scripts read.  [None] means [HasArray] is false and [GetArray]
    returns [None]. *)
Record vtu := Vtu {
  points : list (Q * Q * Q);
  Pressure : option (list Q);
  Velocity : option ndarray;
  WSS : option ndarray;
  Traction : option ndarray
}.

(** [v2n(res.GetPointData().GetArray(name))]: [vtk_to_numpy] fails on
    [None]. *)
Definition v2n {A} (a : option A) : result A :=
  match a with
  | Some x => Ok x
  | None => Raise AttributeError
  end.

(** One line drawn by [ax.plot(x, y, label=f"Beat {beat}")]. *)
Record plot_line := PlotLine {
  line_x : list nat;
  line_y : list Q;
  line_beat : nat
}.

(** [ax.plot(x, y)] refuses coordinate arrays of different lengths. *)
Definition ax_plot (x : list nat) (y : list Q) (beat : nat) : result plot_line :=
  if (length x =? length y)%nat then Ok (PlotLine x y beat)
  else Raise (ValueError "x and y must have same first dimension").

(** The beat loop shared, line for line, by [plot_wss_heartbeats]
    ([post_fluid.py], lines 249-254) and [plot_wss_heartbeat_overlay]
    ([post_steady_fluid.py], lines 367-371): one [ax.plot] call per beat. *)
Fixpoint beat_loop (series : list Q) (steps_per_beat : Z) (beat_steps : list nat)
    (beats : list nat) : result (list plot_line) :=
  match beats with
  | [] => Ok []
  | i :: rest =>
      let start := (Z.of_nat i * steps_per_beat)%Z in
      let end_ := (start + steps_per_beat)%Z in
      line <- ax_plot beat_steps (py_slice series start end_) (i + 1) ;;
      lines <- beat_loop series steps_per_beat beat_steps rest ;;
      Ok (line :: lines)
  end.

(** Stand-ins for the two transcendental routines, exact where the
    examples below need them: [axis_arctan2] is exact (up to the
    rounding of [np_pi]) on the coordinate axes and [exact_sqrt] on
    squares of rationals.  They serve only to evaluate examples. *)
Definition axis_arctan2 (x y : Q) : Q :=
  if Qeq_bool x 0 then (if Qle_bool 0 y then 0 else np_pi)
  else if Qeq_bool y 0 then (if Qle_bool 0 x then np_pi / 2 else - (np_pi / 2))
  else 0.

Definition exact_sqrt (q : Q) : Q :=
  Z.sqrt (Qnum q) # Pos.sqrt (Qden q).

Definition axis_libm : Libm := Build_Libm axis_arctan2 exact_sqrt.

End Np.
Export Np.

(* ===================================================================== *)
(** * pulsatile_flow/post_fluid.py *)
(* ===================================================================== *)

Module PostFluid.

Section WithLibm.
Context {L : Libm}.

(** A value stored in the [results] dictionary of one time step. *)
Inductive value :=
| VArr (a : ndarray)
| VNum (q : Q).

Definition results_t := list (string * value).

Definition set (results : results_t) (k : string) (v : value) : results_t :=
  dict_set String.eqb results k v.

(** [len(a.shape) > 1] selects the row-wise norm, otherwise the array is
    already a magnitude. *)
Definition magnitude (a : ndarray) : result (list Q) :=
  match a with
  | Arr2 _ => linalg_norm_axis1 a
  | Arr1 v => Ok v
  end.

(** Line 82: 5% of the axial extent. *)
Definition band_fraction : Q := 5 # 100.

(** Line 85: the magnitude above which a node counts as a wall node. *)
Definition wall_threshold : Q := 1 # 10000000000.

(** Lines 48-54. *)
Definition extract_pressure (res : vtu) (results : results_t) : result results_t :=
  match Pressure res with
  | Some pressure =>
      let results := set results "pressure" (VArr (Arr1 pressure)) in
      let results := set results "pressure_mean" (VNum (np_mean pressure)) in
      mx <- np_max pressure ;;
      let results := set results "pressure_max" (VNum mx) in
      mn <- np_min pressure ;;
      Ok (set results "pressure_min" (VNum mn))
  | None => Ok results
  end.

(** Lines 56-63. *)
Definition extract_velocity (res : vtu) (results : results_t) : result results_t :=
  match Velocity res with
  | Some velocity =>
      velocity_mag <- linalg_norm_axis1 velocity ;;
      let results := set results "velocity" (VArr velocity) in
      let results := set results "velocity_mag" (VArr (Arr1 velocity_mag)) in
      let results := set results "velocity_mean" (VNum (np_mean velocity_mag)) in
      mx <- np_max velocity_mag ;;
      Ok (set results "velocity_max" (VNum mx))
  | None => Ok results
  end.

(** Lines 78-89: the ring average at the middle cross-section. *)
Definition wss_mid_mean_of (pts : list (Q * Q * Q)) (wss_mag : list Q) : result Q :=
  let z_coords := map (fun p : Q * Q * Q => snd p) pts in
  z_min <- np_min z_coords ;;
  z_max <- np_max z_coords ;;
  let z_mid := (z_min + z_max) / 2 in
  let z_tol := (z_max - z_min) * band_fraction in
  let mid_mask := map (fun z => Qlt_bool (Qabs (z - z_mid)) z_tol) z_coords in
  wss_mid <- mask_select wss_mag mid_mask ;;
  let wall_mask := map (fun w => Qlt_bool wall_threshold w) wss_mid in
  if np_any wall_mask
  then sel <- mask_select wss_mid wall_mask ;; Ok (np_mean sel)
  else Ok (np_mean wss_mid).

(** Lines 65-89. *)
Definition extract_wss (res : vtu) (results : results_t) : result results_t :=
  match WSS res with
  | Some wss =>
      wss_mag <- magnitude wss ;;
      let results := set results "wss" (VArr wss) in
      let results := set results "wss_mag" (VArr (Arr1 wss_mag)) in
      let results := set results "wss_mean" (VNum (np_mean wss_mag)) in
      mx <- np_max wss_mag ;;
      let results := set results "wss_max" (VNum mx) in
      m <- wss_mid_mean_of (points res) wss_mag ;;
      Ok (set results "wss_mid_mean" (VNum m))
  | None => Ok results
  end.

(** Lines 91-101. *)
Definition extract_traction (res : vtu) (results : results_t) : result results_t :=
  match Traction res with
  | Some traction =>
      traction_mag <- magnitude traction ;;
      let results := set results "traction" (VArr traction) in
      let results := set results "traction_mag" (VArr (Arr1 traction_mag)) in
      let results := set results "traction_mean" (VNum (np_mean traction_mag)) in
      mx <- np_max traction_mag ;;
      Ok (set results "traction_max" (VNum mx))
  | None => Ok results
  end.

(** [extract_results_fluid(res)]. *)
Definition extract_results_fluid (res : vtu) : result results_t :=
  results <- extract_pressure res [] ;;
  results <- extract_velocity res results ;;
  results <- extract_wss res results ;;
  extract_traction res results.

(** [results[k]] as a scalar, for the list comprehension of line 237. *)
Definition scalar_item (r : results_t) (k : string) : result Q :=
  match dict_get String.eqb r k with
  | Some (VNum q) => Ok q
  | Some (VArr _) => Raise TypeError
  | None => Raise (KeyError (KStr k))
  end.

Fixpoint scalar_column (results : list results_t) (k : string) : result (list Q) :=
  match results with
  | [] => Ok []
  | r :: rest =>
      q <- scalar_item r k ;;
      qs <- scalar_column rest k ;;
      Ok (q :: qs)
  end.

(** [plot_wss_heartbeats(results, output_dir, steps_per_beat)].  The
    value is [None] when the function returns without a figure, and
    otherwise the lines of the saved figure. *)
Definition plot_wss_heartbeats (results : list results_t) (steps_per_beat : Z)
    : result (option (list plot_line)) :=
  r0 <- getitem results 0 ;;
  if negb (dict_mem String.eqb r0 "wss_mid_mean") then Ok None
  else
    wss_mid <- scalar_column results "wss_mid_mean" ;;
    n_beats <- floordiv (Z.of_nat (length wss_mid)) steps_per_beat ;;
    if (n_beats =? 0)%Z then Ok None
    else
      let beat_steps := py_range steps_per_beat in
      lines <- beat_loop wss_mid steps_per_beat beat_steps (py_range n_beats) ;;
      Ok (Some lines).

End WithLibm.

End PostFluid.

(* ===================================================================== *)
(** * pulsatile_flow/post_steady_fluid.py *)
(* ===================================================================== *)

Module PostSteadyFluid.

(** Lines printed on standard output. *)
Inductive message :=
| MsgNoPointsFound (l : loc)             (* "no points found: " + str(loc) *)
| MsgWssNotFound                         (* "Warning: WSS array not found in VTU file" *)
| MsgProcessingSteps (start_step : Z) (n : nat)
                                         (* "Processing steps {start_step} to {len(results)} for time averaging" *)
| MsgTotalTimeSteps (n : nat)            (* "Total time steps found: {len(res)}" *)
| MsgMidRingNotFound                     (* "Warning: mid wall ring location not found" *)
| MsgNotEnoughSteps                      (* "Not enough steps for one full beat; skipping heartbeat overlay plot" *)
| MsgSaved (fname : string).             (* "Saved: {fname}" *)

(** A computation that prints and then returns or raises: the lines
    printed so far, and the outcome. *)
Definition out (A : Type) : Type := list message * result A.

Definition ret {A} (a : A) : out A := ([], Ok a).
Definition raise {A} (e : exn) : out A := ([], Raise e).
Definition print (m : message) : out unit := ([m], Ok tt).
Definition lift {A} (r : result A) : out A := ([], r).

Definition bind_out {A B} (m : out A) (k : A -> out B) : out B :=
  match m with
  | (printed, Ok a) => let (printed', r) := k a in (printed ++ printed', r)
  | (printed, Raise e) => (printed, Raise e)
  end.

Declare Scope out_scope.
Notation "x <- m ;; k" := (bind_out m (fun x => k))
  (at level 61, m at next level, right associativity) : out_scope.
Notation "m ;;; k" := (bind_out m (fun _ => k))
  (at level 61, right associativity) : out_scope.
Local Open Scope out_scope.

Definition slot_eqb (a b : slot) : bool :=
  match a, b with
  | SInt n, SInt m => (n =? m)%Z
  | SStr s, SStr t => String.eqb s t
  | _, _ => false
  end.

Definition loc_eqb (a b : loc) : bool :=
  let '(a0, a1, a2) := a in
  let '(b0, b1, b2) := b in
  slot_eqb a0 b0 && slot_eqb a1 b1 && slot_eqb a2 b2.

(** The wildcard [":"]. *)
Definition colon : slot := SStr ":".
Definition is_colon (s : slot) : bool := slot_eqb s colon.

(** [loc[i]] and [pt[i]] for [i] in [range(3)]. *)
Definition loc_axis (l : loc) (i : nat) : slot :=
  match i with
  | O => fst (fst l)
  | S O => snd (fst l)
  | _ => snd l
  end.

Definition axis (p : Q * Q * Q) (i : nat) : Q :=
  match i with
  | O => fst (fst p)
  | S O => snd (fst p)
  | _ => snd p
  end.

(** [list(loc).index(":")], when [":" in loc]. *)
Definition wildcard_index (l : loc) : option nat :=
  if is_colon (loc_axis l 0) then Some 0%nat
  else if is_colon (loc_axis l 1) then Some 1%nat
  else if is_colon (loc_axis l 2) then Some 2%nat
  else None.

Definition ids_t := list (loc * list nat).
Definition coords_t := list (loc * list Q).
Definition locations_t := list (loc * (Q * Q * Q)).

(** Per-key, per-field lists of per-time-step value arrays
    ([defaultdict(list)] per key). *)
Definition post_t := list (loc * list (string * list (list Q))).

(** Per-key, per-field time-averaged arrays. *)
Definition mean_t := list (loc * list (string * list Q)).

(** Lines 70-77: the four identifiers of one bucket combination. *)
Definition register (locations : locations_t) (c r a : slot * Q) : locations_t :=
  let '(cn, cp) := c in
  let '(rn, rp) := r in
  let '(an, ap) := a in
  let identifiers :=
    [ (cn, rn, an); (colon, rn, an); (cn, colon, an); (cn, rn, colon) ] in
  fold_left (fun acc i => dict_set loc_eqb acc i (cp, rp, ap)) identifiers locations.

(** Lines 66-77. *)
Definition build_locations (p_cir p_rad p_axi : list (slot * Q)) : locations_t :=
  fold_left (fun acc c =>
    fold_left (fun acc r =>
      fold_left (fun acc a => register acc c r a) p_axi acc)
      p_rad acc)
    p_cir [].

(** Lines 83-84: the indices of the points that match [pt] on every
    axis of [loc] that is not the wildcard. *)
Definition chk (pts_cra : list (Q * Q * Q)) (l : loc) (pt : Q * Q * Q) : list (list bool) :=
  map (fun i => map (fun p => isclose (axis p i) (axis pt i)) pts_cra)
      (filter (fun i => negb (is_colon (loc_axis l i))) [0; 1; 2]%nat).

Definition select (pts_cra : list (Q * Q * Q)) (l : loc) (pt : Q * Q * Q) : list nat :=
  np_where (logical_and_reduce (length pts_cra) (chk pts_cra l pt)).

(** Lines 82-96: the loop over the registered locations. *)
Fixpoint ids_loop (pts_cra : list (Q * Q * Q)) (locations : locations_t)
    (ids : ids_t) (coords : coords_t) : out (ids_t * coords_t) :=
  match locations with
  | [] => ret (ids, coords)
  | (l, pt) :: rest =>
      let found := select pts_cra l pt in
      let ids := dict_set loc_eqb ids l found in
      if (length found =? 0)%nat
      then print (MsgNoPointsFound l) ;;; ids_loop pts_cra rest ids coords
      else
        match wildcard_index l with
        | Some dim =>
            crd <- lift (take (map (fun p => axis p dim) pts_cra) found) ;;
            let sort := argsort crd in
            sorted_ids <- lift (take found sort) ;;
            let ids := dict_set loc_eqb ids l sorted_ids in
            sorted_crd <- lift (take crd sort) ;;
            let coords := dict_set loc_eqb coords l sorted_crd in
            if (length (np_unique crd) =? length crd)%nat
            then ids_loop pts_cra rest ids coords
            else raise (AssertionError crd)
        | None => ids_loop pts_cra rest ids coords
        end
  end.

(** [f_scales]. *)
Definition f_scales_pressure : Q := 1 / (1333 # 10000).
Definition f_scales_wss : Q := 10000.

Section WithLibm.
Context {L : Libm}.

(** [xyz2cra], applied to one point. *)
Definition xyz2cra (xyz : Q * Q * Q) : Q * Q * Q :=
  let '(x, y, z) := xyz in
  (np_mod (np_arctan2 x y + 2 * np_pi) (2 * np_pi),
   np_sqrt (x ^ 2 + y ^ 2),
   z).

(** Lines 52-63: the bucket tables of a domain. *)
Definition buckets (domain : string) (ro h : Q)
    : out (list (slot * Q) * list (slot * Q) * list (slot * Q)) :=
  if String.eqb domain "fluid" then
    ret ([(SInt 0, 0)],
         [(SStr "center", 0)],
         [(SStr "start", 0); (SStr "mid", h / 2); (SStr "end", h)])
  else if String.eqb domain "interface" then
    ret ([(SInt 0, 0); (SInt 3, (1 # 2) * np_pi); (SInt 6, np_pi);
          (SInt 9, (3 # 2) * np_pi)],
         [(SStr "wall", ro)],
         [(SStr "start", 0); (SStr "mid", h / 2); (SStr "end", h)])
  else raise (ValueError ("Unknown domain: " ++ domain)).

(** The [locations] table of lines 47-77, for the points [pts_xyz]. *)
Definition locations_of (pts_xyz : list (Q * Q * Q)) (domain : string) : out locations_t :=
  let pts_cra := map xyz2cra pts_xyz in
  ro <- lift (np_max (map (fun p => axis p 1) pts_cra)) ;;
  ri <- lift (np_min (map (fun p => axis p 1) pts_cra)) ;;
  h <- lift (np_max (map (fun p => axis p 2) pts_cra)) ;;
  b <- buckets domain ro h ;;
  let '(p_cir, p_rad, p_axi) := b in
  ret (build_locations p_cir p_rad p_axi).

(** [get_ids(pts_xyz, domain)]. *)
Definition get_ids (pts_xyz : list (Q * Q * Q)) (domain : string) : out (ids_t * coords_t) :=
  locations <- locations_of pts_xyz domain ;;
  ids_loop (map xyz2cra pts_xyz) locations [] [].

(** [post[loc][f] += [x]] on a dictionary of [defaultdict(list)]. *)
Definition post_append (post : post_t) (l : loc) (f : string) (x : list Q)
    : result post_t :=
  match dict_get loc_eqb post l with
  | None => Raise (KeyError (KLoc l))
  | Some d =>
      let cur := match dict_get String.eqb d f with
                 | Some c => c
                 | None => []
                 end in
      Ok (dict_set loc_eqb post l (dict_set String.eqb d f (cur ++ [x])))
  end.

(** [for loc, pt in ids.items(): post[loc][f] += [arr[pt]]]. *)
Fixpoint append_field (post : post_t) (f : string) (arr : list Q) (ids : ids_t)
    : result post_t :=
  match ids with
  | [] => Ok post
  | (l, pt) :: rest =>
      (x <- take arr pt ;;
       post <- post_append post l f x ;;
       append_field post f arr rest)%result
  end.

(** [extract_results_fluid_centerline]: the loop appends the pressure and
    then the velocity of each key. *)
Fixpoint append_two (post : post_t) (pressure velocity : list Q) (ids : ids_t)
    : result post_t :=
  match ids with
  | [] => Ok post
  | (l, pt) :: rest =>
      (x <- take pressure pt ;;
       post <- post_append post l "pressure" x ;;
       y <- take velocity pt ;;
       post <- post_append post l "velocity" y ;;
       append_two post pressure velocity rest)%result
  end.

Definition extract_results_fluid_centerline (post : post_t) (res : vtu)
    (pts : list (Q * Q * Q)) (ids : ids_t) : out post_t :=
  lift (pressure <- v2n (Pressure res) ;;
        velocity <- v2n (Velocity res) ;;
        velocity <- linalg_norm_axis1 velocity ;;
        append_two post pressure velocity ids)%result.

(** [extract_results_wall]. *)
Definition extract_results_wall (post : post_t) (res : vtu)
    (pts : list (Q * Q * Q)) (ids : ids_t) : out post_t :=
  lift (pressure <- v2n (Pressure res) ;;
        append_field post "pressure" pressure ids)%result.

(** Lines 123-133 (and 340-347): the array used as wall shear stress,
    and whether it is the all-zero substitute. *)
Definition wss_source (res : vtu) (pts : list (Q * Q * Q)) : result (list Q * bool) :=
  match WSS res with
  | Some wss => (m <- linalg_norm_axis1 wss ;; Ok (m, false))%result
  | None =>
      match Traction res with
      | Some traction => (m <- linalg_norm_axis1 traction ;; Ok (m, false))%result
      | None => Ok (repeat 0 (length pts), true)
      end
  end.

(** [extract_wss]. *)
Definition extract_wss (post : post_t) (res : vtu)
    (pts : list (Q * Q * Q)) (ids : ids_t) : out post_t :=
  w <- lift (wss_source res pts) ;;
  (if snd w then print MsgWssNotFound else ret tt) ;;;
  lift (append_field post "wss" (fst w) ids).

(** [np.mean(data, axis=0)] for the stack [data] of one array per
    retained time step. *)
Definition column (j : nat) (data : list (list Q)) : list Q :=
  map (fun row => nth j row 0) data.

Definition mean_axis0 (data : list (list Q)) : list Q :=
  match data with
  | [] => []
  | row0 :: _ => map (fun j => np_mean (column j data)) (seq 0 (length row0))
  end.

(** Lines 153-157: the loop over the snapshots; [i] is the [enumerate]
    counter. *)
Fixpoint snapshot_loop (i : nat) (results : list vtu) (pts : list (Q * Q * Q))
    (ids_fluid ids_interface : ids_t) (start_step : Z)
    (post_fluid post_interface_time : post_t) : out (post_t * post_t) :=
  match results with
  | [] => ret (post_fluid, post_interface_time)
  | res :: rest =>
      if (start_step <=? Z.of_nat i)%Z
      then
        post_fluid <- extract_results_fluid_centerline post_fluid res pts ids_fluid ;;
        post_interface_time <- extract_results_wall post_interface_time res pts ids_interface ;;
        post_interface_time <- extract_wss post_interface_time res pts ids_interface ;;
        snapshot_loop (S i) rest pts ids_fluid ids_interface start_step
          post_fluid post_interface_time
      else
        snapshot_loop (S i) rest pts ids_fluid ids_interface start_step
          post_fluid post_interface_time
  end.

(** [{loc: defaultdict(list) for loc in ids.keys()}]. *)
Definition empty_post (ids : ids_t) : post_t :=
  map (fun e : loc * list nat => (fst e, [])) ids.

(** Lines 160-172: every stored series is replaced by its time average. *)
Definition average (post : post_t) : mean_t :=
  map (fun e : loc * list (string * list (list Q)) =>
         (fst e, map (fun fe : string * list (list Q) =>
                        (fst fe, mean_axis0 (snd fe))) (snd e)))
      post.

(** [get_results]: the averaged fluid data, the averaged interface data
    and the interface time series. *)
Definition get_results (results : list vtu) (pts : list (Q * Q * Q))
    (ids_fluid ids_interface : ids_t) (start_step : Z)
    : out (mean_t * mean_t * post_t) :=
  let post_fluid := empty_post ids_fluid in
  let post_interface_time := empty_post ids_interface in
  print (MsgProcessingSteps start_step (length results)) ;;;
  p <- snapshot_loop 0 results pts ids_fluid ids_interface start_step
         post_fluid post_interface_time ;;
  ret (average (fst p), average (snd p), snd p).

(** The loop of [extract_wss_mid_timeseries] over all snapshots. *)
Fixpoint mid_loop (results : list vtu) (pts : list (Q * Q * Q)) (pt : list nat)
    : result (list Q) :=
  match results with
  | [] => Ok []
  | res :: rest =>
      (w <- wss_source res pts ;;
       sel <- take (fst w) pt ;;
       wss_all <- mid_loop rest pts pt ;;
       Ok (np_mean sel :: wss_all))%result
  end.

(** [extract_wss_mid_timeseries]. *)
Definition mid_ring : loc := (colon, SStr "wall", SStr "mid").

Definition extract_wss_mid_timeseries (results : list vtu) (pts : list (Q * Q * Q))
    (ids_interface : ids_t) : out (option (list Q)) :=
  match dict_get loc_eqb ids_interface mid_ring with
  | None => print MsgMidRingNotFound ;;; ret None
  | Some pt =>
      wss_all <- lift (mid_loop results pts pt) ;;
      ret (Some wss_all)
  end.

(** Everything [post_process] returns. *)
Record processed := Processed {
  data_fluid : mean_t;
  data_interface : mean_t;
  data_interface_time : post_t;
  coords_fluid : coords_t;
  coords_interface : coords_t;
  n_times : nat;
  wss_mid_all : option (list Q)
}.

(** [post_process(f_out, start_step)], where [res] is what [read_res]
    found in [f_out]. *)
Definition post_process (res : list vtu) (start_step : Z) : out processed :=
  match res with
  | [] => raise (RuntimeError NoResultsFound)
  | res0 :: _ =>
      print (MsgTotalTimeSteps (length res)) ;;;
      if (Z.of_nat (length res) <=? start_step)%Z
      then raise (RuntimeError (StartStepBeyond start_step (length res)))
      else
        let pts := points res0 in
        f <- get_ids pts "fluid" ;;
        i <- get_ids pts "interface" ;;
        d <- get_results res pts (fst f) (fst i) start_step ;;
        wss_mid_all <- extract_wss_mid_timeseries res pts (fst i) ;;
        ret (Processed (fst (fst d)) (snd (fst d)) (snd d) (snd f) (snd i)
               (length res) wss_mid_all)
  end.

(** [plot_wss_heartbeat_overlay(wss_all, steps_per_beat, out)].  The
    value is [None] when no figure is made, and otherwise the lines of
    the saved figure. *)
Definition plot_wss_heartbeat_overlay (wss_all : list Q) (steps_per_beat : Z)
    : out (option (list plot_line)) :=
  let wss_dyne := map (fun w => w * f_scales_wss) wss_all in
  n_beats <- lift (floordiv (Z.of_nat (length wss_dyne)) steps_per_beat) ;;
  if (n_beats =? 0)%Z
  then print MsgNotEnoughSteps ;;; ret None
  else
    let beat_steps := py_range steps_per_beat in
    lines <- lift (beat_loop wss_dyne steps_per_beat beat_steps (py_range n_beats)) ;;
    print (MsgSaved "wss_heartbeat_overlay_mid.pdf") ;;;
    ret (Some lines).

End WithLibm.

End PostSteadyFluid.

(* ===================================================================== *)
(** * Notions used to state the properties *)
(* ===================================================================== *)

Module Spec.
Import CompareResults.

(** The number of solver iterations one time-step entry records. *)
Definition entry_length (j : json) : Z :=
  match j with
  | JList l => Z.of_nat (length l)
  | _ => 0%Z
  end.

(** The time-step list of the first field of an [errors] mapping whose
    value is a list with at least one time step. *)
Fixpoint first_series (items : list (string * json)) : list json :=
  match items with
  | [] => []
  | (_, JList (e :: es)) :: _ => e :: es
  | _ :: rest => first_series rest
  end.

(** Whether the iteration counts of time step [t] differ by more than
    [tolerance]. *)
Definition exceeds (ref_data test_data : convergence_data) (tolerance : Z) (t : nat) : bool :=
  (tolerance <? Z.abs (nth t (iterations test_data) 0%Z - nth t (iterations ref_data) 0%Z))%Z.

(** The report line of time step [t]. *)
Definition report_line (ref_data test_data : convergence_data) (tolerance : Z) (t : nat)
    : iter_failure :=
  let r := nth t (iterations ref_data) 0%Z in
  let s := nth t (iterations test_data) 0%Z in
  IterFailure t r s (Z.abs (s - r)) tolerance.

(** One report line for every violating time step, in time order. *)
Definition violations (ref_data test_data : convergence_data) (tolerance : Z)
    : list iter_failure :=
  map (report_line ref_data test_data tolerance)
      (filter (exceeds ref_data test_data tolerance) (seq 0 (time_steps ref_data))).

(** The difference of two finite values that the error-norm check
    compares with the tolerance: relative for a positive reference,
    absolute otherwise. *)
Definition norm_diff (ref_err test_err : Q) : Q :=
  if Qlt_bool 0 ref_err
  then Qabs (test_err - ref_err) / ref_err
  else Qabs (test_err - ref_err).

(** Whether a reference value is exactly zero. *)
Definition is_zero (ref_err : pyfloat) : bool :=
  match ref_err with
  | Finite q => Qeq_bool q 0
  | Special _ => false
  end.

(** The quantity of the specification: [|test - ref| / ref] when the
    reference value is nonzero, and the absolute difference
    [|test - ref|] when it is exactly zero. *)
Definition claimed_diff (ref_err test_err : pyfloat) : result pyfloat :=
  if is_zero ref_err
  then Ok (float_abs (float_sub test_err ref_err))
  else float_truediv (float_abs (float_sub test_err ref_err)) ref_err.



(** The final errors [r] (reference) and [x] (test) of time step [t] of
    a field, and the difference [d] that [diff] makes of them. *)
Definition step_values_with (diff : pyfloat -> pyfloat -> result pyfloat)
    (refs tests : list json) (t : nat) (r x d : pyfloat) : Prop :=
  exists jr jx,
    nth_error refs t = Some jr /\ nth_error tests t = Some jx /\
    as_number jr = Ok r /\ as_number jx = Ok x /\ diff r x = Ok d.


(** Convergence data with a single field [f] and a single time step. *)
Definition single_norm (f : string) (err : Q) : convergence_data :=
  ConvergenceData 1 [1%Z] [(f, [JNum err])].

(** The overlay of a series with period [p]: window [i] holds the
    samples [i*p, (i+1)*p), drawn over the steps [0 .. p-1] and labelled
    beat [i+1]; there are [floor (length series / p)] windows. *)
Definition window (p : nat) (series : list Q) (i : nat) : list Q :=
  firstn p (skipn (i * p) series).

Definition overlay (p : nat) (series : list Q) : list plot_line :=
  map (fun i => PlotLine (seq 0 p) (window p series i) (i + 1))
      (seq 0 (length series / p)).



(** The mean of some values in the words of the specification: their
    sum divided by their number. *)
Definition sum_of (values : list Q) : Q := fold_right Qplus 0 values.

Definition mean_of (values : list Q) : Q :=
  sum_of values / inject_Z (Z.of_nat (length values)).


(** Pairwise different values, up to equality of rationals. *)
Inductive distinct : list Q -> Prop :=
| distinct_nil : distinct []
| distinct_cons (x : Q) (l : list Q) :
    Forall (fun y => ~ x == y) l -> distinct l -> distinct (x :: l).

(** Point [k] matches the key [l] with target coordinates [pt]: on every
    axis of [l] that is not the wildcard, its cylindrical coordinate is
    close to the target in the sense of [np.isclose]. *)
Definition matches (pts_cra : list (Q * Q * Q)) (l : loc) (pt : Q * Q * Q) (k : nat) : Prop :=
  (k < length pts_cra)%nat /\
  (forall a : nat, (a < 3)%nat ->
     PostSteadyFluid.is_colon (PostSteadyFluid.loc_axis l a) = false ->
     Qabs (PostSteadyFluid.axis (nth k pts_cra (0, 0, 0)) a - PostSteadyFluid.axis pt a)
       <= isclose_atol + isclose_rtol * Qabs (PostSteadyFluid.axis pt a)).

(** The coordinate of point [k] along the axis [dim]. *)
Definition coordinate (pts_cra : list (Q * Q * Q)) (dim k : nat) : Q :=
  PostSteadyFluid.axis (nth k pts_cra (0, 0, 0)) dim.

(** The matched point indices in the order of their coordinates along
    [dim] (line 94). *)
Definition sorted_points (pts_cra : list (Q * Q * Q)) (dim : nat) (found : list nat)
    : list nat :=
  map (fun k => nth k found 0%nat) (argsort (map (coordinate pts_cra dim) found)).

(** One iteration of the loop of lines 82-96 on the key [l] with target
    [pt]: the dictionaries after it, or the failed assertion. *)
Definition step (pts_cra : list (Q * Q * Q)) (l : loc) (pt : Q * Q * Q)
    (ids : PostSteadyFluid.ids_t) (coords : PostSteadyFluid.coords_t)
    : result (PostSteadyFluid.ids_t * PostSteadyFluid.coords_t) :=
  let found := PostSteadyFluid.select pts_cra l pt in
  match found, PostSteadyFluid.wildcard_index l with
  | _ :: _, Some dim =>
      let crd := map (coordinate pts_cra dim) found in
      if (length (np_unique crd) =? length crd)%nat
      then Ok (dict_set PostSteadyFluid.loc_eqb
                 (dict_set PostSteadyFluid.loc_eqb ids l found) l
                 (sorted_points pts_cra dim found),
               dict_set PostSteadyFluid.loc_eqb coords l (sort_values crd))
      else Raise (AssertionError crd)
  | _, _ => Ok (dict_set PostSteadyFluid.loc_eqb ids l found, coords)
  end.

(** Every entry of [ids] is a registered key with the points that match
    it, in some order. *)
Definition ids_ok (pts_cra : list (Q * Q * Q)) (all : PostSteadyFluid.locations_t)
    (ids : PostSteadyFluid.ids_t) : Prop :=
  forall l found, dict_get PostSteadyFluid.loc_eqb ids l = Some found ->
    exists pt, In (l, pt) all /\ Permutation found (PostSteadyFluid.select pts_cra l pt).

(** Every entry of [coords] belongs to a wildcard key, is strictly
    increasing, and holds the coordinates of the key's points in [ids],
    position by position. *)
Definition coords_ok (pts_cra : list (Q * Q * Q))
    (ids : PostSteadyFluid.ids_t) (coords : PostSteadyFluid.coords_t) : Prop :=
  forall l cs, dict_get PostSteadyFluid.loc_eqb coords l = Some cs ->
    StronglySorted Qlt cs /\
    exists dim found,
      PostSteadyFluid.wildcard_index l = Some dim /\
      dict_get PostSteadyFluid.loc_eqb ids l = Some found /\
      cs = map (coordinate pts_cra dim) found.

(** The value stored for the key [l] and the field [f]. *)
Definition field_of {A} (d : list (loc * list (string * A))) (l : loc) (f : string)
    : option A :=
  match dict_get PostSteadyFluid.loc_eqb d l with
  | Some fields => dict_get String.eqb fields f
  | None => None
  end.

(** A stored series after the arrays [xs] have been appended to it; a
    series that was never appended to does not exist. *)
Definition extended (o : option (list (list Q))) (xs : list (list Q))
    : option (list (list Q)) :=
  match xs with
  | [] => o
  | _ :: _ => Some (match o with Some c => c | None => [] end ++ xs)
  end.

(** [g] applied to every snapshot, in order. *)
Fixpoint collect {A} (g : vtu -> result A) (rs : list vtu) : result (list A) :=
  match rs with
  | [] => Ok []
  | r :: rs' => (x <- g r ;; xs <- collect g rs' ;; Ok (x :: xs))%result
  end.

(** The snapshots whose [enumerate] index is at least [start_step]. *)
Definition retained (start_step : Z) (results : list vtu) : list vtu :=
  skipn (Z.to_nat start_step) results.

(** The values of one snapshot at the points [pt]: the pressure, the
    velocity magnitude, and the wall shear stress. *)
Definition pressure_at (pt : list nat) (res : vtu) : result (list Q) :=
  (p <- v2n (Pressure res) ;; take p pt)%result.

Definition velocity_at {L : Libm} (pt : list nat) (res : vtu) : result (list Q) :=
  (v <- v2n (Velocity res) ;; m <- linalg_norm_axis1 v ;; take m pt)%result.

Definition wss_at {L : Libm} (pts : list (Q * Q * Q)) (pt : list nat) (res : vtu)
    : result (list Q) :=
  (w <- PostSteadyFluid.wss_source res pts ;; take (fst w) pt)%result.

(** A snapshot from which every value that [get_results] reads can be
    read: it has a pressure array and a velocity array, its wall shear
    stress can be formed, and each array covers the points of every
    key. *)
Definition readable {L : Libm} (pts : list (Q * Q * Q))
    (ids_fluid ids_interface : PostSteadyFluid.ids_t) (res : vtu) : Prop :=
  is_ok (v2n (Pressure res)) = true /\
  is_ok (v <- v2n (Velocity res) ;; linalg_norm_axis1 v)%result = true /\
  is_ok (PostSteadyFluid.wss_source res pts) = true /\
  (forall l pt, In (l, pt) ids_fluid ->
     is_ok (pressure_at pt res) = true /\ is_ok (velocity_at pt res) = true) /\
  (forall l pt, In (l, pt) ids_interface ->
     is_ok (pressure_at pt res) = true /\ is_ok (wss_at pts pt res) = true).

(** The rule for the wall shear stress in the words of the
    specification: the magnitudes of [WSS] when the snapshot has that
    array; otherwise the magnitudes of [Traction] when it has that one;
    otherwise zero at every point, with a warning. *)
Inductive wss_choice {L : Libm} (res : vtu) (pts : list (Q * Q * Q))
    : list Q -> bool -> Prop :=
| choose_wss (rows : list (list Q)) :
    WSS res = Some (Arr2 rows) ->
    wss_choice res pts (map norm_row rows) false
| choose_traction (rows : list (list Q)) :
    WSS res = None -> Traction res = Some (Arr2 rows) ->
    wss_choice res pts (map norm_row rows) false
| choose_zero :
    WSS res = None -> Traction res = None ->
    wss_choice res pts (map (fun _ => 0) pts) true.

(** The lines a warning flag stands for. *)
Definition warning_lines (warned : bool) : list PostSteadyFluid.message :=
  if warned then [PostSteadyFluid.MsgWssNotFound] else [].

(** The values of the array [mag] at the points [pt]. *)
Definition values_at (mag : list Q) (pt : list nat) : list Q :=
  map (fun k => nth k mag 0) pt.

End Spec.

(* ===================================================================== *)
(** * Example inputs *)
(* ===================================================================== *)

Module Examples.
Import CompareResults.

Definition nums (l : list Q) : json := JList (map JNum l).

(** A reference log with two fields and three time steps, in the
    [convergence.error] layout. *)
Definition ref_log : list (string * json) :=
  [("convergence",
    JObj [("error",
      JObj [("solid", JList [nums [1; 1 # 10; 1 # 100];
                             nums [1; 1 # 10];
                             nums [1; 1 # 5; 1 # 50; 1 # 500]]);
            ("fluid", JList [nums [1; 1 # 2];
                             nums [1; 1 # 2];
                             nums [1; 1 # 2]])])])].

(** A test log in the top-level [error] layout whose first field
    ([solid]) needs 3, 6 and 1 iterations instead of 3, 2 and 4, and
    whose second field ([fluid]) needs nine iterations per step instead
    of two. *)
Definition test_log : list (string * json) :=
  [("error",
    JObj [("solid", JList [nums [1; 1 # 10; 1 # 100];
                           nums [1; 1 # 2; 1 # 4; 1 # 8; 1 # 16; 1 # 10];
                           nums [1 # 500]]);
          ("fluid", JList [nums [1; 1; 1; 1; 1; 1; 1; 1; 1 # 2];
                           nums [1; 1; 1; 1; 1; 1; 1; 1; 1 # 2];
                           nums [1; 1; 1; 1; 1; 1; 1; 1; 1 # 2]])])].

(** A test log that agrees with [ref_log] on the first field, while its
    second field needs nine iterations per step instead of two. *)
Definition test_log_fluid_only : list (string * json) :=
  [("error",
    JObj [("solid", JList [nums [1; 1 # 10; 1 # 100];
                           nums [1; 1 # 10];
                           nums [1; 1 # 5; 1 # 50; 1 # 500]]);
          ("fluid", JList [nums [1; 1; 1; 1; 1; 1; 1; 1; 1 # 2];
                           nums [1; 1; 1; 1; 1; 1; 1; 1; 1 # 2];
                           nums [1; 1; 1; 1; 1; 1; 1; 1; 1 # 2]])])].




(** Seven samples of a mid-section wall shear stress, and the per-step
    result dictionaries that hold them. *)
Definition wss_series : list Q := [1; 2; 3; 4; 5; 6; 7].

Definition wss_results : list PostFluid.results_t :=
  map (fun w => [("wss_mid_mean", PostFluid.VNum w)]) wss_series.

(** A snapshot with five points along the axis and a one-dimensional
    WSS array.  The band around the middle (z = 5, half-width 1/2) holds
    the points 1, 2 and 3; point 2 is an interior node with zero WSS. *)
Definition ring_snapshot : vtu :=
  Vtu [(0, 0, 0); (0, 1, 5); (0, 0, 5); (1, 0, 5 + (1 # 4)); (0, 0, 10)]
      None None
      (Some (Arr1 [7; 2; 0; 4; 9]))
      None.

(** Points on the outer wall (radius 2) of a vessel of length 10, and
    one interior point; every point lies on a coordinate half-plane. *)
Definition wall_points : list (Q * Q * Q) :=
  [(0, 2, 0); (2, 0, 0); (0, -2, 0); (-2, 0, 0);
   (0, 2, 10); (0, 2, 5); (2, 0, 5); (1, 0, 5)].

(** The same wall with the point at 12 o'clock, z = 5, given twice. *)
Definition wall_points_duplicate : list (Q * Q * Q) :=
  [(0, 2, 0); (0, 2, 10); (0, 2, 5); (0, 2, 5)].

(** Three centerline points of a vessel of length 100; the middle one
    lies at z = 50.0004, not at z = 50. *)
Definition centerline_points : list (Q * Q * Q) :=
  [(0, 0, 100); (0, 0, 500004 # 10000); (0, 0, 0)].

(** Snapshots of a single point with a given pressure, a velocity of
    magnitude 5 and neither a WSS nor a Traction array. *)
Definition single_point : list (Q * Q * Q) := [(0, 0, 0)].

Definition pressure_snapshot (p : Q) : vtu :=
  Vtu single_point (Some [p]) (Some (Arr2 [[3; 4; 0]])) None None.

Definition three_snapshots : list vtu := map pressure_snapshot [1; 2; 3].


(** Two snapshots on [wall_points]: the first has no point data at all,
    the second has every array, with a wall shear stress of magnitude 5
    at every point. *)
Definition bare_snapshot : vtu := Vtu wall_points None None None None.

Definition full_snapshot : vtu :=
  Vtu wall_points
      (Some (repeat 1 8))
      (Some (Arr2 (repeat [0; 0; 1] 8)))
      (Some (Arr2 (repeat [3; 0; 4] 8)))
      None.

(** A snapshot on [wall_points] with a pressure and a velocity array and
    neither a WSS nor a Traction array. *)
Definition no_wss_snapshot : vtu :=
  Vtu wall_points
      (Some (repeat 1 8))
      (Some (Arr2 (repeat [0; 0; 1] 8)))
      None
      None.

(** A snapshot on [wall_points] that has only a Traction array. *)
Definition traction_snapshot : vtu :=
  Vtu wall_points None None None (Some (Arr2 (repeat [0; 6; 8] 8))).

End Examples.

(* ===================================================================== *)
(** * scripts/compare_results.py: the comparison of mesh files *)
(* ===================================================================== *)

Module CompareVtu.

(** [mesh.point_data], what [load_vtu] returns: the named point-data
    arrays of a mesh file.  The arrays of this module hold finite
    values; [CompareVtuFloat] below is the comparison for arrays that
    may hold infinities and NaN, and agrees with this one on finite
    arrays. *)
Definition point_data := list (string * ndarray).

(** [RTOL], in the order in which [RTOL.items()] yields its entries. *)
Definition RTOL : list (string * Q) :=
  [("Displacement", 1 # 100000000); ("Velocity", 1 # 10000000)].

(** [arr.flatten().astype(float)]. *)
Definition flatten (a : ndarray) : list Q :=
  match a with
  | Arr1 v => v
  | Arr2 rows => concat rows
  end.

Fixpoint map2 (f : Q -> Q -> Q) (a b : list Q) : list Q :=
  match a, b with
  | x :: a', y :: b' => f x y :: map2 f a' b'
  | _, _ => []
  end.

(** An elementwise operation on two one-dimensional arrays, with numpy's
    broadcasting: an array of one element is stretched to the length of
    the other, and any other pair of different lengths is refused. *)
Definition broadcast2 (f : Q -> Q -> Q) (a b : list Q) : result (list Q) :=
  if (length a =? length b)%nat then Ok (map2 f a b)
  else match a, b with
       | [x], _ => Ok (map (f x) b)
       | _, [y] => Ok (map (fun x => f x y) a)
       | _, _ => Raise (ValueError "operands could not be broadcast together")
       end.

(** Line 249: [|a - b| - rtol - rtol * |b|] for one pair of values. *)
Definition excess (rtol a b : Q) : Q := Qabs (a - b) - rtol - rtol * Qabs b.

(** [arr.argmax()]: the index of the first largest element. *)
Fixpoint argmax_from (best_i : nat) (best : Q) (i : nat) (l : list Q) : nat :=
  match l with
  | [] => best_i
  | x :: l' =>
      if Qlt_bool best x then argmax_from i x (S i) l'
      else argmax_from best_i best (S i) l'
  end.

Definition argmax (l : list Q) : result nat :=
  match l with
  | [] => Raise (ValueError "attempt to get argmax of an empty sequence")
  | x :: l' => Ok (argmax_from 0 x 1 l')
  end.

(** One line of the failure message (lines 263-264): the field, the
    fraction of points outside the tolerance, the tolerance, the largest
    excess and the absolute difference at the point where it occurs. *)
Record field_report := FieldReport {
  fr_field : string;
  fr_wrong : Q;
  fr_rtol : Q;
  fr_max_rel : Q;
  fr_max_abs : Q
}.

(** Lines 236-264: the loop over the compared fields; [msg] holds the
    lines collected so far. *)
Fixpoint fields_loop (ref_data test_data : point_data) (rtols : list (string * Q))
    (msg : list field_report) : result (list field_report) :=
  match rtols with
  | [] => Ok msg
  | (field, rtol) :: rest =>
      match dict_get String.eqb ref_data field with
      | None => fields_loop ref_data test_data rest msg
      | Some ref_arr =>
          match dict_get String.eqb test_data field with
          | None =>
              Raise (ComparisonError
                       (VtuFailure ("Field '" ++ field ++ "' missing in test VTU")))
          | Some test_arr =>
              let a := flatten test_arr in
              let b := flatten ref_arr in
              rel_diff <- broadcast2 (excess rtol) a b ;;
              let close := map (fun d => Qle_bool d 0) rel_diff in
              if forallb (fun c : bool => c) close
              then fields_loop ref_data test_data rest msg
              else
                let wrong :=
                  1 - inject_Z (Z.of_nat (length (filter (fun c : bool => c) close)))
                      / inject_Z (Z.of_nat (length close)) in
                i_max <- argmax rel_diff ;;
                max_rel <- getitem rel_diff i_max ;;
                ai <- getitem a i_max ;;
                bi <- getitem b i_max ;;
                let max_abs := Qabs (ai - bi) in
                fields_loop ref_data test_data rest
                  (msg ++ [FieldReport field wrong rtol max_rel max_abs])
          end
      end
  end.

(** How a call of [compare_vtu] ends. *)
Inductive vtu_outcome :=
| VtuPass                                    (* returns *)
| VtuDiffer (reports : list field_report)    (* ComparisonError("VTU field differences exceed tolerance:\n" + lines) *)
| VtuRaise (e : exn).                        (* any other exception *)

(** [compare_vtu], applied to the point data of the two files.  The
    progress lines it prints are not modelled. *)
Definition compare_vtu (ref_data test_data : point_data) : vtu_outcome :=
  match fields_loop ref_data test_data RTOL [] with
  | Ok [] => VtuPass
  | Ok (r :: rs) => VtuDiffer (r :: rs)
  | Raise e => VtuRaise e
  end.

End CompareVtu.

(* ===================================================================== *)
(** * scripts/compare_results.py: mesh files with infinities and NaN *)
(* ===================================================================== *)

Module CompareVtuFloat.

(** [a * b] on floats: zero times an infinity is NaN. *)
Definition float_mul (a b : pyfloat) : pyfloat :=
  match a, b with
  | Finite x, Finite y => Finite (x * y)
  | Special NaN, _ => Special NaN
  | _, Special NaN => Special NaN
  | Finite x, Special PosInf | Special PosInf, Finite x =>
      if Qeq_bool x 0 then Special NaN
      else if Qlt_bool 0 x then Special PosInf else Special NegInf
  | Finite x, Special NegInf | Special NegInf, Finite x =>
      if Qeq_bool x 0 then Special NaN
      else if Qlt_bool 0 x then Special NegInf else Special PosInf
  | Special PosInf, Special PosInf | Special NegInf, Special NegInf => Special PosInf
  | Special PosInf, Special NegInf | Special NegInf, Special PosInf => Special NegInf
  end.

(** [a <= b]: false when either side is NaN. *)
Definition float_le (a b : pyfloat) : bool :=
  match a, b with
  | Finite x, Finite y => Qle_bool x y
  | Special NaN, _ => false
  | _, Special NaN => false
  | Special NegInf, _ => true
  | _, Special PosInf => true
  | Special PosInf, _ => false
  | Finite _, Special NegInf => false
  end.

Definition is_nan (a : pyfloat) : bool :=
  match a with
  | Special NaN => true
  | _ => false
  end.

Definition is_finite (a : pyfloat) : Prop := exists q, a = Finite q.

(** A point-data array after [.flatten().astype(float)]. *)
Definition float_array := list pyfloat.

Definition point_data := list (string * float_array).

Fixpoint map2 (f : pyfloat -> pyfloat -> pyfloat) (a b : float_array) : float_array :=
  match a, b with
  | x :: a', y :: b' => f x y :: map2 f a' b'
  | _, _ => []
  end.

(** Broadcasting, as in [CompareVtu.broadcast2]. *)
Definition broadcast2 (f : pyfloat -> pyfloat -> pyfloat) (a b : float_array)
    : result float_array :=
  if (length a =? length b)%nat then Ok (map2 f a b)
  else match a, b with
       | [x], _ => Ok (map (f x) b)
       | _, [y] => Ok (map (fun x => f x y) a)
       | _, _ => Raise (ValueError "operands could not be broadcast together")
       end.

(** Line 249: [|a - b| - rtol - rtol * |b|] for one pair of values. *)
Definition excess (rtol : Q) (a b : pyfloat) : pyfloat :=
  float_sub (float_sub (float_abs (float_sub a b)) (Finite rtol))
            (float_mul (Finite rtol) (float_abs b)).

(** [arr.argmax()]: the index of the first NaN when there is one, and
    otherwise of the first largest element. *)
Fixpoint argmax_from (best_i : nat) (best : pyfloat) (i : nat) (l : float_array) : nat :=
  match l with
  | [] => best_i
  | x :: l' =>
      if is_nan best then best_i
      else if negb (float_le x best) then argmax_from i x (S i) l'
      else argmax_from best_i best (S i) l'
  end.

Definition argmax (l : float_array) : result nat :=
  match l with
  | [] => Raise (ValueError "attempt to get argmax of an empty sequence")
  | x :: l' => Ok (argmax_from 0 x 1 l')
  end.

Record field_report := FieldReport {
  fr_field : string;
  fr_wrong : Q;
  fr_rtol : Q;
  fr_max_rel : pyfloat;
  fr_max_abs : pyfloat
}.

(** Lines 236-264: the loop over the compared fields. *)
Fixpoint fields_loop (ref_data test_data : point_data) (rtols : list (string * Q))
    (msg : list field_report) : result (list field_report) :=
  match rtols with
  | [] => Ok msg
  | (field, rtol) :: rest =>
      match dict_get String.eqb ref_data field with
      | None => fields_loop ref_data test_data rest msg
      | Some b =>
          match dict_get String.eqb test_data field with
          | None =>
              Raise (ComparisonError
                       (VtuFailure ("Field '" ++ field ++ "' missing in test VTU")))
          | Some a =>
              rel_diff <- broadcast2 (excess rtol) a b ;;
              let close := map (fun d => float_le d (Finite 0)) rel_diff in
              if forallb (fun c : bool => c) close
              then fields_loop ref_data test_data rest msg
              else
                let wrong :=
                  1 - inject_Z (Z.of_nat (length (filter (fun c : bool => c) close)))
                      / inject_Z (Z.of_nat (length close)) in
                i_max <- argmax rel_diff ;;
                max_rel <- getitem rel_diff i_max ;;
                ai <- getitem a i_max ;;
                bi <- getitem b i_max ;;
                let max_abs := float_abs (float_sub ai bi) in
                fields_loop ref_data test_data rest
                  (msg ++ [FieldReport field wrong rtol max_rel max_abs])
          end
      end
  end.

(** How a call of [compare_vtu] ends. *)
Inductive vtu_outcome :=
| VtuPass
| VtuDiffer (reports : list field_report)
| VtuRaise (e : exn).

(** [compare_vtu], applied to the flattened point data of the two
    files.  The progress lines it prints are not modelled. *)
Definition compare_vtu (ref_data test_data : point_data) : vtu_outcome :=
  match fields_loop ref_data test_data CompareVtu.RTOL [] with
  | Ok [] => VtuPass
  | Ok (r :: rs) => VtuDiffer (r :: rs)
  | Raise e => VtuRaise e
  end.

(** The point data of a file with finite entries, and the outcome of
    comparing such files. *)
Definition of_finite (d : CompareVtu.point_data) : point_data :=
  map (fun e : string * ndarray => (fst e, map Finite (CompareVtu.flatten (snd e)))) d.

Definition report_of_finite (r : CompareVtu.field_report) : field_report :=
  FieldReport (CompareVtu.fr_field r) (CompareVtu.fr_wrong r) (CompareVtu.fr_rtol r)
    (Finite (CompareVtu.fr_max_rel r)) (Finite (CompareVtu.fr_max_abs r)).

Definition outcome_of_finite (o : CompareVtu.vtu_outcome) : vtu_outcome :=
  match o with
  | CompareVtu.VtuPass => VtuPass
  | CompareVtu.VtuDiffer reports => VtuDiffer (map report_of_finite reports)
  | CompareVtu.VtuRaise e => VtuRaise e
  end.

End CompareVtuFloat.

(* ===================================================================== *)
(** * pulsatile_flow/post_steady_fluid.py: the ring time series *)
(* ===================================================================== *)

Module PostSteadyPlots.
Import PostSteadyFluid.

(** One curve drawn by [ax.plot(time_steps, wss_avg, label=label)]. *)
Record series_line := SeriesLine {
  sl_label : string;
  sl_steps : list Z;
  sl_values : list Q
}.

(** [np.mean(wss_data, axis=1)] for the stack [wss_data] of one array
    per time step: the mean of every row.  The array made from an empty
    stack has one dimension only, so it has no axis 1. *)
Definition mean_axis1 (wss_data : list (list Q)) : result (list Q) :=
  match wss_data with
  | [] => Raise AxisError
  | _ :: _ => Ok (map np_mean wss_data)
  end.

(** [np.arange(n) + start_step + 1]. *)
Definition step_numbers (n : nat) (start_step : Z) : list Z :=
  map (fun k => (Z.of_nat k + start_step + 1)%Z) (seq 0 n).

(** Lines 400-414 of [plot_wss_time_series]: the curve of one ring, when
    the time series has the ring and a [wss] field for it. *)
Definition ring_curve (data_interface_time : post_t) (start_step : Z)
    (l : loc) (label : string) : result (option series_line) :=
  match dict_get loc_eqb data_interface_time l with
  | None => Ok None
  | Some fields =>
      match dict_get String.eqb fields "wss" with
      | None => Ok None
      | Some wss_data =>
          (wss_avg <- mean_axis1 wss_data ;;
           let wss_avg := map (fun w => w * f_scales_wss) wss_avg in
           let time_steps := step_numbers (length wss_avg) start_step in
           Ok (Some (SeriesLine label time_steps wss_avg)))%result
      end
  end.

(** The three rings of [plot_wss_time_series] with their labels. *)
Definition rings : list (loc * string) :=
  [((colon, SStr "wall", SStr "start"), "Inlet");
   ((colon, SStr "wall", SStr "mid"), "Mid");
   ((colon, SStr "wall", SStr "end"), "Outlet")].

Fixpoint ring_loop (data_interface_time : post_t) (start_step : Z)
    (rs : list (loc * string)) : result (list series_line) :=
  match rs with
  | [] => Ok []
  | (l, label) :: rest =>
      (c <- ring_curve data_interface_time start_step l label ;;
       cs <- ring_loop data_interface_time start_step rest ;;
       Ok (match c with Some line => line :: cs | None => cs end))%result
  end.

(** [plot_wss_time_series(data_interface_time, out, start_step)]: the
    curves of the saved figure. *)
Definition plot_wss_time_series (data_interface_time : post_t) (start_step : Z)
    : out (list series_line) :=
  bind_out (lift (ring_loop data_interface_time start_step rings))
    (fun lines =>
       bind_out (print (MsgSaved "wss_time_series_rings.pdf"))
         (fun _ => ret lines)).

End PostSteadyPlots.

(* ===================================================================== *)
(** * Notions used to state further properties *)
(* ===================================================================== *)

Module Notions.
Import CompareResults.

(** [isinstance(j, list)]. *)
Definition is_list (j : json) : bool :=
  match j with
  | JList _ => true
  | _ => false
  end.

(** A time-step entry that [extract_convergence_data] accepts: a list
    with at least one element. *)
Definition valid_entry (j : json) : bool :=
  match j with
  | JList (_ :: _) => true
  | _ => false
  end.

(** The last element of a time-step entry. *)
Definition final_error (j : json) : json :=
  match j with
  | JList (e0 :: es) => last (e0 :: es) e0
  | _ => JNull
  end.

(** The time-step list of the member [f] of an [errors] mapping, when it
    has one that is a list. *)
Definition list_field (items : list (string * json)) (f : string) : option (list json) :=
  match dict_get String.eqb items f with
  | Some (JList tse) => Some tse
  | _ => None
  end.

(** Convergence data without the fields that [keep] does not have. *)
Definition restrict_to (keep : list (string * list json)) (cd : convergence_data)
    : convergence_data :=
  ConvergenceData (time_steps cd) (iterations cd)
    (filter (fun e : string * list json => dict_mem String.eqb keep (fst e)) (errors cd)).

(** The pairs of a reference and a test value whose difference, as the
    error-norm check computes it, is NaN. *)
Definition nan_difference (r s : pyfloat) : Prop :=
  r = Special PosInf \/ r = Special NaN \/ s = Special NaN \/
  (r = Special NegInf /\ s = Special NegInf).

(** A tolerance that no difference is greater than. *)
Definition never_exceeded (tol : pyfloat) : Prop :=
  tol = Special PosInf \/ tol = Special NaN.

(** What passing the error-norm check says about the pair of final
    errors of field entries [refs] and [tests] at time step [t]: the
    two are numbers, and either they are finite and within the finite
    tolerance, or their difference is NaN, or the tolerance is one that
    is never exceeded. *)
Definition norm_within (tol : pyfloat) (refs tests : list json) (t : nat) : Prop :=
  exists jr js r s,
    nth_error refs t = Some jr /\ nth_error tests t = Some js /\
    as_number jr = Ok r /\ as_number js = Ok s /\
    (nan_difference r s \/ never_exceeded tol \/
     exists qr qs qt,
       r = Finite qr /\ s = Finite qs /\ tol = Finite qt /\
       Spec.norm_diff qr qs <= qt).






(** A registered key that no point matches. *)
Definition unmatched (pts_cra : list (Q * Q * Q)) (e : loc * (Q * Q * Q)) : bool :=
  (length (PostSteadyFluid.select pts_cra (fst e) (snd e)) =? 0)%nat.

(** A key with a wildcard [":"]. *)
Definition has_wildcard (l : loc) : bool :=
  match PostSteadyFluid.wildcard_index l with
  | Some _ => true
  | None => false
  end.

(** A point-data array that has one row of components per mesh point,
    for a mesh of [n] points; an absent array counts as well. *)
Definition covers (n : nat) (a : option ndarray) : Prop :=
  match a with
  | Some (Arr2 rows) => length rows = n
  | Some (Arr1 _) => False
  | None => True
  end.

(** A snapshot of a mesh of [n] points with a pressure value and a
    velocity vector for every point, and whose wall shear stress array
    (or, without one, its traction array), when present, has a vector
    for every point. *)
Definition well_formed (n : nat) (res : vtu) : Prop :=
  (exists p, Pressure res = Some p /\ length p = n) /\
  (exists rows, Velocity res = Some (Arr2 rows) /\ length rows = n) /\
  covers n (WSS res) /\
  (WSS res = None -> covers n (Traction res)).


(** The keys that each part of [extract_results_fluid] writes. *)
Definition pressure_keys : list string :=
  ["pressure"; "pressure_mean"; "pressure_max"; "pressure_min"].
Definition velocity_keys : list string :=
  ["velocity"; "velocity_mag"; "velocity_mean"; "velocity_max"].
Definition wss_keys : list string :=
  ["wss"; "wss_mag"; "wss_mean"; "wss_max"; "wss_mid_mean"].
Definition traction_keys : list string :=
  ["traction"; "traction_mag"; "traction_mean"; "traction_max"].

Definition among (keys : list string) (k : string) : bool := existsb (String.eqb k) keys.

(** [HasArray]. *)
Definition present {A} (a : option A) : bool :=
  match a with
  | Some _ => true
  | None => false
  end.

(** A per-step dictionary that holds a number under [k] if it holds
    anything there. *)
Definition scalar_at (k : string) (r : PostFluid.results_t) : Prop :=
  forall a, dict_get String.eqb r k <> Some (PostFluid.VArr a).

End Notions.

(* ===================================================================== *)
(** * Further example inputs *)
(* ===================================================================== *)

Module MoreExamples.
Import CompareResults Examples.

(** A log with one field and two time steps, which agree with the first
    two time steps of [ref_log]. *)
Definition short_log : list (string * json) :=
  [("error", JObj [("solid", JList [nums [1; 1 # 10; 1 # 100]; nums [1; 1 # 10]])])].




(** The data of [mesh_data] with another pressure only. *)
Definition mesh_data_pressure : CompareVtu.point_data :=
  [("Displacement", Arr2 [[0; 0; 1]; [0; 0; 2]]);
   ("Velocity", Arr2 [[1; 0; 0]; [2; 0; 0]]);
   ("Pressure", Arr1 [11; 22])].


(** The flattened data of a mesh file with finite entries, the same
    data with another pressure, and a file whose displacement has a
    NaN entry. *)
Definition float_mesh : CompareVtuFloat.point_data :=
  [("Displacement", [Finite 1; Finite 2; Finite 3]); ("Pressure", [Finite 5])].

Definition float_mesh_pressure : CompareVtuFloat.point_data :=
  [("Displacement", [Finite 1; Finite 2; Finite 3]); ("Pressure", [Finite 6])].

Definition nan_mesh : CompareVtuFloat.point_data :=
  [("Displacement", [Finite 1; Special NaN; Finite 3])].

(** A reference log whose only time step ends with the norm [1e400],
    beyond the range of a double, and a test log that ends with 7. *)
Definition overflow_log : list (string * json) :=
  [("error", JObj [("solid", JList [JList [JNum 1; JNonFinite PosInf]])])].

Definition seven_log : list (string * json) :=
  [("error", JObj [("solid", JList [JList [JNum 1; JNum 7]])])].

(** A snapshot of [wall_points] whose WSS array has one component. *)
Definition scalar_wss_snapshot : vtu :=
  Vtu wall_points None None (Some (Arr1 [1; 2; 3; 4; 5; 6; 7; 8])) None.


End MoreExamples.

(* ===================================================================== *)
(** * Properties *)
(* ===================================================================== *)

Lemma Qlt_bool_iff (a b : Q) : Qlt_bool a b = true <-> a < b.
Proof.
  unfold Qlt_bool. rewrite negb_true_iff.
  destruct (Qle_bool b a) eqn:E.
  - apply Qle_bool_iff in E. split; [discriminate | intros H; exfalso; lra].
  - split; [intros _ | reflexivity].
    destruct (Qlt_le_dec a b) as [H | H]; [exact H |].
    apply Qle_bool_iff in H. congruence.
Qed.

Lemma Qlt_bool_false_iff (a b : Q) : Qlt_bool a b = false <-> b <= a.
Proof.
  unfold Qlt_bool. rewrite negb_false_iff. apply Qle_bool_iff.
Qed.


Lemma filter_none {A} (f : A -> bool) (l : list A) :
  (forall x, In x l -> f x = false) -> filter f l = [].
Proof.
  induction l as [| a l IH]; simpl; intros H; [reflexivity |].
  rewrite (H a) by now left. apply IH. intros x Hx. apply H. now right.
Qed.

(* --------------------------------------------------------------------- *)
(** ** The regression comparator *)
(* --------------------------------------------------------------------- *)

Section CompareFacts.
Import CompareResults Spec.

Lemma getitem_nth {A} (l : list A) (t : nat) (d : A) :
  (t < length l)%nat -> getitem l t = Ok (nth t l d).
Proof.
  intros H. unfold getitem.
  rewrite (nth_error_nth' l d H). reflexivity.
Qed.


(** *** Extraction of the iteration counts *)

(** A time step appends its count exactly when none is recorded for it:
    starting with [t] counts recorded, every entry appends. *)
Lemma time_step_loop_fresh f l : forall t iters finals iters' finals',
  length iters = t ->
  time_step_loop f t l iters finals = Ok (iters', finals') ->
  iters' = iters ++ map entry_length l.
Proof.
  induction l as [| j l IH]; intros t iters finals iters' finals' Hlen H; simpl in H.
  - inversion H. now rewrite app_nil_r.
  - destruct j as [| | | | | [| e0 es] |]; try discriminate.
    rewrite Hlen, Nat.leb_refl in H.
    apply IH in H; [| rewrite length_app; simpl; lia].
    rewrite H, <- app_assoc. reflexivity.
Qed.

(** ... and when all the counts are already recorded, none is appended. *)
Lemma time_step_loop_recorded f l : forall t iters finals iters' finals',
  (t + length l <= length iters)%nat ->
  time_step_loop f t l iters finals = Ok (iters', finals') ->
  iters' = iters.
Proof.
  induction l as [| j l IH]; intros t iters finals iters' finals' Hlen H; simpl in H.
  - now inversion H.
  - destruct j as [| | | | | [| e0 es] |]; try discriminate.
    simpl in Hlen.
    destruct (Nat.leb_spec (length iters) t) as [Hle | Hlt]; [lia |].
    apply IH in H; [exact H | lia].
Qed.

(** Once counts are recorded, the later fields leave them alone. *)
Lemma field_loop_recorded items : forall cd cd',
  time_steps cd <> 0%nat ->
  length (iterations cd) = time_steps cd ->
  field_loop items cd = Ok cd' ->
  iterations cd' = iterations cd /\ time_steps cd' = time_steps cd.
Proof.
  induction items as [| [f v] items IH]; intros cd cd' Hnz Hlen H; simpl in H.
  - inversion H. auto.
  - destruct v as [| | | | | tse |]; try (apply IH; assumption).
    destruct (Nat.eqb_spec (time_steps cd) 0) as [E | _]; [contradiction |].
    destruct (Nat.eqb_spec (time_steps cd) (length tse)) as [E | _];
      simpl in H; [| discriminate].
    destruct (time_step_loop f 0 tse (iterations cd) []) as [[iters finals] |] eqn:T;
      simpl in H; [| discriminate].
    apply time_step_loop_recorded in T; [| simpl; lia].
    subst iters.
    apply IH in H; simpl; auto.
Qed.

(** The counts come from the first field that has time steps. *)
Lemma field_loop_first items : forall cd cd',
  time_steps cd = 0%nat ->
  iterations cd = [] ->
  field_loop items cd = Ok cd' ->
  iterations cd' = map entry_length (first_series items) /\
  time_steps cd' = length (iterations cd').
Proof.
  induction items as [| [f v] items IH]; intros cd cd' Hts Hit H;
    cbn [field_loop] in H.
  - inversion H; subst. rewrite Hit, Hts. auto.
  - destruct v as [| | | | | tse |]; try (cbn [first_series]; apply (IH cd cd'); assumption).
    rewrite Hts in H. simpl in H.
    destruct (time_step_loop f 0 tse (iterations cd) []) as [[iters finals] |] eqn:T;
      simpl in H; [| discriminate].
    rewrite Hit in T.
    apply time_step_loop_fresh in T; [| reflexivity]. simpl in T. subst iters.
    destruct tse as [| e es].
    + simpl in H. apply IH in H; auto.
    + apply field_loop_recorded in H; simpl in *; [| discriminate | now rewrite length_map].
      destruct H as [H1 H2]. rewrite H1, H2. simpl. now rewrite length_map.
Qed.

Lemma except_KeyError_Ok {A} (m : result A) (a : A) :
  except_KeyError m = Ok a -> m = Ok a.
Proof.
  destruct m as [x | e]; simpl; [auto |].
  destruct e as [ | | | | | [k | l] | | | | ]; discriminate.
Qed.

(** What [extract_convergence_data] records as iteration counts. *)
Lemma extract_iterations data items cd :
  select_errors data = Ok (JObj items) ->
  extract_convergence_data data = Ok cd ->
  iterations cd = map entry_length (first_series items) /\
  time_steps cd = length (iterations cd).
Proof.
  intros Hsel H. unfold extract_convergence_data in H.
  apply except_KeyError_Ok in H. rewrite Hsel in H. simpl in H.
  apply field_loop_first in H; auto.
Qed.

(** Every successful extraction records one count per time step. *)
Lemma extract_length data cd :
  extract_convergence_data data = Ok cd ->
  length (iterations cd) = time_steps cd.
Proof.
  intros H. pose proof H as H0. unfold extract_convergence_data in H.
  apply except_KeyError_Ok in H.
  destruct (select_errors data) as [errs |] eqn:Hsel; simpl in H; [| discriminate].
  destruct errs as [| | | | | | items]; try discriminate.
  destruct (extract_iterations data Hsel H0) as [_ E]. now rewrite E.
Qed.

(** *** The iteration-count check *)

Lemma iterations_loop_spec refs tests tol ts : forall acc,
  Forall (fun t => (t < length refs)%nat /\ (t < length tests)%nat) ts ->
  iterations_loop refs tests tol ts acc =
  Ok (acc ++ map (fun t => IterFailure t (nth t refs 0%Z) (nth t tests 0%Z)
                              (Z.abs (nth t tests 0%Z - nth t refs 0%Z)) tol)
               (filter (fun t => (tol <? Z.abs (nth t tests 0%Z - nth t refs 0%Z))%Z) ts)).
Proof.
  induction ts as [| t ts IH]; intros acc Hin; simpl.
  - now rewrite app_nil_r.
  - inversion Hin as [| ? ? [Hr Ht] Hrest]; subst.
    rewrite (getitem_nth refs 0%Z Hr), (getitem_nth tests 0%Z Ht). simpl.
    rewrite IH by assumption.
    destruct (tol <? Z.abs (nth t tests 0%Z - nth t refs 0%Z))%Z; simpl.
    + now rewrite <- app_assoc.
    + reflexivity.
Qed.

Lemma compare_iterations_spec ref_data test_data tol :
  length (iterations ref_data) = time_steps ref_data ->
  length (iterations test_data) = time_steps ref_data ->
  compare_iterations ref_data test_data tol =
  match violations ref_data test_data tol with
  | [] => Ok true
  | v :: vs => Raise (ComparisonError (IterationFailures (v :: vs)))
  end.
Proof.
  intros Hr Ht. unfold compare_iterations.
  rewrite iterations_loop_spec.
  - cbn [bind app].
    change (map _ (filter _ _)) with (violations ref_data test_data tol).
    destruct (violations ref_data test_data tol); reflexivity.
  - apply Forall_forall. intros t Hin. apply in_seq in Hin. lia.
Qed.

Lemma in_violations ref_data test_data tol t :
  In t (map if_step (violations ref_data test_data tol)) <->
  (t < time_steps ref_data)%nat /\
  (tol < Z.abs (nth t (iterations test_data) 0 - nth t (iterations ref_data) 0))%Z.
Proof.
  unfold violations. rewrite map_map. simpl. rewrite map_id.
  rewrite filter_In, in_seq. unfold exceeds. rewrite Z.ltb_lt. lia.
Qed.

Lemma compare_time_steps_eq ref_data test_data :
  time_steps ref_data = time_steps test_data ->
  compare_time_steps ref_data test_data = Ok true.
Proof.
  intros E. unfold compare_time_steps. rewrite E, Nat.eqb_refl. reflexivity.
Qed.

(** The exit code is 1 as soon as the body of [main] raises. *)
Lemma main_raise ref_json test_json iter_tol err_tol vtu e :
  main_body ref_json test_json iter_tol err_tol vtu = Raise e ->
  main ref_json test_json iter_tol err_tol vtu = 1%Z.
Proof.
  intros H. unfold main. rewrite H. destruct e; reflexivity.
Qed.

Lemma main_iterations_fail ref_json test_json ref_data test_data iter_tol err_tol vtu e :
  extract_convergence_data ref_json = Ok ref_data ->
  extract_convergence_data test_json = Ok test_data ->
  compare_iterations ref_data test_data iter_tol = Raise e ->
  main ref_json test_json iter_tol err_tol vtu = 1%Z.
Proof.
  intros Hr Ht Hc.
  assert (exists e', main_body ref_json test_json iter_tol err_tol vtu = Raise e')
    as [e' He'].
  { unfold main_body. rewrite Hr, Ht. simpl.
    destruct (print_summary ref_data test_data); simpl; [| eauto].
    destruct (compare_time_steps ref_data test_data); simpl; [| eauto].
    rewrite Hc. simpl. eauto. }
  eapply main_raise; eauto.
Qed.

(** *** The error-norm check *)

Lemma rel_diff_finite (qr qs : Q) :
  rel_diff (Finite qr) (Finite qs) = Ok (Finite (norm_diff qr qs)).
Proof.
  unfold rel_diff, norm_diff. cbn [float_gt float_sub float_abs float_truediv].
  destruct (Qlt_bool 0 qr) eqn:E; [| reflexivity].
  apply Qlt_bool_iff in E.
  destruct (Qeq_bool qr 0) eqn:Z0; [| reflexivity].
  apply Qeq_bool_iff in Z0. lra.
Qed.









(** What a pass over the time steps of one field adds to the failure
    lines: the line of every step whose difference is greater than the
    tolerance, and nothing else. *)
Lemma norms_step_loop_spec f refs tests tol ts : forall acc fs,
  norms_step_loop f refs tests tol ts acc = Ok fs ->
  exists extra, fs = acc ++ extra /\
    (forall t, In t ts -> exists r x d,
        step_values_with rel_diff refs tests t r x d /\
        (float_gt d tol = true -> In (NormFailure f t r x d tol) extra)) /\
    (forall fl, In fl extra -> exists t r x d,
        In t ts /\ step_values_with rel_diff refs tests t r x d /\
        float_gt d tol = true /\ fl = NormFailure f t r x d tol).
Proof.
  induction ts as [| t ts IH]; intros acc fs H; simpl in H.
  - inversion H. exists []. rewrite app_nil_r.
    split; [reflexivity |]. split; [intros t [] | intros fl []].
  - unfold getitem in H.
    destruct (nth_error refs t) as [jr |] eqn:Gr; cbn [bind] in H; [| discriminate].
    destruct (nth_error tests t) as [js |] eqn:Gt; cbn [bind] in H; [| discriminate].
    destruct (as_number jr) as [r |] eqn:Er; cbn [bind] in H; [| discriminate].
    destruct (as_number js) as [s |] eqn:Es; cbn [bind] in H; [| discriminate].
    destruct (rel_diff r s) as [d |] eqn:Ed; cbn [bind] in H; [| discriminate].
    assert (step_values_with rel_diff refs tests t r s d) as Hv
      by (exists jr, js; repeat split; assumption).
    apply IH in H. destruct H as [extra [Hfs [Hall Hsound]]].
    destruct (float_gt d tol) eqn:Ecmp.
    + exists (NormFailure f t r s d tol :: extra). split; [| split].
      * rewrite Hfs, <- app_assoc. reflexivity.
      * intros t' [<- | Hin].
        -- exists r, s, d. split; [exact Hv |]. intros _. now left.
        -- destruct (Hall t' Hin) as [r' [x' [d' [Hv' Hi]]]].
           exists r', x', d'. split; [exact Hv' |]. intros Hg. right. now apply Hi.
      * intros fl [<- | Hin].
        -- exists t, r, s, d. split; [now left |]. auto.
        -- destruct (Hsound fl Hin) as [t' [r' [x' [d' [Ht' Hrest]]]]].
           exists t', r', x', d'. split; [now right | exact Hrest].
    + exists extra. split; [exact Hfs |]. split.
      * intros t' [<- | Hin].
        -- exists r, s, d. split; [exact Hv |]. intros Hg. congruence.
        -- now apply Hall.
      * intros fl Hin.
        destruct (Hsound fl Hin) as [t' [r' [x' [d' [Ht' Hrest]]]]].
        exists t', r', x', d'. split; [now right | exact Hrest].
Qed.

(** ... and a pass over steps none of which exceeds the tolerance adds
    nothing. *)
Lemma norms_step_loop_pass f refs tests tol ts : forall acc,
  (forall t, In t ts -> exists r x d,
      step_values_with rel_diff refs tests t r x d /\ float_gt d tol = false) ->
  norms_step_loop f refs tests tol ts acc = Ok acc.
Proof.
  induction ts as [| t ts IH]; intros acc H; [reflexivity |].
  destruct (H t (or_introl eq_refl))
    as [r [x [d [[jr [jx [Gr [Gx [Ar [Ax Hd]]]]]] Hg]]]].
  cbn [norms_step_loop]. unfold getitem. rewrite Gr, Gx. cbn [bind].
  rewrite Ar, Ax. cbn [bind]. rewrite Hd. cbn [bind]. rewrite Hg.
  apply IH. intros t' Ht'. apply H. now right.
Qed.

Lemma norms_field_loop_spec rd td tol fields : forall acc fs,
  norms_field_loop rd td tol fields acc = Ok fs ->
  exists extra, fs = acc ++ extra /\
    (forall f, In f fields -> exists refs tests,
        dict_get String.eqb (errors rd) f = Some refs /\
        dict_get String.eqb (errors td) f = Some tests /\
        forall t, (t < time_steps rd)%nat -> exists r x d,
          step_values_with rel_diff refs tests t r x d /\
          (float_gt d tol = true -> In (NormFailure f t r x d tol) extra)) /\
    (forall fl, In fl extra -> exists f refs tests t r x d,
        In f fields /\
        dict_get String.eqb (errors rd) f = Some refs /\
        dict_get String.eqb (errors td) f = Some tests /\
        (t < time_steps rd)%nat /\
        step_values_with rel_diff refs tests t r x d /\
        float_gt d tol = true /\ fl = NormFailure f t r x d tol).
Proof.
  induction fields as [| f fields IH]; intros acc fs H; simpl in H.
  - inversion H. exists []. rewrite app_nil_r.
    split; [reflexivity |]. split; [intros f [] | intros fl []].
  - destruct (dict_get String.eqb (errors rd) f) as [refs |] eqn:Gr; [| discriminate].
    destruct (dict_get String.eqb (errors td) f) as [tests |] eqn:Gt; [| discriminate].
    destruct (norms_step_loop f refs tests tol (seq 0 (time_steps rd)) acc)
      as [fs1 |] eqn:S1; cbn [bind] in H; [| discriminate].
    apply norms_step_loop_spec in S1. destruct S1 as [e1 [H1 [A1 B1]]].
    apply IH in H. destruct H as [e2 [H2 [A2 B2]]].
    exists (e1 ++ e2). split; [| split].
    + rewrite H2, H1, <- app_assoc. reflexivity.
    + intros g [<- | Hg].
      * exists refs, tests. split; [exact Gr |]. split; [exact Gt |].
        intros t Ht.
        destruct (A1 t) as [r [x [d [Hv Hi]]]]; [apply in_seq; lia |].
        exists r, x, d. split; [exact Hv |].
        intros Hgt. apply in_or_app. left. now apply Hi.
      * destruct (A2 g Hg) as [refs' [tests' [Gr' [Gt' Hsteps]]]].
        exists refs', tests'. split; [exact Gr' |]. split; [exact Gt' |].
        intros t Ht. destruct (Hsteps t Ht) as [r [x [d [Hv Hi]]]].
        exists r, x, d. split; [exact Hv |].
        intros Hgt. apply in_or_app. right. now apply Hi.
    + intros fl Hin. apply in_app_or in Hin. destruct Hin as [Hin | Hin].
      * destruct (B1 fl Hin) as [t [r [x [d [Ht [Hv [Hgt Hfl]]]]]]].
        exists f, refs, tests, t, r, x, d.
        split; [now left |]. split; [exact Gr |]. split; [exact Gt |].
        split; [apply in_seq in Ht; lia |]. auto.
      * destruct (B2 fl Hin)
          as [g [refs' [tests' [t [r [x [d [Hg Hrest]]]]]]]].
        exists g, refs', tests', t, r, x, d. split; [now right | exact Hrest].
Qed.

Lemma norms_field_loop_pass rd td tol fields : forall acc,
  (forall f, In f fields -> exists refs tests,
      dict_get String.eqb (errors rd) f = Some refs /\
      dict_get String.eqb (errors td) f = Some tests /\
      forall t, (t < time_steps rd)%nat -> exists r x d,
        step_values_with rel_diff refs tests t r x d /\ float_gt d tol = false) ->
  norms_field_loop rd td tol fields acc = Ok acc.
Proof.
  induction fields as [| f fields IH]; intros acc H; [reflexivity |].
  destruct (H f (or_introl eq_refl)) as [refs [tests [Gr [Gt Hsteps]]]].
  cbn [norms_field_loop]. rewrite Gr, Gt.
  rewrite norms_step_loop_pass.
  - cbn [bind]. apply IH. intros g Hg. apply H. now right.
  - intros t Ht. apply Hsteps. apply in_seq in Ht. lia.
Qed.

End CompareFacts.

(* --------------------------------------------------------------------- *)
(** ** The heartbeat overlay *)
(* --------------------------------------------------------------------- *)

Section OverlayFacts.
Import Spec.

Lemma firstn_plus {A} (a b : nat) (l : list A) :
  firstn (a + b) l = firstn a l ++ firstn b (skipn a l).
Proof.
  revert l. induction a as [| a IH]; intros l; simpl; [reflexivity |].
  destruct l as [| x l]; simpl.
  - now rewrite firstn_nil.
  - now rewrite IH.
Qed.

Lemma window_length p series i :
  ((i + 1) * p <= length series)%nat -> length (window p series i) = p.
Proof.
  intros H. unfold window. rewrite length_firstn, length_skipn. lia.
Qed.

(** A slice with bounds inside the list is the plain window. *)
Lemma py_slice_window (p : Z) (series : list Q) (i : nat) :
  (0 < p)%Z ->
  ((i + 1) * Z.to_nat p <= length series)%nat ->
  py_slice series (Z.of_nat i * p) (Z.of_nat i * p + p) =
  window (Z.to_nat p) series i.
Proof.
  intros Hp Hi. unfold py_slice, slice_bound, window.
  assert (Z.of_nat i * p + p <= Z.of_nat (length series))%Z as Hz by nia.
  destruct (Z.ltb_spec (Z.of_nat i * p) 0); [nia |].
  destruct (Z.ltb_spec (Z.of_nat i * p + p) 0); [nia |].
  rewrite !Z.min_l by nia.
  replace (Z.to_nat (Z.of_nat i * p + p - Z.of_nat i * p)) with (Z.to_nat p) by lia.
  replace (Z.to_nat (Z.of_nat i * p)) with (i * Z.to_nat p)%nat by nia.
  reflexivity.
Qed.

Lemma beat_loop_spec (p : Z) (series : list Q) (beats : list nat) :
  (0 < p)%Z ->
  Forall (fun i => ((i + 1) * Z.to_nat p <= length series)%nat) beats ->
  beat_loop series p (py_range p) beats =
  Ok (map (fun i => PlotLine (seq 0 (Z.to_nat p)) (window (Z.to_nat p) series i) (i + 1))
          beats).
Proof.
  intros Hp. induction beats as [| i beats IH]; intros Hall; simpl; [reflexivity |].
  inversion Hall as [| ? ? Hi Hrest]; subst.
  rewrite py_slice_window by assumption.
  unfold ax_plot, py_range. rewrite length_seq, window_length, Nat.eqb_refl by assumption.
  simpl. fold (py_range p). rewrite IH by assumption. reflexivity.
Qed.

Lemma beats_in_range (p L : nat) :
  (0 < p)%nat ->
  Forall (fun i => ((i + 1) * p <= L)%nat) (seq 0 (L / p)).
Proof.
  intros Hp. apply Forall_forall. intros i Hi. apply in_seq in Hi.
  assert (p * (L / p) <= L)%nat by (apply Nat.Div0.mul_div_le).
  nia.
Qed.

Lemma floordiv_nat (L : nat) (p : Z) :
  (0 < p)%Z ->
  floordiv (Z.of_nat L) p = Ok (Z.of_nat (L / Z.to_nat p)).
Proof.
  intros Hp. unfold floordiv.
  destruct (Z.eqb_spec p 0); [lia |].
  f_equal. rewrite Nat2Z.inj_div, Z2Nat.id by lia. reflexivity.
Qed.

(** The loop of both plotting functions draws the overlay. *)
Lemma beat_loop_overlay (p : Z) (series : list Q) :
  (0 < p)%Z ->
  beat_loop series p (py_range p)
    (py_range (Z.of_nat (length series / Z.to_nat p))) =
  Ok (overlay (Z.to_nat p) series).
Proof.
  intros Hp. unfold py_range at 2. rewrite Nat2Z.id.
  apply beat_loop_spec; [exact Hp |].
  apply beats_in_range. lia.
Qed.

Lemma overlay_length p series :
  length (overlay p series) = (length series / p)%nat.
Proof.
  unfold overlay. now rewrite length_map, length_seq.
Qed.

Lemma overlay_nth p series i :
  (i < length series / p)%nat ->
  nth_error (overlay p series) i =
  Some (PlotLine (seq 0 p) (firstn p (skipn (i * p) series)) (i + 1)).
Proof.
  intros Hi. unfold overlay.
  rewrite nth_error_map, nth_error_nth' with (d := 0%nat) by (now rewrite length_seq).
  rewrite seq_nth by exact Hi. reflexivity.
Qed.

Lemma overlay_window_length p series :
  (0 < p)%nat ->
  Forall (fun ln => length (line_y ln) = p /\ length (line_x ln) = p) (overlay p series).
Proof.
  intros Hp. unfold overlay. apply Forall_map, Forall_forall. intros i Hi. simpl.
  rewrite length_seq. split; [| reflexivity].
  apply window_length.
  pose proof (@beats_in_range p (length series) Hp) as Hall.
  rewrite Forall_forall in Hall. auto.
Qed.

Lemma windows_concat p series : forall n,
  concat (map (window p series) (seq 0 n)) = firstn (n * p) series.
Proof.
  induction n as [| n IH]; [reflexivity |].
  rewrite seq_S, map_app, concat_app, IH. simpl. rewrite app_nil_r.
  replace (p + n * p)%nat with (n * p + p)%nat by lia.
  rewrite firstn_plus. reflexivity.
Qed.

Lemma overlay_samples p series :
  concat (map line_y (overlay p series)) = firstn (length series / p * p) series.
Proof.
  unfold overlay. rewrite map_map. simpl. apply windows_concat.
Qed.

Lemma bind_out_lift {A B} (r : result A) (k : A -> PostSteadyFluid.out B) :
  PostSteadyFluid.bind_out (PostSteadyFluid.lift r) k =
  match r with
  | Ok a => k a
  | Raise e => ([], Raise e)
  end.
Proof.
  unfold PostSteadyFluid.bind_out, PostSteadyFluid.lift.
  destruct r as [a | e]; [| reflexivity].
  destruct (k a). reflexivity.
Qed.

Lemma scalar_column_length results k : forall series,
  PostFluid.scalar_column results k = Ok series -> length series = length results.
Proof.
  induction results as [| r results IH]; intros series H; simpl in H.
  - inversion H. reflexivity.
  - destruct (PostFluid.scalar_item r k); simpl in H; [| discriminate].
    destruct (PostFluid.scalar_column results k) as [qs |]; simpl in H; [| discriminate].
    inversion H. simpl. f_equal. now apply IH.
Qed.

Lemma scalar_item_mem r k q :
  PostFluid.scalar_item r k = Ok q -> dict_mem String.eqb r k = true.
Proof.
  unfold PostFluid.scalar_item, dict_mem.
  destruct (dict_get String.eqb r k) as [[a | x] |]; intros H;
    [discriminate | reflexivity | discriminate].
Qed.

End OverlayFacts.

(* --------------------------------------------------------------------- *)
(** ** The per-step results of [post_fluid.py] *)
(* --------------------------------------------------------------------- *)

Section DictFacts.
Variables (K V : Type).
Variable eqb : K -> K -> bool.
Hypothesis eqb_eq : forall a b, eqb a b = true <-> a = b.

Lemma eqb_refl_of (a : K) : eqb a a = true.
Proof. now apply eqb_eq. Qed.

Lemma eqb_neq_of (a b : K) : a <> b -> eqb a b = false.
Proof.
  intros H. destruct (eqb a b) eqn:E; [| reflexivity].
  apply eqb_eq in E. contradiction.
Qed.

Lemma dict_get_set_same (d : list (K * V)) (k : K) (v : V) :
  dict_get eqb (dict_set eqb d k v) k = Some v.
Proof.
  induction d as [| [k' v'] d IH]; simpl.
  - now rewrite eqb_refl_of.
  - destruct (eqb k k') eqn:E; simpl; rewrite E; [reflexivity | exact IH].
Qed.

Lemma dict_get_set_other (d : list (K * V)) (k k' : K) (v : V) :
  k' <> k ->
  dict_get eqb (dict_set eqb d k v) k' = dict_get eqb d k'.
Proof.
  intros Hne. induction d as [| [k0 v0] d IH]; simpl.
  - now rewrite eqb_neq_of.
  - destruct (eqb k k0) eqn:E; simpl.
    + apply eqb_eq in E. subst k0. now rewrite eqb_neq_of.
    + destruct (eqb k' k0); [reflexivity | exact IH].
Qed.

Lemma dict_set_keys_mem (d : list (K * V)) (k : K) (v : V) :
  dict_mem eqb d k = true ->
  map fst (dict_set eqb d k v) = map fst d.
Proof.
  unfold dict_mem. induction d as [| [k0 v0] d IH]; simpl; [discriminate |].
  destruct (eqb k k0) eqn:E; simpl; [reflexivity |].
  intros H. f_equal. apply IH. exact H.
Qed.

Lemma dict_set_keys_fresh (d : list (K * V)) (k : K) (v : V) :
  dict_mem eqb d k = false ->
  map fst (dict_set eqb d k v) = map fst d ++ [k].
Proof.
  unfold dict_mem. induction d as [| [k0 v0] d IH]; simpl; [reflexivity |].
  destruct (eqb k k0) eqn:E; simpl; [discriminate |].
  intros H. f_equal. apply IH. exact H.
Qed.

Lemma dict_get_In (d : list (K * V)) (k : K) (v : V) :
  dict_get eqb d k = Some v -> In (k, v) d.
Proof.
  induction d as [| [k0 v0] d IH]; simpl; [discriminate |].
  destruct (eqb k k0) eqn:E.
  - apply eqb_eq in E. subst. intros H. inversion H. now left.
  - intros H. right. now apply IH.
Qed.

Lemma dict_get_None (d : list (K * V)) (k : K) :
  dict_get eqb d k = None <-> ~ In k (map fst d).
Proof.
  induction d as [| [k0 v0] d IH]; simpl; [tauto |].
  destruct (eqb k k0) eqn:E.
  - apply eqb_eq in E. subst. split; [discriminate | intros H; exfalso; apply H; now left].
  - rewrite IH. split.
    + intros H [H1 | H1]; [| contradiction]. subst. rewrite eqb_refl_of in E. discriminate.
    + intros H H1. apply H. now right.
Qed.

Lemma In_dict_get (d : list (K * V)) (k : K) (v : V) :
  NoDup (map fst d) -> In (k, v) d -> dict_get eqb d k = Some v.
Proof.
  induction d as [| [k0 v0] d IH]; simpl; [contradiction |].
  intros Hnd [H | H].
  - inversion H; subst. now rewrite eqb_refl_of.
  - inversion Hnd as [| ? ? Hnot Hnd']; subst.
    destruct (eqb k k0) eqn:E.
    + apply eqb_eq in E. subst. exfalso. apply Hnot.
      change k0 with (fst (k0, v)). now apply in_map.
    + now apply IH.
Qed.

End DictFacts.

Lemma string_eqb_eq (a b : string) : String.eqb a b = true <-> a = b.
Proof. apply String.eqb_eq. Qed.

Section PostFluidFacts.
Import Spec.
Context {L : Libm}.













(** Whether one of the four parts of [extract_results_fluid] raises does
    not depend on the dictionary filled so far. *)
Lemma extract_pressure_ok res r r' :
  is_ok (PostFluid.extract_pressure res r) = is_ok (PostFluid.extract_pressure res r').
Proof.
  unfold PostFluid.extract_pressure. destruct (Pressure res) as [p |]; [| reflexivity].
  destruct (np_max p); simpl; [| reflexivity]. destruct (np_min p); reflexivity.
Qed.





Lemma np_max_ok (l : list Q) : l <> [] -> is_ok (np_max l) = true.
Proof. destruct l; [contradiction | reflexivity]. Qed.

End PostFluidFacts.

(* --------------------------------------------------------------------- *)
(** ** Indexing, sorting and uniqueness *)
(* --------------------------------------------------------------------- *)

Section IndexFacts.
Variable A : Type.

Lemma take_spec (d : A) (arr : list A) (idx : list nat) :
  Forall (fun k => (k < length arr)%nat) idx ->
  take arr idx = Ok (map (fun k => nth k arr d) idx).
Proof.
  induction idx as [| k idx IH]; intros H; simpl; [reflexivity |].
  inversion H as [| ? ? Hk Hrest]; subst.
  rewrite (getitem_nth arr d Hk), (IH Hrest). reflexivity.
Qed.

Lemma take_Ok_inv (d : A) (arr : list A) (idx : list nat) (xs : list A) :
  take arr idx = Ok xs ->
  Forall (fun k => (k < length arr)%nat) idx /\ xs = map (fun k => nth k arr d) idx.
Proof.
  revert xs. induction idx as [| k idx IH]; intros xs H; simpl in H.
  - inversion H. split; constructor.
  - unfold getitem in H. destruct (nth_error arr k) as [x |] eqn:E; simpl in H;
      [| discriminate].
    destruct (take arr idx) as [ys |]; simpl in H; [| discriminate].
    inversion H; subst. destruct (IH ys eq_refl) as [Hall Hys].
    assert (k < length arr)%nat as Hk by (apply nth_error_Some; congruence).
    split; [constructor; assumption |].
    simpl. rewrite <- Hys. f_equal.
    symmetry. now apply nth_error_nth.
Qed.

Lemma take_length (arr : list A) (idx : list nat) (xs : list A) :
  take arr idx = Ok xs -> length xs = length idx.
Proof.
  revert xs. induction idx as [| k idx IH]; intros xs H; simpl in H.
  - now inversion H.
  - destruct (getitem arr k); simpl in H; [| discriminate].
    destruct (take arr idx) as [ys |]; simpl in H; [| discriminate].
    inversion H. simpl. f_equal. now apply IH.
Qed.

Lemma map_nth_seq (d : A) (l : list A) :
  map (fun k => nth k l d) (seq 0 (length l)) = l.
Proof.
  induction l as [| a l IH]; simpl; [reflexivity |].
  f_equal. rewrite <- seq_shift, map_map. exact IH.
Qed.

Lemma map_fst_combine {B} (l : list A) : forall (l' : list B),
  length l = length l' -> map fst (combine l l') = l.
Proof.
  induction l as [| a l IH]; intros [| b l'] H; simpl in *; try discriminate;
    [reflexivity |].
  f_equal. apply IH. now inversion H.
Qed.

Lemma map_snd_combine {B} (l : list A) : forall (l' : list B),
  length l = length l' -> map snd (combine l l') = l'.
Proof.
  induction l as [| a l IH]; intros [| b l'] H; simpl in *; try discriminate;
    [reflexivity |].
  f_equal. apply IH. now inversion H.
Qed.

End IndexFacts.

Lemma in_combine_seq (crd : list Q) (k : nat) (c : Q) :
  In (k, c) (combine (seq 0 (length crd)) crd) -> nth_error crd k = Some c.
Proof.
  assert (forall s, In (k, c) (combine (seq s (length crd)) crd) ->
                    (s <= k)%nat /\ nth_error crd (k - s) = Some c) as H.
  { induction crd as [| c0 crd IH]; intros s Hin; simpl in Hin; [contradiction |].
    destruct Hin as [Hin | Hin].
    - inversion Hin; subst. rewrite Nat.sub_diag. split; [lia | reflexivity].
    - apply IH in Hin. destruct Hin as [Hle Hnth]. split; [lia |].
      replace (k - s)%nat with (S (k - S s)) by lia. exact Hnth. }
  intros Hin. apply H in Hin. destruct Hin as [_ Hin].
  now rewrite Nat.sub_0_r in Hin.
Qed.

Section SortFacts.
Variable A : Type.
Variable key : A -> Q.

Lemma insert_by_perm (x : A) (l : list A) : Permutation (x :: l) (insert_by key x l).
Proof.
  induction l as [| y l IH]; simpl; [apply Permutation_refl |].
  destruct (Qle_bool (key x) (key y)); [apply Permutation_refl |].
  eapply Permutation_trans; [apply perm_swap |]. now apply perm_skip.
Qed.

Lemma sort_by_perm (l : list A) : Permutation l (sort_by key l).
Proof.
  induction l as [| x l IH]; simpl; [apply perm_nil |].
  eapply Permutation_trans; [apply perm_skip, IH | apply insert_by_perm].
Qed.

Lemma sort_by_length (l : list A) : length (sort_by key l) = length l.
Proof. symmetry. apply Permutation_length, sort_by_perm. Qed.

(** Sorting commutes with taking keys. *)
Lemma insert_by_keys (x : A) (l : list A) :
  map key (insert_by key x l) = insert_by (fun q => q) (key x) (map key l).
Proof.
  induction l as [| y l IH]; simpl; [reflexivity |].
  destruct (Qle_bool (key x) (key y)); simpl; [reflexivity | now rewrite IH].
Qed.

Lemma sort_by_keys (l : list A) :
  map key (sort_by key l) = sort_by (fun q => q) (map key l).
Proof.
  induction l as [| x l IH]; simpl; [reflexivity |].
  now rewrite insert_by_keys, IH.
Qed.

End SortFacts.

Section RationalSort.
Import Spec.

Lemma Qle_bool_false (a b : Q) : Qle_bool a b = false -> b < a.
Proof.
  intros H. destruct (Qlt_le_dec b a) as [Hlt | Hle]; [exact Hlt |].
  apply Qle_bool_iff in Hle. congruence.
Qed.

Lemma insert_sorted (x : Q) (l : list Q) :
  StronglySorted Qle l -> StronglySorted Qle (insert_by (fun q : Q => q) x l).
Proof.
  induction l as [| y l IH]; intros Hs; simpl.
  - constructor; constructor.
  - inversion Hs as [| ? ? Hl Hy]; subst.
    destruct (Qle_bool x y) eqn:E.
    + apply Qle_bool_iff in E. constructor; [exact Hs |].
      constructor; [exact E |].
      eapply Forall_impl; [| exact Hy]. intros z Hz. simpl in Hz. lra.
    + apply Qle_bool_false in E. constructor; [now apply IH |].
      eapply Permutation_Forall; [apply insert_by_perm |].
      constructor; [lra | exact Hy].
Qed.

Lemma sort_values_sorted (l : list Q) : StronglySorted Qle (sort_values l).
Proof.
  unfold sort_values. induction l as [| x l IH]; simpl; [constructor | now apply insert_sorted].
Qed.

Lemma dedup_length_le (l : list Q) : (length (dedup l) <= length l)%nat.
Proof.
  induction l as [| x l IH]; simpl; [lia |].
  destruct l as [| y l]; [simpl; lia |].
  destruct (Qeq_bool x y); simpl in *; lia.
Qed.

(** On a sorted list, nothing is dropped exactly when the list is
    strictly increasing. *)
Lemma dedup_keeps_all (l : list Q) :
  StronglySorted Qle l ->
  length (dedup l) = length l ->
  StronglySorted Qlt l.
Proof.
  induction l as [| x l IH]; intros Hs Hlen; [constructor |].
  inversion Hs as [| ? ? Hl Hx]; subst.
  destruct l as [| y l]; [constructor; constructor |].
  cbn [dedup] in Hlen.
  destruct (Qeq_bool x y) eqn:E.
  - pose proof (dedup_length_le (y :: l)) as Hle. simpl in Hlen, Hle. lia.
  - assert (length (dedup (y :: l)) = length (y :: l)) as Hlen'
      by (simpl in Hlen |- *; lia).
    specialize (IH Hl Hlen').
    assert (x < y) as Hxy.
    { inversion Hx as [| ? ? Hxy _]; subst.
      destruct (Qeq_dec x y) as [Heq | Hne].
      - apply Qeq_bool_iff in Heq. congruence.
      - lra. }
    constructor; [exact IH |].
    constructor; [exact Hxy |].
    inversion IH as [| ? ? _ Hy]; subst.
    eapply Forall_impl; [| exact Hy]. intros z Hz. simpl in Hz. lra.
Qed.

(** The uniqueness assertion of [get_ids], on the sorted coordinates. *)
Lemma unique_check_passes (crd : list Q) :
  length (np_unique crd) = length crd -> StronglySorted Qlt (sort_values crd).
Proof.
  unfold np_unique. intros H. apply dedup_keeps_all; [apply sort_values_sorted |].
  unfold sort_values in *. now rewrite sort_by_length.
Qed.

Lemma strictly_sorted_insert (x : Q) (l : list Q) :
  StronglySorted Qlt (insert_by (fun q : Q => q) x l) ->
  StronglySorted Qlt l /\ Forall (fun y => ~ x == y) l.
Proof.
  induction l as [| y l IH]; simpl; intros Hs.
  - split; constructor.
  - destruct (Qle_bool x y) eqn:E.
    + inversion Hs as [| ? ? Hl Hx]; subst. split; [exact Hl |].
      eapply Forall_impl; [| exact Hx]. intros z Hz. simpl in Hz. lra.
    + apply Qle_bool_false in E.
      inversion Hs as [| ? ? Hl Hy]; subst.
      destruct (IH Hl) as [Hl' Hx].
      assert (Forall (Qlt y) (x :: l)) as Hy'
        by (eapply Permutation_Forall;
            [apply Permutation_sym, insert_by_perm | exact Hy]).
      inversion Hy' as [| ? ? _ Hyl]; subst.
      split; constructor; auto. lra.
Qed.

Lemma strictly_sorted_distinct (l : list Q) :
  StronglySorted Qlt (sort_values l) -> distinct l.
Proof.
  unfold sort_values. induction l as [| x l IH]; simpl; intros Hs; [constructor |].
  apply strictly_sorted_insert in Hs. destruct Hs as [Hs Hx].
  constructor; [| now apply IH].
  eapply Permutation_Forall; [apply Permutation_sym, sort_by_perm | exact Hx].
Qed.

Lemma distinct_map_inj {B} (f : B -> Q) (l : list B) :
  distinct (map f l) ->
  forall i j, In i l -> In j l -> f i == f j -> i = j \/ ~ NoDup l.
Proof.
  induction l as [| a l IH]; intros Hd i j Hi Hj Heq; [destruct Hi |].
  simpl in Hd. inversion Hd as [| ? ? Ha Hl]; subst.
  rewrite Forall_map, Forall_forall in Ha.
  destruct Hi as [Hi | Hi], Hj as [Hj | Hj]; subst.
  - now left.
  - exfalso. exact (Ha j Hj Heq).
  - exfalso. apply (Ha i Hi). now symmetry.
  - destruct (IH Hl i j Hi Hj Heq) as [E | E]; [now left |].
    right. intros Hnd. inversion Hnd. contradiction.
Qed.

(** Two different matched points with equal coordinates make the
    assertion fail. *)
Lemma unique_check_fails {B} (f : B -> Q) (l : list B) (i j : B) :
  NoDup l -> In i l -> In j l -> i <> j -> f i == f j ->
  length (np_unique (map f l)) <> length (map f l).
Proof.
  intros Hnd Hi Hj Hne Heq Hlen.
  apply unique_check_passes, strictly_sorted_distinct in Hlen.
  destruct (distinct_map_inj f l Hlen i j Hi Hj Heq); contradiction.
Qed.

(** [argsort] is a permutation of the positions, and reading the array
    through it gives the sorted array. *)
Lemma argsort_perm (crd : list Q) : Permutation (argsort crd) (seq 0 (length crd)).
Proof.
  unfold argsort.
  eapply Permutation_trans;
    [apply Permutation_map, Permutation_sym, sort_by_perm |].
  rewrite map_fst_combine by (now rewrite length_seq).
  apply Permutation_refl.
Qed.

Lemma argsort_in_range (crd : list Q) :
  Forall (fun k => (k < length crd)%nat) (argsort crd).
Proof.
  eapply Permutation_Forall; [apply Permutation_sym, argsort_perm |].
  apply Forall_forall. intros k Hk. apply in_seq in Hk. lia.
Qed.

Lemma take_argsort (crd : list Q) :
  take crd (argsort crd) = Ok (sort_values crd).
Proof.
  unfold sort_values.
  rewrite (take_spec 0 crd (argsort_in_range crd)). f_equal.
  unfold argsort. rewrite map_map.
  transitivity (map (fun p : nat * Q => snd p)
                  (sort_by (fun p : nat * Q => snd p)
                     (combine (seq 0 (length crd)) crd))).
  - apply map_ext_in. intros [k c] Hin. simpl.
    apply (Permutation_in _ (Permutation_sym (sort_by_perm _ _))) in Hin.
    apply in_combine_seq in Hin. now apply nth_error_nth.
  - rewrite sort_by_keys, map_snd_combine by (now rewrite length_seq).
    reflexivity.
Qed.

End RationalSort.

(* --------------------------------------------------------------------- *)
(** ** The geometry classifier [get_ids] *)
(* --------------------------------------------------------------------- *)

Section OutFacts.
Import PostSteadyFluid.

Lemma snd_bind_out {A B} (m : out A) (k : A -> out B) :
  snd (bind_out m k) =
  match snd m with
  | Ok a => snd (k a)
  | Raise e => Raise e
  end.
Proof.
  destruct m as [printed [a | e]]; simpl; [| reflexivity].
  destruct (k a). reflexivity.
Qed.

Lemma fst_bind_out {A B} (m : out A) (k : A -> out B) :
  fst (bind_out m k) =
  match snd m with
  | Ok a => fst m ++ fst (k a)
  | Raise e => fst m
  end.
Proof.
  destruct m as [printed [a | e]]; simpl; [| reflexivity].
  destruct (k a). reflexivity.
Qed.

Lemma slot_eqb_eq (a b : slot) : slot_eqb a b = true <-> a = b.
Proof.
  destruct a as [n | s], b as [m | t]; simpl.
  - rewrite Z.eqb_eq. split; congruence.
  - split; discriminate.
  - split; discriminate.
  - rewrite String.eqb_eq. split; congruence.
Qed.

Lemma loc_eqb_eq (a b : loc) : loc_eqb a b = true <-> a = b.
Proof.
  destruct a as [[a0 a1] a2], b as [[b0 b1] b2]. unfold loc_eqb.
  rewrite !andb_true_iff, !slot_eqb_eq. split.
  - intros [[-> ->] ->]. reflexivity.
  - intros H. inversion H. auto.
Qed.

End OutFacts.

Section GetIdsFacts.
Import PostSteadyFluid Spec.

Lemma dict_set_NoDup {V} (d : list (loc * V)) (k : loc) (v : V) :
  NoDup (map fst d) -> NoDup (map fst (dict_set loc_eqb d k v)).
Proof.
  intros H. destruct (dict_mem loc_eqb d k) eqn:E.
  - now rewrite dict_set_keys_mem by exact E.
  - rewrite dict_set_keys_fresh by exact E.
    apply NoDup_app; [exact H | repeat constructor; intros [] |].
    intros x Hx [Hk | []]. subst x.
    unfold dict_mem in E.
    destruct (dict_get loc_eqb d k) eqn:G; [discriminate |].
    now apply (@dict_get_None _ _ _ loc_eqb_eq) in G.
Qed.

Lemma dict_get_set {V} (d : list (loc * V)) (k k' : loc) (v : V) :
  dict_get loc_eqb (dict_set loc_eqb d k v) k' =
  if loc_eqb k' k then Some v else dict_get loc_eqb d k'.
Proof.
  destruct (loc_eqb k' k) eqn:E.
  - apply loc_eqb_eq in E. subst. apply (@dict_get_set_same _ _ _ loc_eqb_eq).
  - apply (@dict_get_set_other _ _ _ loc_eqb_eq). intros ->.
    rewrite (@eqb_refl_of _ _ loc_eqb_eq) in E. discriminate.
Qed.

(** *** The selection of lines 83-84 *)

Lemma logical_and_reduce_length n rows : length (logical_and_reduce n rows) = n.
Proof. unfold logical_and_reduce. now rewrite length_map, length_seq. Qed.

Lemma logical_and_reduce_nth n rows k :
  (k < n)%nat ->
  nth k (logical_and_reduce n rows) false = forallb (fun row => nth k row false) rows.
Proof.
  intros Hk. unfold logical_and_reduce.
  rewrite nth_indep with (d' := forallb (fun row => nth 0 row false) rows)
    by (now rewrite length_map, length_seq).
  rewrite (map_nth (fun k => forallb (fun row => nth k row false) rows)).
  now rewrite seq_nth.
Qed.

Lemma isclose_iff (a b : Q) :
  isclose a b = true <-> Qabs (a - b) <= isclose_atol + isclose_rtol * Qabs b.
Proof. unfold isclose. apply Qle_bool_iff. Qed.

Lemma select_spec pts_cra l pt k :
  In k (select pts_cra l pt) <-> matches pts_cra l pt k.
Proof.
  unfold select, np_where, matches.
  rewrite filter_In, in_seq, logical_and_reduce_length.
  split.
  - intros [Hk Hall]. split; [lia |].
    rewrite logical_and_reduce_nth in Hall by lia.
    rewrite forallb_forall in Hall.
    intros a Ha Hcolon. apply isclose_iff.
    specialize (Hall (map (fun p => isclose (axis p a) (axis pt a)) pts_cra)).
    rewrite nth_indep with (d' := isclose (axis (0, 0, 0) a) (axis pt a)) in Hall
      by (rewrite length_map; lia).
    rewrite (map_nth (fun p => isclose (axis p a) (axis pt a))) in Hall.
    apply Hall. unfold chk.
    apply (in_map (fun i => map (fun p => isclose (axis p i) (axis pt i)) pts_cra)).
    apply filter_In. split.
    + destruct a as [| [| [| a]]]; simpl; auto; lia.
    + now rewrite Hcolon.
  - intros [Hk Hall]. split; [lia |].
    rewrite logical_and_reduce_nth by lia.
    apply forallb_forall. intros row Hrow. unfold chk in Hrow.
    apply in_map_iff in Hrow. destruct Hrow as [a [<- Ha]].
    apply filter_In in Ha. destruct Ha as [Ha Hcolon].
    rewrite nth_indep with (d' := isclose (axis (0, 0, 0) a) (axis pt a))
      by (rewrite length_map; lia).
    rewrite (map_nth (fun p => isclose (axis p a) (axis pt a))).
    apply isclose_iff. apply Hall.
    + simpl in Ha. intuition lia.
    + now apply negb_true_iff.
Qed.

Lemma select_NoDup pts_cra l pt : NoDup (select pts_cra l pt).
Proof. unfold select, np_where. apply NoDup_filter, seq_NoDup. Qed.

Lemma select_in_range pts_cra l pt :
  Forall (fun k => (k < length pts_cra)%nat) (select pts_cra l pt).
Proof.
  apply Forall_forall. intros k Hk. apply select_spec in Hk. apply Hk.
Qed.

(** *** One pass of the loop over the locations *)

(** The coordinates read at line 92. *)
Lemma take_coordinates pts_cra dim found :
  Forall (fun k => (k < length pts_cra)%nat) found ->
  take (map (fun p => axis p dim) pts_cra) found = Ok (map (coordinate pts_cra dim) found).
Proof.
  intros H. rewrite (take_spec 0) by (now rewrite length_map).
  f_equal. apply map_ext_in. intros k Hk. unfold coordinate.
  rewrite Forall_forall in H.
  rewrite nth_indep with (d' := axis (0, 0, 0) dim) by (rewrite length_map; auto).
  apply (map_nth (fun p => axis p dim)).
Qed.

Lemma sorted_points_perm pts_cra dim found :
  Permutation (sorted_points pts_cra dim found) found.
Proof.
  unfold sorted_points.
  eapply Permutation_trans; [apply Permutation_map, argsort_perm |].
  rewrite length_map, map_nth_seq. apply Permutation_refl.
Qed.

Lemma sorted_points_coordinates pts_cra dim found :
  map (coordinate pts_cra dim) (sorted_points pts_cra dim found) =
  sort_values (map (coordinate pts_cra dim) found).
Proof.
  pose proof (take_argsort (map (coordinate pts_cra dim) found)) as H.
  rewrite (take_spec 0 _ (argsort_in_range _)) in H. injection H as H'.
  rewrite <- H'. unfold sorted_points. rewrite map_map.
  apply map_ext_in. intros k Hk.
  pose proof (argsort_in_range (map (coordinate pts_cra dim) found)) as R.
  rewrite Forall_forall in R. specialize (R k Hk). rewrite length_map in R.
  rewrite nth_indep with (d' := coordinate pts_cra dim 0%nat) by (now rewrite length_map).
  symmetry. apply (map_nth (coordinate pts_cra dim)).
Qed.

Lemma ids_loop_cons pts_cra l pt rest ids coords :
  ids_loop pts_cra ((l, pt) :: rest) ids coords =
  let found := select pts_cra l pt in
  if (length found =? 0)%nat
  then bind_out (print (MsgNoPointsFound l))
         (fun _ => ids_loop pts_cra rest (dict_set loc_eqb ids l found) coords)
  else
    match wildcard_index l with
    | Some dim =>
        let crd := map (coordinate pts_cra dim) found in
        if (length (np_unique crd) =? length crd)%nat
        then ids_loop pts_cra rest
               (dict_set loc_eqb (dict_set loc_eqb ids l found) l
                  (sorted_points pts_cra dim found))
               (dict_set loc_eqb coords l (sort_values crd))
        else ([], Raise (AssertionError crd))
    | None => ids_loop pts_cra rest (dict_set loc_eqb ids l found) coords
    end.
Proof.
  cbn [ids_loop]. cbv zeta.
  destruct (length (select pts_cra l pt) =? 0)%nat; [reflexivity |].
  destruct (wildcard_index l) as [dim |]; [| reflexivity].
  rewrite take_coordinates by apply select_in_range. rewrite bind_out_lift.
  rewrite (take_spec 0%nat (select pts_cra l pt))
    by (pose proof (argsort_in_range (map (coordinate pts_cra dim) (select pts_cra l pt))) as R;
        now rewrite length_map in R).
  rewrite bind_out_lift, take_argsort, bind_out_lift.
  reflexivity.
Qed.

End GetIdsFacts.

Section GetIdsLoop.
Import PostSteadyFluid Spec.
Variable pts_cra : list (Q * Q * Q).

Lemma snd_bind_print {B} (m : message) (k : unit -> out B) :
  snd (bind_out (print m) k) = snd (k tt).
Proof. rewrite snd_bind_out. reflexivity. Qed.

Lemma ids_loop_step l pt rest ids coords :
  snd (ids_loop pts_cra ((l, pt) :: rest) ids coords) =
  match step pts_cra l pt ids coords with
  | Ok s => snd (ids_loop pts_cra rest (fst s) (snd s))
  | Raise e => Raise e
  end.
Proof.
  rewrite ids_loop_cons. unfold step. cbv zeta.
  destruct (select pts_cra l pt) as [| k found] eqn:F.
  - cbn [length Nat.eqb]. now rewrite snd_bind_print.
  - cbn [length Nat.eqb].
    destruct (wildcard_index l) as [dim |]; [| reflexivity].
    destruct (length (np_unique _) =? length _)%nat; reflexivity.
Qed.

(** The only exception of the loop is the failed assertion. *)
Lemma step_raises l pt ids coords e :
  step pts_cra l pt ids coords = Raise e -> exists crd, e = AssertionError crd.
Proof.
  unfold step. cbv zeta.
  destruct (select pts_cra l pt) as [| k found]; [discriminate |].
  destruct (wildcard_index l) as [dim |]; [| discriminate].
  destruct (length (np_unique _) =? length _)%nat; [discriminate |].
  intros H. inversion H. eauto.
Qed.

Lemma ids_loop_outcome locs : forall ids coords,
  (exists r, snd (ids_loop pts_cra locs ids coords) = Ok r) \/
  (exists crd, snd (ids_loop pts_cra locs ids coords) = Raise (AssertionError crd)).
Proof.
  induction locs as [| [l pt] rest IH]; intros ids coords.
  - left. simpl. eauto.
  - rewrite ids_loop_step.
    destruct (step pts_cra l pt ids coords) as [s | e] eqn:S; [apply IH |].
    right. apply step_raises in S. destruct S as [crd ->]. eauto.
Qed.

(** A wildcard key with two matched points at one coordinate fails the
    assertion. *)
Lemma step_duplicate l pt ids coords dim i j :
  wildcard_index l = Some dim ->
  In i (select pts_cra l pt) -> In j (select pts_cra l pt) -> i <> j ->
  coordinate pts_cra dim i == coordinate pts_cra dim j ->
  exists crd, step pts_cra l pt ids coords = Raise (AssertionError crd).
Proof.
  intros Hw Hi Hj Hne Heq. unfold step. cbv zeta. rewrite Hw.
  destruct (select pts_cra l pt) as [| k found] eqn:F; [destruct Hi |].
  destruct (Nat.eqb_spec (length (np_unique (map (coordinate pts_cra dim) (k :: found))))
              (length (map (coordinate pts_cra dim) (k :: found)))) as [E | _]; [| eauto].
  exfalso. revert E. apply (unique_check_fails (coordinate pts_cra dim)) with (i := i) (j := j);
    try assumption.
  rewrite <- F. apply select_NoDup.
Qed.

Lemma ids_loop_duplicate locs : forall ids coords l pt dim i j,
  In (l, pt) locs ->
  wildcard_index l = Some dim ->
  In i (select pts_cra l pt) -> In j (select pts_cra l pt) -> i <> j ->
  coordinate pts_cra dim i == coordinate pts_cra dim j ->
  exists crd, snd (ids_loop pts_cra locs ids coords) = Raise (AssertionError crd).
Proof.
  induction locs as [| [l0 pt0] rest IH]; intros ids coords l pt dim i j Hin Hw Hi Hj Hne Heq;
    [destruct Hin |].
  rewrite ids_loop_step.
  destruct (step pts_cra l0 pt0 ids coords) as [s | e] eqn:S.
  - destruct Hin as [Hin | Hin].
    + inversion Hin; subst.
      destruct (step_duplicate l pt ids coords Hw Hi Hj Hne Heq) as [crd C]. congruence.
    + apply (IH (fst s) (snd s) l pt dim i j); assumption.
  - apply step_raises in S. destruct S as [crd ->]. eauto.
Qed.

(** What one successful iteration changes. *)
Lemma step_ok l pt ids coords ids' coords' :
  step pts_cra l pt ids coords = Ok (ids', coords') ->
  (exists found, dict_get loc_eqb ids' l = Some found /\
                 Permutation found (select pts_cra l pt)) /\
  (forall l', l' <> l -> dict_get loc_eqb ids' l' = dict_get loc_eqb ids l') /\
  (forall l', l' <> l -> dict_get loc_eqb coords' l' = dict_get loc_eqb coords l') /\
  (dict_get loc_eqb coords' l = dict_get loc_eqb coords l \/
   exists dim found,
     wildcard_index l = Some dim /\
     dict_get loc_eqb ids' l = Some found /\
     dict_get loc_eqb coords' l = Some (map (coordinate pts_cra dim) found) /\
     StronglySorted Qlt (map (coordinate pts_cra dim) found)) /\
  (forall dim, wildcard_index l = Some dim -> select pts_cra l pt <> [] ->
     exists cs, dict_get loc_eqb coords' l = Some cs).
Proof.
  assert (forall l' : loc, l' <> l -> loc_eqb l' l = false) as Hneq
    by (intros l' H; now apply (@eqb_neq_of _ _ loc_eqb_eq)).
  assert (loc_eqb l l = true) as Hrefl by (now apply loc_eqb_eq).
  unfold step. cbv zeta. intros H.
  destruct (select pts_cra l pt) as [| k found] eqn:F.
  - inversion H; subst. split; [| split; [| split; [| split]]].
    + exists []. rewrite dict_get_set, Hrefl. split; [reflexivity | apply perm_nil].
    + intros l' Hl. now rewrite dict_get_set, Hneq.
    + reflexivity.
    + now left.
    + intros dim _ Hne. now contradiction Hne.
  - destruct (wildcard_index l) as [dim |] eqn:W.
    + destruct (Nat.eqb_spec (length (np_unique (map (coordinate pts_cra dim) (k :: found))))
                  (length (map (coordinate pts_cra dim) (k :: found)))) as [E | _];
        [| discriminate].
      inversion H; subst. clear H.
      pose proof (sorted_points_coordinates pts_cra dim (k :: found)) as Hc.
      split; [| split; [| split; [| split]]].
      * exists (sorted_points pts_cra dim (k :: found)).
        rewrite dict_get_set, Hrefl. split; [reflexivity | apply sorted_points_perm].
      * intros l' Hl. now rewrite !dict_get_set, Hneq.
      * intros l' Hl. now rewrite dict_get_set, Hneq.
      * right. exists dim, (sorted_points pts_cra dim (k :: found)).
        rewrite !dict_get_set, Hrefl, Hc.
        split; [reflexivity |]. split; [reflexivity |]. split; [reflexivity |].
        now apply unique_check_passes.
      * intros dim' _ _. rewrite dict_get_set, Hrefl. eauto.
    + inversion H; subst. split; [| split; [| split; [| split]]].
      * exists (k :: found). rewrite dict_get_set, Hrefl.
        split; [reflexivity | apply Permutation_refl].
      * intros l' Hl. now rewrite dict_get_set, Hneq.
      * reflexivity.
      * now left.
      * intros dim Hd. discriminate.
Qed.

Lemma ids_loop_invariant (all : locations_t) locs : forall ids coords ids' coords',
  NoDup (map fst locs) ->
  incl locs all ->
  ids_ok pts_cra all ids ->
  coords_ok pts_cra ids coords ->
  (forall l, In l (map fst locs) -> dict_get loc_eqb coords l = None) ->
  snd (ids_loop pts_cra locs ids coords) = Ok (ids', coords') ->
  ids_ok pts_cra all ids' /\
  coords_ok pts_cra ids' coords' /\
  (forall l pt, In (l, pt) locs ->
     exists found, dict_get loc_eqb ids' l = Some found /\
                   Permutation found (select pts_cra l pt)) /\
  (forall l pt dim, In (l, pt) locs -> wildcard_index l = Some dim ->
     select pts_cra l pt <> [] -> exists cs, dict_get loc_eqb coords' l = Some cs) /\
  (forall l, ~ In l (map fst locs) -> dict_get loc_eqb ids' l = dict_get loc_eqb ids l) /\
  (forall l, ~ In l (map fst locs) -> dict_get loc_eqb coords' l = dict_get loc_eqb coords l).
Proof.
  induction locs as [| [l pt] rest IH];
    intros ids coords ids' coords' Hnd Hincl Hids Hcoords Hfresh H.
  - simpl in H. inversion H; subst.
    split; [exact Hids |]. split; [exact Hcoords |].
    split; [intros l pt [] |]. split; [intros l pt dim [] |].
    split; reflexivity.
  - rewrite ids_loop_step in H.
    destruct (step pts_cra l pt ids coords) as [[ids1 coords1] |] eqn:S; [| discriminate].
    simpl in H.
    destruct (step_ok _ _ _ _ S) as [[found [Hl Hperm]] [Hi [Hc [Hcl Hex]]]].
    inversion Hnd as [| ? ? Hnotin Hnd']; subst.
    assert (ids_ok pts_cra all ids1) as Hids1.
    { intros l' f' G. destruct (loc_eqb l' l) eqn:E.
      - apply loc_eqb_eq in E. subst l'. exists pt.
        split; [apply Hincl; now left |]. congruence.
      - apply Hids. rewrite <- Hi; [exact G |]. intros ->.
        rewrite (proj2 (loc_eqb_eq l l) eq_refl) in E. discriminate. }
    assert (coords_ok pts_cra ids1 coords1) as Hcoords1.
    { intros l' cs G. destruct (loc_eqb l' l) eqn:E.
      - apply loc_eqb_eq in E. subst l'.
        destruct Hcl as [Hsame | [dim [f' [W [Gi [Gc Hs]]]]]].
        + rewrite Hsame, Hfresh in G by (now left). discriminate.
        + rewrite Gc in G. inversion G; subst. split; [exact Hs |]. eauto.
      - assert (l' <> l) as Hne
          by (intros ->; rewrite (proj2 (loc_eqb_eq l l) eq_refl) in E; discriminate).
        rewrite Hc in G by exact Hne.
        destruct (Hcoords _ _ G) as [Hs [dim [f' [W [Gi ->]]]]].
        split; [exact Hs |]. exists dim, f'. rewrite Hi by exact Hne. auto. }
    assert (forall l', In l' (map fst rest) -> dict_get loc_eqb coords1 l' = None) as Hfresh1.
    { intros l' Hin. rewrite Hc; [apply Hfresh; now right |].
      intros ->. contradiction. }
    destruct (IH ids1 coords1 ids' coords' Hnd'
                (fun x Hx => Hincl x (or_intror Hx)) Hids1 Hcoords1 Hfresh1 H)
      as [R1 [R2 [R3 [R4 [R5 R6]]]]].
    split; [exact R1 |]. split; [exact R2 |].
    split; [| split; [| split]].
    + intros l' pt' [Hin | Hin].
      * inversion Hin; subst. exists found. rewrite R5 by exact Hnotin. auto.
      * eauto.
    + intros l' pt' dim [Hin | Hin] W Hne.
      * inversion Hin; subst. rewrite R6 by exact Hnotin. eauto.
      * eauto.
    + intros l' Hnot. simpl in Hnot.
      rewrite R5 by tauto. apply Hi. intros ->. tauto.
    + intros l' Hnot. simpl in Hnot.
      rewrite R6 by tauto. apply Hc. intros ->. tauto.
Qed.

End GetIdsLoop.

Section GetIdsTop.
Import PostSteadyFluid Spec.
Context {L : Libm}.

Lemma fold_left_NoDup {X V} (f : list (loc * V) -> X -> list (loc * V)) (xs : list X) :
  (forall d x, NoDup (map fst d) -> NoDup (map fst (f d x))) ->
  forall d, NoDup (map fst d) -> NoDup (map fst (fold_left f xs d)).
Proof.
  intros Hf. induction xs as [| x xs IH]; intros d Hd; simpl; [exact Hd |].
  apply IH, Hf, Hd.
Qed.

Lemma register_NoDup locations c r a :
  NoDup (map fst locations) -> NoDup (map fst (register locations c r a)).
Proof.
  destruct c as [cn cp], r as [rn rp], a as [an ap]. unfold register.
  apply fold_left_NoDup. intros d x Hd. now apply dict_set_NoDup.
Qed.

Lemma build_locations_NoDup p_cir p_rad p_axi :
  NoDup (map fst (build_locations p_cir p_rad p_axi)).
Proof.
  unfold build_locations.
  apply fold_left_NoDup; [| constructor]. intros d c Hd.
  apply fold_left_NoDup; [| exact Hd]. intros d' r Hd'.
  apply fold_left_NoDup; [| exact Hd']. intros d'' a Hd''.
  now apply register_NoDup.
Qed.

Lemma locations_of_NoDup pts_xyz domain locations :
  snd (locations_of pts_xyz domain) = Ok locations -> NoDup (map fst locations).
Proof.
  unfold locations_of. rewrite !bind_out_lift.
  destruct (np_max _) as [ro |]; [| discriminate].
  destruct (np_min _) as [ri |]; [| discriminate].
  destruct (np_max _) as [h |]; [| discriminate].
  rewrite snd_bind_out. unfold buckets.
  destruct (String.eqb domain "fluid");
    [| destruct (String.eqb domain "interface")]; simpl; intros H;
    try discriminate; inversion H; apply build_locations_NoDup.
Qed.

Lemma get_ids_unfold pts_xyz domain :
  snd (get_ids pts_xyz domain) =
  match snd (locations_of pts_xyz domain) with
  | Ok locations => snd (ids_loop (map xyz2cra pts_xyz) locations [] [])
  | Raise e => Raise e
  end.
Proof. unfold get_ids. apply snd_bind_out. Qed.

(** Everything [get_ids] returns, for the registered [locations]. *)
Lemma get_ids_invariant pts_xyz domain locations ids coords :
  snd (locations_of pts_xyz domain) = Ok locations ->
  snd (get_ids pts_xyz domain) = Ok (ids, coords) ->
  let pts_cra := map xyz2cra pts_xyz in
  ids_ok pts_cra locations ids /\
  coords_ok pts_cra ids coords /\
  (forall l pt, In (l, pt) locations ->
     exists found, dict_get loc_eqb ids l = Some found /\
                   Permutation found (select pts_cra l pt)) /\
  (forall l pt dim, In (l, pt) locations -> wildcard_index l = Some dim ->
     select pts_cra l pt <> [] -> exists cs, dict_get loc_eqb coords l = Some cs).
Proof.
  intros Hloc H pts_cra. rewrite get_ids_unfold, Hloc in H.
  pose proof (locations_of_NoDup _ _ Hloc) as Hnd.
  destruct (@ids_loop_invariant pts_cra locations locations [] [] ids coords Hnd)
    as [R1 [R2 [R3 [R4 _]]]]; auto.
  - apply incl_refl.
  - intros l f G. discriminate.
  - intros l cs G. discriminate.
Qed.

Lemma get_ids_keys_NoDup pts_xyz domain ids coords :
  snd (get_ids pts_xyz domain) = Ok (ids, coords) -> NoDup (map fst ids).
Proof.
  rewrite get_ids_unfold.
  destruct (snd (locations_of pts_xyz domain)) as [locations |]; [| discriminate].
  assert (forall locs i c i' c',
            NoDup (map fst i) ->
            snd (ids_loop (map xyz2cra pts_xyz) locs i c) = Ok (i', c') ->
            NoDup (map fst i')) as H.
  { induction locs as [| [l pt] rest IH]; intros i c i' c' Hi H.
    - simpl in H. now inversion H; subst.
    - rewrite ids_loop_step in H.
      destruct (step (map xyz2cra pts_xyz) l pt i c) as [[i1 c1] |] eqn:S; [| discriminate].
      simpl in H. apply (IH i1 c1 i' c'); [| exact H].
      unfold step in S. cbv zeta in S.
      destruct (select (map xyz2cra pts_xyz) l pt);
        [inversion S; now apply dict_set_NoDup |].
      destruct (wildcard_index l); [| inversion S; now apply dict_set_NoDup].
      destruct (length (np_unique _) =? length _)%nat; [| discriminate].
      inversion S. now repeat apply dict_set_NoDup. }
  apply H. constructor.
Qed.

End GetIdsTop.

(* --------------------------------------------------------------------- *)
(** ** The per-key series of [get_results] *)
(* --------------------------------------------------------------------- *)

Section SeriesFacts.
Import PostSteadyFluid Spec.

Lemma dict_mem_keys {V W} (l : loc) (d : list (loc * V)) : forall (d' : list (loc * W)),
  map fst d = map fst d' -> dict_mem loc_eqb d l = dict_mem loc_eqb d' l.
Proof.
  unfold dict_mem.
  induction d as [| [k v] d IH]; intros [| [k' v'] d'] H; simpl in *;
    try discriminate; [reflexivity |].
  injection H as Hk Hd. subst k'.
  destruct (loc_eqb l k); [reflexivity | now apply IH].
Qed.

Lemma dict_mem_In {V} (l : loc) (d : list (loc * V)) :
  In l (map fst d) -> dict_mem loc_eqb d l = true.
Proof.
  intros H. unfold dict_mem.
  destruct (dict_get loc_eqb d l) eqn:E; [reflexivity |].
  apply (@dict_get_None _ _ _ loc_eqb_eq) in E. contradiction.
Qed.

Lemma dict_get_map_values {K V W} (eqb : K -> K -> bool) (g : V -> W)
    (d : list (K * V)) (k : K) :
  dict_get eqb (map (fun e : K * V => (fst e, g (snd e))) d) k =
  option_map g (dict_get eqb d k).
Proof.
  induction d as [| [k' v] d IH]; simpl; [reflexivity |].
  destruct (eqb k k'); [reflexivity | exact IH].
Qed.

Lemma extended_app (o : option (list (list Q))) (xs ys : list (list Q)) :
  extended (extended o xs) ys = extended o (xs ++ ys).
Proof.
  destruct xs as [| x xs]; [reflexivity |].
  destruct ys as [| y ys]; simpl.
  - now rewrite app_nil_r.
  - now rewrite <- app_assoc.
Qed.

Lemma extended_None (xs : list (list Q)) :
  xs <> [] -> extended None xs = Some xs.
Proof. destruct xs; [congruence | reflexivity]. Qed.

Lemma field_of_average (post : post_t) (l : loc) (f : string) :
  field_of (average post) l f = option_map mean_axis0 (field_of post l f).
Proof.
  unfold field_of, average.
  rewrite (dict_get_map_values loc_eqb
             (fun fields : list (string * list (list Q)) =>
                map (fun fe : string * list (list Q) => (fst fe, mean_axis0 (snd fe))) fields)).
  destruct (dict_get loc_eqb post l) as [fields |]; simpl; [| reflexivity].
  apply dict_get_map_values.
Qed.

Lemma field_of_empty_post (ids : ids_t) (l : loc) (f : string) :
  field_of (A := list (list Q)) (empty_post ids) l f = None.
Proof.
  unfold field_of, empty_post.
  rewrite (dict_get_map_values loc_eqb (fun _ : list nat => @nil (string * list (list Q)))).
  now destruct (dict_get loc_eqb ids l).
Qed.

Lemma empty_post_keys (ids : ids_t) : map fst (empty_post ids) = map fst ids.
Proof. unfold empty_post. rewrite map_map. reflexivity. Qed.

Lemma post_append_spec (post : post_t) (l : loc) (f : string) (x : list Q) :
  dict_mem loc_eqb post l = true ->
  exists post',
    post_append post l f x = Ok post' /\
    map fst post' = map fst post /\
    field_of post' l f = extended (field_of post l f) [x] /\
    (forall l' f', l' <> l \/ f' <> f -> field_of post' l' f' = field_of post l' f').
Proof.
  intros Hmem. unfold post_append. pose proof Hmem as Hmem'.
  unfold dict_mem in Hmem'.
  destruct (dict_get loc_eqb post l) as [d |] eqn:E; [| discriminate].
  eexists. split; [reflexivity |]. split; [| split].
  - now apply dict_set_keys_mem.
  - unfold field_of. rewrite (@dict_get_set_same _ _ _ loc_eqb_eq), E.
    rewrite (@dict_get_set_same _ _ _ string_eqb_eq). simpl.
    now destruct (dict_get String.eqb d f).
  - intros l' f' Hne. unfold field_of.
    destruct (loc_eqb l' l) eqn:El.
    + apply loc_eqb_eq in El. subst l'.
      destruct Hne as [Hne | Hne]; [congruence |].
      rewrite (@dict_get_set_same _ _ _ loc_eqb_eq), E.
      now apply (@dict_get_set_other _ _ _ string_eqb_eq).
    + rewrite (@dict_get_set_other _ _ _ loc_eqb_eq); [reflexivity |].
      intros ->. rewrite (@eqb_refl_of _ _ loc_eqb_eq) in El. discriminate.
Qed.

Lemma append_field_spec (f : string) (arr : list Q) : forall (ids : ids_t) (post : post_t),
  NoDup (map fst ids) ->
  (forall l pt, In (l, pt) ids ->
     dict_mem loc_eqb post l = true /\ is_ok (take arr pt) = true) ->
  exists post',
    append_field post f arr ids = Ok post' /\
    map fst post' = map fst post /\
    (forall l pt, In (l, pt) ids ->
       exists x, take arr pt = Ok x /\
                 field_of post' l f = extended (field_of post l f) [x]) /\
    (forall l f', ~ In l (map fst ids) \/ f' <> f ->
       field_of post' l f' = field_of post l f').
Proof.
  induction ids as [| [l pt] ids IH]; intros post Hnd Hin.
  - exists post. simpl. repeat split; try reflexivity. intros l pt [].
  - inversion Hnd as [| ? ? Hfresh Hnd']; subst.
    destruct (Hin l pt (or_introl eq_refl)) as [Hmem Hok].
    destruct (take arr pt) as [x |] eqn:Ex; [| discriminate].
    destruct (@post_append_spec post l f x Hmem) as [post1 [H1 [K1 [F1 O1]]]].
    destruct (IH post1 Hnd') as [post' [H2 [K2 [F2 O2]]]].
    { intros l' pt' H'. destruct (Hin l' pt' (or_intror H')) as [Hm Ht].
      split; [| exact Ht]. now rewrite (@dict_mem_keys _ _ l' _ _ K1). }
    exists post'. split; [| split; [| split]].
    + cbn [append_field]. rewrite Ex. cbn [bind]. rewrite H1. cbn [bind]. exact H2.
    + congruence.
    + intros l' pt' [H' | H'].
      * inversion H'; subst l' pt'. exists x. split; [exact Ex |].
        rewrite O2 by (left; exact Hfresh). exact F1.
      * destruct (F2 l' pt' H') as [x' [Ex' Fx']]. exists x'. split; [exact Ex' |].
        rewrite Fx'. f_equal. apply O1. left. intros ->.
        apply Hfresh. change l with (fst (l, pt')). now apply in_map.
    + intros l' f' Hne. rewrite O2.
      * apply O1. destruct Hne as [Hne | Hne]; [left | right; exact Hne].
        intros ->. apply Hne. now left.
      * destruct Hne as [Hne | Hne]; [left | right; exact Hne].
        intros H'. apply Hne. now right.
Qed.

Lemma append_two_spec (pressure velocity : list Q) : forall (ids : ids_t) (post : post_t),
  NoDup (map fst ids) ->
  (forall l pt, In (l, pt) ids ->
     dict_mem loc_eqb post l = true /\
     is_ok (take pressure pt) = true /\ is_ok (take velocity pt) = true) ->
  exists post',
    append_two post pressure velocity ids = Ok post' /\
    map fst post' = map fst post /\
    (forall l pt, In (l, pt) ids ->
       exists x y,
         take pressure pt = Ok x /\ take velocity pt = Ok y /\
         field_of post' l "pressure" = extended (field_of post l "pressure") [x] /\
         field_of post' l "velocity" = extended (field_of post l "velocity") [y]) /\
    (forall l f', ~ In l (map fst ids) -> field_of post' l f' = field_of post l f').
Proof.
  induction ids as [| [l pt] ids IH]; intros post Hnd Hin.
  - exists post. simpl. repeat split; try reflexivity. intros l pt [].
  - inversion Hnd as [| ? ? Hfresh Hnd']; subst.
    destruct (Hin l pt (or_introl eq_refl)) as [Hmem [Hokp Hokv]].
    destruct (take pressure pt) as [x |] eqn:Ex; [| discriminate].
    destruct (take velocity pt) as [y |] eqn:Ey; [| discriminate].
    destruct (@post_append_spec post l "pressure" x Hmem) as [post1 [H1 [K1 [F1 O1]]]].
    assert (dict_mem loc_eqb post1 l = true) as Hmem1
      by now rewrite (@dict_mem_keys _ _ l _ _ K1).
    destruct (@post_append_spec post1 l "velocity" y Hmem1) as [post2 [H2 [K2 [F2 O2]]]].
    destruct (IH post2 Hnd') as [post' [H3 [K3 [F3 O3]]]].
    { intros l' pt' H'. destruct (Hin l' pt' (or_intror H')) as [Hm Ht].
      split; [| exact Ht].
      rewrite (@dict_mem_keys _ _ l' _ _ K2). now rewrite (@dict_mem_keys _ _ l' _ _ K1). }
    exists post'. split; [| split; [| split]].
    + cbn [append_two]. rewrite Ex. cbn [bind]. rewrite H1. cbn [bind].
      rewrite Ey. cbn [bind]. rewrite H2. cbn [bind]. exact H3.
    + congruence.
    + intros l' pt' [H' | H'].
      * inversion H'; subst l' pt'. exists x, y.
        split; [exact Ex |]. split; [exact Ey |].
        rewrite !O3 by exact Hfresh. split.
        -- rewrite O2 by (right; discriminate). exact F1.
        -- rewrite F2. f_equal. apply O1. right. discriminate.
      * destruct (F3 l' pt' H') as [x' [y' [Ex' [Ey' [Fx' Fy']]]]].
        exists x', y'. split; [exact Ex' |]. split; [exact Ey' |].
        assert (l' <> l) as Hne.
        { intros ->. apply Hfresh. change l with (fst (l, pt')). now apply in_map. }
        rewrite Fx', Fy'. split; f_equal.
        -- rewrite O2 by (left; exact Hne). apply O1. left. exact Hne.
        -- rewrite O2 by (left; exact Hne). apply O1. left. exact Hne.
    + intros l' f' Hne. rewrite O3 by (intros H'; apply Hne; now right).
      assert (l' <> l) as Hne' by (intros ->; apply Hne; now left).
      rewrite O2 by (left; exact Hne'). apply O1. left. exact Hne'.
Qed.

End SeriesFacts.

Section ResultsFacts.
Import PostSteadyFluid Spec.
Context {L : Libm}.

Lemma is_ok_inv {A} (m : result A) : is_ok m = true -> exists a, m = Ok a.
Proof. destruct m as [a | e]; [eauto | discriminate]. Qed.

Lemma repeat_zero (pts : list (Q * Q * Q)) :
  repeat 0 (length pts) = map (fun _ => 0) pts.
Proof. induction pts as [| p pts IH]; simpl; [reflexivity | now rewrite IH]. Qed.

Lemma collect_length {A} (g : vtu -> result A) : forall (rs : list vtu) (xs : list A),
  collect g rs = Ok xs -> length xs = length rs.
Proof.
  induction rs as [| r rs IH]; intros xs H; simpl in H.
  - now inversion H.
  - destruct (g r); simpl in H; [| discriminate].
    destruct (collect g rs) as [ys |]; simpl in H; [| discriminate].
    inversion H. simpl. f_equal. now apply IH.
Qed.

(** [extract_results_fluid_centerline] on a readable snapshot. *)
Lemma fluid_step (post : post_t) (res : vtu) (pts : list (Q * Q * Q)) (ids : ids_t) :
  NoDup (map fst ids) ->
  (forall l pt, In (l, pt) ids -> dict_mem loc_eqb post l = true) ->
  is_ok (v2n (Pressure res)) = true ->
  is_ok (v <- v2n (Velocity res) ;; linalg_norm_axis1 v)%result = true ->
  (forall l pt, In (l, pt) ids ->
     is_ok (pressure_at pt res) = true /\ is_ok (velocity_at pt res) = true) ->
  exists post',
    extract_results_fluid_centerline post res pts ids = ([], Ok post') /\
    map fst post' = map fst post /\
    (forall l pt, In (l, pt) ids ->
       exists x y,
         pressure_at pt res = Ok x /\ velocity_at pt res = Ok y /\
         field_of post' l "pressure" = extended (field_of post l "pressure") [x] /\
         field_of post' l "velocity" = extended (field_of post l "velocity") [y]).
Proof.
  intros Hnd Hmem Hp Hv Hat.
  unfold extract_results_fluid_centerline, lift, pressure_at, velocity_at in *.
  destruct (Pressure res) as [p |]; [| discriminate].
  destruct (Velocity res) as [v |]; [| discriminate].
  cbn [v2n bind] in *.
  destruct (linalg_norm_axis1 v) as [m |]; [| discriminate].
  cbn [bind] in *.
  destruct (@append_two_spec p m ids post Hnd) as [post' [H1 [K1 [F1 _]]]].
  { intros l pt H. split; [now apply (Hmem l pt) | now apply (Hat l pt)]. }
  exists post'. rewrite H1. repeat split; assumption.
Qed.

(** [extract_results_wall] on a readable snapshot. *)
Lemma wall_step (post : post_t) (res : vtu) (pts : list (Q * Q * Q)) (ids : ids_t) :
  NoDup (map fst ids) ->
  (forall l pt, In (l, pt) ids -> dict_mem loc_eqb post l = true) ->
  is_ok (v2n (Pressure res)) = true ->
  (forall l pt, In (l, pt) ids -> is_ok (pressure_at pt res) = true) ->
  exists post',
    extract_results_wall post res pts ids = ([], Ok post') /\
    map fst post' = map fst post /\
    (forall l pt, In (l, pt) ids ->
       exists x, pressure_at pt res = Ok x /\
         field_of post' l "pressure" = extended (field_of post l "pressure") [x]) /\
    (forall l f', ~ In l (map fst ids) \/ f' <> "pressure" ->
       field_of post' l f' = field_of post l f').
Proof.
  intros Hnd Hmem Hp Hat.
  unfold extract_results_wall, lift, pressure_at in *.
  destruct (Pressure res) as [p |]; [| discriminate].
  cbn [v2n bind] in *.
  destruct (@append_field_spec "pressure" p ids post Hnd) as [post' [H1 [K1 [F1 O1]]]].
  { intros l pt H. split; [now apply (Hmem l pt) | now apply (Hat l pt)]. }
  exists post'. rewrite H1. repeat split; assumption.
Qed.

(** [extract_wss] once the array it uses is known. *)
Lemma extract_wss_spec (post : post_t) (res : vtu) (pts : list (Q * Q * Q)) (ids : ids_t)
    (mag : list Q) (warned : bool) :
  wss_source res pts = Ok (mag, warned) ->
  NoDup (map fst ids) ->
  (forall l pt, In (l, pt) ids ->
     dict_mem loc_eqb post l = true /\ is_ok (take mag pt) = true) ->
  exists post',
    extract_wss post res pts ids = (warning_lines warned, Ok post') /\
    map fst post' = map fst post /\
    (forall l pt, In (l, pt) ids ->
       exists y, take mag pt = Ok y /\
         field_of post' l "wss" = extended (field_of post l "wss") [y]) /\
    (forall l f', ~ In l (map fst ids) \/ f' <> "wss" ->
       field_of post' l f' = field_of post l f').
Proof.
  intros Hsrc Hnd Hin.
  destruct (@append_field_spec "wss" mag ids post Hnd Hin) as [post' [H1 [K1 [F1 O1]]]].
  exists post'. split; [| repeat split; assumption].
  unfold extract_wss. rewrite Hsrc. unfold lift, bind_out. cbn [fst snd].
  rewrite H1. destruct warned; reflexivity.
Qed.

(** The loop over the snapshots: each stored series grows by the values
    of the retained snapshots. *)
Lemma snapshot_loop_spec (pts : list (Q * Q * Q)) (ids_fluid ids_interface : ids_t)
    (start_step : Z) :
  NoDup (map fst ids_fluid) -> NoDup (map fst ids_interface) ->
  forall (results : list vtu) (i : nat) (pf pit : post_t),
  (forall l pt, In (l, pt) ids_fluid -> dict_mem loc_eqb pf l = true) ->
  (forall l pt, In (l, pt) ids_interface -> dict_mem loc_eqb pit l = true) ->
  let kept := skipn (Z.to_nat (start_step - Z.of_nat i)) results in
  Forall (readable pts ids_fluid ids_interface) kept ->
  exists pf' pit',
    snd (snapshot_loop i results pts ids_fluid ids_interface start_step pf pit)
      = Ok (pf', pit') /\
    (forall l pt, In (l, pt) ids_fluid ->
       exists ps vs,
         collect (pressure_at pt) kept = Ok ps /\
         collect (velocity_at pt) kept = Ok vs /\
         field_of pf' l "pressure" = extended (field_of pf l "pressure") ps /\
         field_of pf' l "velocity" = extended (field_of pf l "velocity") vs) /\
    (forall l pt, In (l, pt) ids_interface ->
       exists ps ws,
         collect (pressure_at pt) kept = Ok ps /\
         collect (wss_at pts pt) kept = Ok ws /\
         field_of pit' l "pressure" = extended (field_of pit l "pressure") ps /\
         field_of pit' l "wss" = extended (field_of pit l "wss") ws).
Proof.
  intros Hndf Hndi.
  induction results as [| res rest IH]; intros i pf pit Hpf Hpit kept Hall.
  - exists pf, pit. subst kept. rewrite skipn_nil. simpl.
    split; [reflexivity |].
    split; intros l pt _; exists [], []; repeat split; reflexivity.
  - cbn [snapshot_loop].
    destruct (start_step <=? Z.of_nat i)%Z eqn:Ecmp.
    + apply Z.leb_le in Ecmp.
      assert (Z.to_nat (start_step - Z.of_nat i) = 0%nat) as E0 by lia.
      assert (Z.to_nat (start_step - Z.of_nat (S i)) = 0%nat) as E1 by lia.
      subst kept. rewrite E0 in *. cbn [skipn] in *.
      inversion Hall as [| ? ? Hres Hrest]; subst.
      destruct Hres as [Rp [Rv [Rw [Rf Ri]]]].
      destruct (@fluid_step pf res pts ids_fluid Hndf Hpf Rp Rv Rf)
        as [pf1 [Hf1 [Kf1 Ff1]]].
      destruct (@wall_step pit res pts ids_interface Hndi Hpit Rp)
        as [pit1 [Hw1 [Kw1 [Fw1 Ow1]]]].
      { intros l pt H. now apply (Ri l pt). }
      destruct (is_ok_inv _ Rw) as [[mag warned] Hsrc].
      destruct (@extract_wss_spec pit1 res pts ids_interface mag warned Hsrc Hndi)
        as [pit2 [Hw2 [Kw2 [Fw2 Ow2]]]].
      { intros l pt H. split.
        - rewrite (@dict_mem_keys _ _ l _ _ Kw1). now apply (Hpit l pt).
        - destruct (Ri l pt H) as [_ Hy]. unfold wss_at in Hy.
          rewrite Hsrc in Hy. exact Hy. }
      destruct (IH (S i) pf1 pit2) as [pf' [pit' [Hloop [Ff Fi]]]].
      { intros l pt H. rewrite (@dict_mem_keys _ _ l _ _ Kf1). now apply (Hpf l pt). }
      { intros l pt H. rewrite (@dict_mem_keys _ _ l _ _ Kw2).
        rewrite (@dict_mem_keys _ _ l _ _ Kw1). now apply (Hpit l pt). }
      { rewrite E1. exact Hrest. }
      rewrite E1 in Ff, Fi. cbn [skipn] in Ff, Fi.
      exists pf', pit'. split; [| split].
      * rewrite snd_bind_out, Hf1. cbn [snd].
        rewrite snd_bind_out, Hw1. cbn [snd].
        rewrite snd_bind_out, Hw2. cbn [snd]. exact Hloop.
      * intros l pt H.
        destruct (Ff1 l pt H) as [x [y [Px [Vy [Fx Fy]]]]].
        destruct (Ff l pt H) as [ps [vs [Cp [Cv [Fp Fv]]]]].
        exists (x :: ps), (y :: vs). cbn [collect].
        rewrite Px, Vy, Cp, Cv. cbn [bind].
        split; [reflexivity |]. split; [reflexivity |].
        rewrite Fp, Fv, Fx, Fy, !extended_app. split; reflexivity.
      * intros l pt H.
        destruct (Fw1 l pt H) as [x [Px Fx]].
        destruct (Fw2 l pt H) as [y [Wy Fy]].
        destruct (Fi l pt H) as [ps [ws [Cp [Cw [Fp Fw]]]]].
        exists (x :: ps), (y :: ws). cbn [collect].
        assert (wss_at pts pt res = Ok y) as Wy'.
        { unfold wss_at. rewrite Hsrc. exact Wy. }
        rewrite Px, Wy', Cp, Cw. cbn [bind].
        split; [reflexivity |]. split; [reflexivity |].
        rewrite Fp, Fw, Fy.
        rewrite (Ow2 l "pressure") by (right; discriminate).
        rewrite Fx.
        rewrite (Ow1 l "wss") by (right; discriminate).
        rewrite !extended_app. split; reflexivity.
    + apply Z.leb_gt in Ecmp.
      assert (Z.to_nat (start_step - Z.of_nat i)
              = S (Z.to_nat (start_step - Z.of_nat (S i)))) as E0 by lia.
      subst kept. rewrite E0 in *. cbn [skipn] in *.
      apply (IH (S i) pf pit Hpf Hpit Hall).
Qed.

End ResultsFacts.

Section MeanFacts.
Import PostSteadyFluid Spec.


Lemma mean_axis0_length (row0 : list Q) (rest : list (list Q)) :
  length (mean_axis0 (row0 :: rest)) = length row0.
Proof. unfold mean_axis0. now rewrite length_map, length_seq. Qed.




End MeanFacts.

Section GetResultsFacts.
Import PostSteadyFluid Spec.
Context {L : Libm}.

Lemma collect_nonempty {A} (g : vtu -> result A) (rs : list vtu) (xs : list A) :
  rs <> [] -> collect g rs = Ok xs -> xs <> [].
Proof.
  intros Hne H Hxs. apply collect_length in H. subst xs.
  destruct rs; [congruence | discriminate].
Qed.

Lemma get_results_spec (results : list vtu) (pts : list (Q * Q * Q))
    (ids_fluid ids_interface : ids_t) (start_step : Z) :
  NoDup (map fst ids_fluid) -> NoDup (map fst ids_interface) ->
  let kept := retained start_step results in
  kept <> [] ->
  Forall (readable pts ids_fluid ids_interface) kept ->
  exists data_fluid data_interface data_interface_time,
    snd (get_results results pts ids_fluid ids_interface start_step)
      = Ok (data_fluid, data_interface, data_interface_time) /\
    (forall l pt, In (l, pt) ids_fluid ->
       exists ps vs,
         collect (pressure_at pt) kept = Ok ps /\
         collect (velocity_at pt) kept = Ok vs /\
         field_of data_fluid l "pressure" = Some (mean_axis0 ps) /\
         field_of data_fluid l "velocity" = Some (mean_axis0 vs)) /\
    (forall l pt, In (l, pt) ids_interface ->
       exists ps ws,
         collect (pressure_at pt) kept = Ok ps /\
         collect (wss_at pts pt) kept = Ok ws /\
         field_of data_interface l "pressure" = Some (mean_axis0 ps) /\
         field_of data_interface l "wss" = Some (mean_axis0 ws) /\
         field_of data_interface_time l "pressure" = Some ps /\
         field_of data_interface_time l "wss" = Some ws).
Proof.
  intros Hndf Hndi kept Hne Hall.
  assert (forall ids l (pt : list nat), In (l, pt) ids ->
            dict_mem loc_eqb (empty_post ids) l = true) as Hkeys.
  { intros ids l pt H. apply dict_mem_In. rewrite empty_post_keys.
    change l with (fst (l, pt)). now apply in_map. }
  destruct (@snapshot_loop_spec _ pts ids_fluid ids_interface start_step Hndf Hndi
              results 0%nat (empty_post ids_fluid) (empty_post ids_interface)
              (Hkeys ids_fluid) (Hkeys ids_interface))
    as [pf' [pit' [Hloop [Ff Fi]]]].
  { cbn [Z.of_nat]. rewrite Z.sub_0_r. exact Hall. }
  cbn [Z.of_nat] in Ff, Fi. rewrite Z.sub_0_r in Ff, Fi.
  fold (retained start_step results) in Ff, Fi. fold kept in Ff, Fi.
  exists (average pf'), (average pit'), pit'. split; [| split].
  - unfold get_results. rewrite snd_bind_out. cbn [print snd].
    rewrite snd_bind_out, Hloop. reflexivity.
  - intros l pt H. destruct (Ff l pt H) as [ps [vs [Cp [Cv [Fp Fv]]]]].
    exists ps, vs. split; [exact Cp |]. split; [exact Cv |].
    rewrite !field_of_average, Fp, Fv, !field_of_empty_post.
    rewrite !extended_None by (eapply collect_nonempty; eassumption).
    split; reflexivity.
  - intros l pt H. destruct (Fi l pt H) as [ps [ws [Cp [Cw [Fp Fw]]]]].
    exists ps, ws. split; [exact Cp |]. split; [exact Cw |].
    rewrite !field_of_average, Fp, Fw, !field_of_empty_post.
    rewrite !extended_None by (eapply collect_nonempty; eassumption).
    repeat split; reflexivity.
Qed.

(** The rule of the specification and [wss_source] agree. *)
Lemma wss_choice_source (res : vtu) (pts : list (Q * Q * Q)) (mag : list Q) (warned : bool) :
  wss_source res pts = Ok (mag, warned) <-> wss_choice res pts mag warned.
Proof.
  unfold wss_source. split.
  - intros H. destruct (WSS res) as [[v | rows] |] eqn:Ew.
    + discriminate.
    + cbn in H. inversion H; subst. now apply choose_wss.
    + destruct (Traction res) as [[v | rows] |] eqn:Et.
      * discriminate.
      * cbn in H. inversion H; subst. now apply choose_traction.
      * inversion H; subst. rewrite repeat_zero. now apply choose_zero.
  - intros H. destruct H as [rows Hw | rows Hw Ht | Hw Ht].
    + rewrite Hw. reflexivity.
    + rewrite Hw, Ht. reflexivity.
    + rewrite Hw, Ht, repeat_zero. reflexivity.
Qed.

Lemma take_values_at (mag : list Q) (pt : list nat) :
  Forall (fun k => (k < length mag)%nat) pt -> take mag pt = Ok (values_at mag pt).
Proof. intros H. now apply take_spec. Qed.

(** The loop of [extract_wss_mid_timeseries]. *)
Lemma mid_loop_spec (pts : list (Q * Q * Q)) (pt : list nat) :
  forall (results : list vtu) (mags : list (list Q)),
  Forall2 (fun res mag =>
             (exists warned, wss_choice res pts mag warned) /\
             Forall (fun k => (k < length mag)%nat) pt) results mags ->
  mid_loop results pts pt = Ok (map (fun mag => np_mean (values_at mag pt)) mags).
Proof.
  induction 1 as [| res mag results mags [[warned Hc] Hr] _ IH]; [reflexivity |].
  cbn [mid_loop]. apply wss_choice_source in Hc. rewrite Hc. cbn [bind fst].
  rewrite (@take_values_at mag pt Hr). cbn [bind]. rewrite IH. reflexivity.
Qed.

End GetResultsFacts.

(* --------------------------------------------------------------------- *)
(** ** Claims about the regression comparator *)
(* --------------------------------------------------------------------- *)

Section NormCheckFacts.
Import CompareResults Spec.

(** The fields that [compare_error_norms] visits are the fields that
    both records have. *)
Lemma shared_field (rd td : convergence_data) (f : string) :
  In f (filter (dict_mem String.eqb (errors td)) (dict_keys (errors rd))) <->
  exists refs tests,
    dict_get String.eqb (errors rd) f = Some refs /\
    dict_get String.eqb (errors td) f = Some tests.
Proof.
  rewrite filter_In. unfold dict_keys, dict_mem. split.
  - intros [Hin Hm].
    destruct (dict_get String.eqb (errors rd) f) as [refs |] eqn:Gr.
    + destruct (dict_get String.eqb (errors td) f) as [tests |]; [eauto | discriminate].
    + apply (@dict_get_None _ _ _ string_eqb_eq) in Gr. contradiction.
  - intros [refs [tests [Gr Gt]]]. split.
    + apply (@dict_get_In _ _ _ string_eqb_eq) in Gr.
      change f with (fst (f, refs)). now apply in_map.
    + now rewrite Gt.
Qed.

(** The check passes exactly when it can read a pair of numbers at
    every step of every shared field and none of their differences is
    greater than the tolerance. *)
Lemma compare_error_norms_pass_iff (rd td : convergence_data) (tol : pyfloat) :
  compare_error_norms rd td tol = Ok true <->
  forall f refs tests t,
    dict_get String.eqb (errors rd) f = Some refs ->
    dict_get String.eqb (errors td) f = Some tests ->
    (t < time_steps rd)%nat ->
    exists r x d,
      step_values_with rel_diff refs tests t r x d /\ float_gt d tol = false.
Proof.
  split.
  - intros H f refs tests t Gr Gt Ht. unfold compare_error_norms in H.
    destruct (norms_field_loop rd td tol
                (filter (dict_mem String.eqb (errors td)) (dict_keys (errors rd))) [])
      as [fs |] eqn:F; cbn [bind] in H; [| discriminate].
    destruct fs as [| fl fs]; [| discriminate].
    apply norms_field_loop_spec in F. destruct F as [extra [Hfs [Hall _]]].
    simpl in Hfs. subst extra.
    destruct (Hall f) as [refs' [tests' [Gr' [Gt' Hsteps]]]];
      [apply shared_field; eauto |].
    rewrite Gr in Gr'. rewrite Gt in Gt'. inversion Gr'; inversion Gt'; subst refs' tests'.
    destruct (Hsteps t Ht) as [r [x [d [Hv Hi]]]].
    exists r, x, d. split; [exact Hv |].
    destruct (float_gt d tol); [exfalso; exact (Hi eq_refl) | reflexivity].
  - intros H. unfold compare_error_norms.
    rewrite norms_field_loop_pass; [reflexivity |].
    intros f Hf. apply shared_field in Hf. destruct Hf as [refs [tests [Gr Gt]]].
    exists refs, tests. split; [exact Gr |]. split; [exact Gt |].
    intros t Ht. now apply (H f refs tests t).
Qed.



End NormCheckFacts.

Section CompareClaims.
Import CompareResults Spec Examples.

(** C8.  For two convergence logs with equal time-step counts, the
    iteration-count check fails exactly when some time step's iteration
    counts differ by more than the integer tolerance (2 by default).  It
    does not stop at the first violating step: its single report holds
    one line for every violating time step, in time order, and names
    exactly those steps.  When the check fails, [main] returns exit
    code 1. *)
Theorem iteration_check_reports_every_violation
    (ref_json test_json : list (string * json))
    (ref_data test_data : convergence_data)
    (tolerance : Z) (error_tolerance : pyfloat) (vtu : option (result unit)) :
  extract_convergence_data ref_json = Ok ref_data ->
  extract_convergence_data test_json = Ok test_data ->
  time_steps ref_data = time_steps test_data ->
  default_iter_tolerance = 2%Z /\
  compare_iterations ref_data test_data tolerance =
    match violations ref_data test_data tolerance with
    | [] => Ok true
    | v :: vs => Raise (ComparisonError (IterationFailures (v :: vs)))
    end /\
  (forall t,
     In t (map if_step (violations ref_data test_data tolerance)) <->
     (t < time_steps ref_data)%nat /\
     (tolerance < Z.abs (nth t (iterations test_data) 0 - nth t (iterations ref_data) 0))%Z) /\
  (is_ok (compare_iterations ref_data test_data tolerance) = false <->
   exists t, (t < time_steps ref_data)%nat /\
     (tolerance < Z.abs (nth t (iterations test_data) 0 - nth t (iterations ref_data) 0))%Z) /\
  (is_ok (compare_iterations ref_data test_data tolerance) = false ->
   main ref_json test_json tolerance error_tolerance vtu = 1%Z).
Proof.
  intros Hr Ht Hsteps.
  pose proof (extract_length _ Hr) as Lr.
  pose proof (extract_length _ Ht) as Lt. rewrite <- Hsteps in Lt.
  pose proof (compare_iterations_spec ref_data test_data tolerance Lr Lt) as Hspec.
  split; [reflexivity |]. split; [exact Hspec |].
  split; [apply in_violations |]. split.
  - rewrite Hspec. split.
    + destruct (violations ref_data test_data tolerance) as [| v vs] eqn:V;
        [discriminate |]. intros _.
      exists (if_step v). apply in_violations. rewrite V. now left.
    + intros [t Hv]. apply in_violations in Hv.
      destruct (violations ref_data test_data tolerance); [destruct Hv | reflexivity].
  - intros Hfail.
    destruct (compare_iterations ref_data test_data tolerance) as [b | e] eqn:C;
      [discriminate |].
    eapply main_iterations_fail; eauto.
Qed.

Lemma iteration_check_reports_every_violation_witness :
  exists ref_data test_data,
    extract_convergence_data ref_log = Ok ref_data /\
    extract_convergence_data test_log = Ok test_data /\
    compare_iterations ref_data test_data 2 =
      Raise (ComparisonError (IterationFailures
               [IterFailure 1 2 6 4 2; IterFailure 2 4 1 3 2])) /\
    main ref_log test_log 2 (1 # 10) None = 1%Z.
Proof.
  eexists. eexists.
  split; [reflexivity |]. split; [reflexivity |].
  pose proof (@iteration_check_reports_every_violation ref_log test_log _ _
                2%Z (1 # 10) None eq_refl eq_refl eq_refl) as [_ [Hc [_ [_ Hm]]]].
  split.
  - exact Hc.
  - apply Hm. reflexivity.
Defined.

(** C10.  The iteration counts recorded by [extract_convergence_data]
    are the per-time-step list lengths of the first field that has time
    steps: a count is appended for time step [t] only while none has
    been recorded for it, so no later field contributes.  Hence two logs
    whose first fields agree in their counts pass the iteration check
    with any non-negative tolerance, whatever the iteration counts of
    their later fields. *)
Theorem iteration_counts_come_from_first_field
    (ref_json test_json ref_items test_items : list (string * json))
    (ref_data test_data : convergence_data) (tolerance : Z) :
  select_errors ref_json = Ok (JObj ref_items) ->
  select_errors test_json = Ok (JObj test_items) ->
  extract_convergence_data ref_json = Ok ref_data ->
  extract_convergence_data test_json = Ok test_data ->
  iterations ref_data = map entry_length (first_series ref_items) /\
  iterations test_data = map entry_length (first_series test_items) /\
  ((0 <= tolerance)%Z ->
   map entry_length (first_series ref_items) =
   map entry_length (first_series test_items) ->
   compare_iterations ref_data test_data tolerance = Ok true).
Proof.
  intros Sr St Hr Ht.
  destruct (extract_iterations _ Sr Hr) as [Ir Tr].
  destruct (extract_iterations _ St Ht) as [It Tt].
  split; [exact Ir |]. split; [exact It |].
  intros Htol Heq.
  assert (iterations test_data = iterations ref_data) as E by congruence.
  rewrite compare_iterations_spec; [| congruence | congruence].
  unfold violations.
  rewrite filter_none; [reflexivity |].
  intros t _. unfold exceeds. rewrite E, Z.sub_diag. simpl.
  apply Z.ltb_ge. exact Htol.
Qed.

Lemma iteration_counts_come_from_first_field_witness :
  exists ref_data test_data,
    extract_convergence_data ref_log = Ok ref_data /\
    extract_convergence_data test_log_fluid_only = Ok test_data /\
    iterations ref_data = [3; 2; 4]%Z /\
    iterations test_data = [3; 2; 4]%Z /\
    compare_iterations ref_data test_data 2 = Ok true.
Proof.
  eexists. eexists.
  split; [reflexivity |]. split; [reflexivity |].
  pose proof (@iteration_counts_come_from_first_field ref_log test_log_fluid_only
                _ _ _ _ 2%Z eq_refl eq_refl eq_refl eq_refl) as [Hr [Ht Hc]].
  split; [exact Hr |]. split; [exact Ht |].
  apply Hc; [lia | reflexivity].
Defined.



(** Why the norms have to be non-negative: for the reference value -1
    the guard [ref_err > 0] selects the absolute difference, while the
    quantity of the specification is the (negative) quotient. *)
Remark negative_reference_is_compared_absolutely :
  rel_diff (Finite (- (1))) (Finite (- (3 # 2))) =
    Ok (float_abs (float_sub (Finite (- (3 # 2))) (Finite (- (1))))) /\
  claimed_diff (Finite (- (1))) (Finite (- (3 # 2))) =
    float_truediv (float_abs (float_sub (Finite (- (3 # 2))) (Finite (- (1)))))
      (Finite (- (1))).
Proof. split; reflexivity. Qed.

End CompareClaims.

(* --------------------------------------------------------------------- *)
(** ** Claim about the heartbeat overlay *)
(* --------------------------------------------------------------------- *)

Section OverlayClaims.
Import Spec Examples.

(** C4.  For a series of length L and a positive [steps_per_beat] P, both
    overlay functions draw exactly floor(L / P) windows, each of length
    P; window [i] holds the samples [i*P, (i+1)*P), so together the
    windows are the first floor(L/P)*P samples and the remainder is
    dropped; when floor(L / P) = 0 no overlay is produced.
    ([plot_wss_heartbeat_overlay] draws the series scaled to dyne/cm2;
    [plot_wss_heartbeats] reads the series from the per-step results.) *)
Theorem heartbeat_overlay_windows
    (series : list Q) (steps_per_beat : Z) (results : list PostFluid.results_t) :
  (0 < steps_per_beat)%Z ->
  let p := Z.to_nat steps_per_beat in
  let n := (length series / p)%nat in
  length (overlay p series) = n /\
  (forall i, (i < n)%nat ->
     nth_error (overlay p series) i =
     Some (PlotLine (seq 0 p) (firstn p (skipn (i * p) series)) (i + 1))) /\
  Forall (fun ln => length (line_y ln) = p /\ length (line_x ln) = p) (overlay p series) /\
  concat (map line_y (overlay p series)) = firstn (n * p) series /\
  (results <> [] ->
   PostFluid.scalar_column results "wss_mid_mean" = Ok series ->
   PostFluid.plot_wss_heartbeats results steps_per_beat =
   if (n =? 0)%nat then Ok None else Ok (Some (overlay p series))) /\
  snd (PostSteadyFluid.plot_wss_heartbeat_overlay series steps_per_beat) =
  (if (n =? 0)%nat then Ok None
   else Ok (Some (overlay p (map (fun w => w * PostSteadyFluid.f_scales_wss) series)))).
Proof.
  intros Hp p n.
  assert (0 < p)%nat as Hp' by (unfold p; lia).
  split; [apply overlay_length |].
  split; [intros i Hi; now apply overlay_nth |].
  split; [now apply overlay_window_length |].
  split; [apply overlay_samples |].
  split.
  - intros Hne Hcol. unfold PostFluid.plot_wss_heartbeats.
    destruct results as [| r0 rest]; [contradiction |].
    cbn [getitem nth_error bind].
    pose proof Hcol as Hcol0. cbn [PostFluid.scalar_column] in Hcol0.
    destruct (PostFluid.scalar_item r0 "wss_mid_mean") as [q |] eqn:Hq;
      [| discriminate].
    rewrite (scalar_item_mem _ _ Hq). cbn [negb].
    rewrite Hcol. cbn [bind].
    rewrite floordiv_nat by exact Hp. cbn [bind]. fold p n.
    destruct (Nat.eqb_spec n 0) as [E | E].
    + rewrite E. reflexivity.
    + destruct (Z.eqb_spec (Z.of_nat n) 0); [lia |].
      unfold n, p. rewrite beat_loop_overlay by exact Hp. reflexivity.
  - unfold PostSteadyFluid.plot_wss_heartbeat_overlay.
    rewrite bind_out_lift, length_map, floordiv_nat by exact Hp. fold p n.
    destruct (Nat.eqb_spec n 0) as [E | E].
    + rewrite E. reflexivity.
    + destruct (Z.eqb_spec (Z.of_nat n) 0); [lia |].
      rewrite bind_out_lift.
      replace n
        with (length (map (fun w => (w * PostSteadyFluid.f_scales_wss)%Q) series) / p)%nat
        by (now rewrite length_map).
      unfold p. rewrite beat_loop_overlay by exact Hp. reflexivity.
Qed.

(** Seven samples with three steps per beat: two windows, [1;2;3] and
    [4;5;6]; the seventh sample is dropped. *)
Lemma heartbeat_overlay_windows_witness :
  PostFluid.plot_wss_heartbeats wss_results 3 =
    Ok (Some [PlotLine [0; 1; 2]%nat [1; 2; 3] 1; PlotLine [0; 1; 2]%nat [4; 5; 6] 2]) /\
  concat (map line_y (overlay 3 wss_series)) = [1; 2; 3; 4; 5; 6].
Proof.
  pose proof (@heartbeat_overlay_windows wss_series 3%Z wss_results eq_refl)
    as [_ [_ [_ [Hc [Hf _]]]]].
  split.
  - apply Hf; [discriminate | reflexivity].
  - exact Hc.
Defined.

End OverlayClaims.

(* --------------------------------------------------------------------- *)
(** ** Claim about the mid-section ring average *)
(* --------------------------------------------------------------------- *)

Section PostFluidClaims.
Import Spec Examples.
Context {L : Libm}.


End PostFluidClaims.


(* --------------------------------------------------------------------- *)
(** ** Claims about the geometry classifier *)
(* --------------------------------------------------------------------- *)

Section GetIdsClaims.
Import PostSteadyFluid Spec.
Context {L : Libm}.

(** C2.  Once the keys of a domain are registered (the point set is not
    empty and the domain is known), [get_ids] either returns or fails
    the uniqueness assertion.  When it returns, the coordinate sequence
    of every wildcard key that matched points is strictly increasing and
    is, position by position, the wildcard coordinate of the key's
    returned point indices, which are the matched points in a new
    order.  When two different matched points of a wildcard key have the
    same coordinate along the wildcard axis, [get_ids] raises the
    assertion error; so no returned sequence has duplicates. *)
Theorem wildcard_coordinates_strictly_increasing
    (pts_xyz : list (Q * Q * Q)) (domain : string) (locations : locations_t) :
  let pts_cra := map xyz2cra pts_xyz in
  snd (locations_of pts_xyz domain) = Ok locations ->
  ((exists r, snd (get_ids pts_xyz domain) = Ok r) \/
   (exists crd, snd (get_ids pts_xyz domain) = Raise (AssertionError crd))) /\
  (forall ids coords,
     snd (get_ids pts_xyz domain) = Ok (ids, coords) ->
     (forall l cs, dict_get loc_eqb coords l = Some cs ->
        StronglySorted Qlt cs /\
        exists dim found,
          wildcard_index l = Some dim /\
          dict_get loc_eqb ids l = Some found /\
          cs = map (coordinate pts_cra dim) found) /\
     (forall l pt dim, In (l, pt) locations -> wildcard_index l = Some dim ->
        select pts_cra l pt <> [] ->
        exists cs found,
          dict_get loc_eqb coords l = Some cs /\
          dict_get loc_eqb ids l = Some found /\
          Permutation found (select pts_cra l pt))) /\
  (forall l pt dim i j,
     In (l, pt) locations -> wildcard_index l = Some dim ->
     matches pts_cra l pt i -> matches pts_cra l pt j -> i <> j ->
     coordinate pts_cra dim i == coordinate pts_cra dim j ->
     exists crd, snd (get_ids pts_xyz domain) = Raise (AssertionError crd)).
Proof.
  intros pts_cra Hloc. split; [| split].
  - rewrite get_ids_unfold, Hloc. apply ids_loop_outcome.
  - intros ids coords H.
    destruct (get_ids_invariant _ _ Hloc H) as [_ [R2 [R3 R4]]].
    split; [exact R2 |].
    intros l pt dim Hin W Hne.
    destruct (R4 l pt dim Hin W Hne) as [cs Hcs].
    destruct (R3 l pt Hin) as [found [Hf Hp]]. eauto.
  - intros l pt dim i j Hin W Hi Hj Hne Heq.
    rewrite get_ids_unfold, Hloc.
    apply ids_loop_duplicate with (l := l) (pt := pt) (dim := dim) (i := i) (j := j);
      try assumption; now apply select_spec.
Qed.

(** C5, as amended.  For every registered key, [get_ids] returns exactly
    the indices of the points whose cylindrical coordinates match the
    key's value on every axis that is not the wildcard in the sense of
    [np.isclose] with its default tolerances:
    [|coordinate - value| <= 1e-8 + 1e-5 * |value|]. *)
Theorem get_ids_selects_isclose_matches
    (pts_xyz : list (Q * Q * Q)) (domain : string) (locations : locations_t)
    (ids : ids_t) (coords : coords_t) :
  let pts_cra := map xyz2cra pts_xyz in
  snd (locations_of pts_xyz domain) = Ok locations ->
  snd (get_ids pts_xyz domain) = Ok (ids, coords) ->
  isclose_atol = 1 # 100000000 /\
  isclose_rtol = 1 # 100000 /\
  (forall l pt, In (l, pt) locations ->
     exists found,
       dict_get loc_eqb ids l = Some found /\
       forall k, In k found <-> matches pts_cra l pt k) /\
  (forall l found, dict_get loc_eqb ids l = Some found ->
     exists pt, In (l, pt) locations /\
       forall k, In k found <-> matches pts_cra l pt k).
Proof.
  intros pts_cra Hloc H.
  destruct (get_ids_invariant _ _ Hloc H) as [R1 [_ [R3 _]]].
  split; [reflexivity |]. split; [reflexivity |]. split.
  - intros l pt Hin. destruct (R3 l pt Hin) as [found [Hf Hp]].
    exists found. split; [exact Hf |]. intros k.
    rewrite <- select_spec. split; apply Permutation_in;
      [exact Hp | apply Permutation_sym, Hp].
  - intros l found Hf. destruct (R1 l found Hf) as [pt [Hin Hp]].
    exists pt. split; [exact Hin |]. intros k.
    rewrite <- select_spec. split; apply Permutation_in;
      [exact Hp | apply Permutation_sym, Hp].
Qed.

End GetIdsClaims.

Section GetIdsExamples.
Import PostSteadyFluid Spec Examples.

(** On [wall_points] the axial line at 12 o'clock holds the points 0, 5
    and 4, at z = 0, 5 and 10. *)
Lemma wildcard_coordinates_strictly_increasing_witness :
  exists ids coords,
    snd (get_ids (L := axis_libm) wall_points "interface") = Ok (ids, coords) /\
    dict_get loc_eqb ids (SInt 0, SStr "wall", colon) = Some [0; 5; 4]%nat /\
    dict_get loc_eqb coords (SInt 0, SStr "wall", colon) = Some [0; 5; 10] /\
    StronglySorted Qlt [0; 5; 10].
Proof.
  eexists. eexists.
  split; [vm_compute; reflexivity |].
  split; [reflexivity |]. split; [reflexivity |].
  destruct (snd (locations_of (L := axis_libm) wall_points "interface"))
    as [locations |] eqn:Hloc; [| vm_compute in Hloc; discriminate].
  pose proof (@wildcard_coordinates_strictly_increasing axis_libm
                wall_points "interface" locations Hloc) as [_ [H _]].
  specialize (H _ _ eq_refl). destruct H as [H _].
  exact (proj1 (H (SInt 0, SStr "wall", colon) [0; 5; 10] eq_refl)).
Defined.

(** With the duplicated point, the same key fails the assertion. *)
Example duplicate_point_fails_assertion :
  snd (get_ids (L := axis_libm) wall_points_duplicate "interface") =
  Raise (AssertionError [0; 10; 5; 5]).
Proof. vm_compute. reflexivity. Qed.

(** On [centerline_points] every key with the axial label "mid" selects
    the point at z = 50.0004. *)
Lemma get_ids_selects_isclose_matches_witness :
  exists ids coords found,
    snd (get_ids (L := axis_libm) centerline_points "fluid") = Ok (ids, coords) /\
    dict_get loc_eqb ids (SInt 0, SStr "center", SStr "mid") = Some found /\
    forall k, In k found <->
      matches (map (xyz2cra (L := axis_libm)) centerline_points)
        (SInt 0, SStr "center", SStr "mid") (0, 0, 100 / 2) k.
Proof.
  destruct (snd (locations_of (L := axis_libm) centerline_points "fluid"))
    as [locations |] eqn:Hloc; [| vm_compute in Hloc; discriminate].
  destruct (snd (get_ids (L := axis_libm) centerline_points "fluid"))
    as [[ids coords] |] eqn:Hids; [| vm_compute in Hids; discriminate].
  pose proof (@get_ids_selects_isclose_matches axis_libm centerline_points "fluid"
                locations ids coords Hloc Hids) as [_ [_ [H _]]].
  destruct (H (SInt 0, SStr "center", SStr "mid") (0, 0, 100 / 2)) as [found [Hf Hm]].
  - vm_compute in Hloc. inversion Hloc. simpl. tauto.
  - exists ids, coords, found. auto.
Defined.

(** C5 as stated fails: the key (0, "center", "mid") of
    [centerline_points] has the axial value 50, and [get_ids] returns
    point 1 for it, whose axial coordinate 50.0004 is farther from 50
    than 1e-6 * (1 + 50), a thousand times the claimed tolerance in its
    absolute and in its relative reading. *)
Lemma selection_tolerance_exceeds_claim :
  exists ids coords locations target,
    snd (get_ids (L := axis_libm) centerline_points "fluid") = Ok (ids, coords) /\
    snd (locations_of (L := axis_libm) centerline_points "fluid") = Ok locations /\
    dict_get loc_eqb locations (SInt 0, SStr "center", SStr "mid") = Some target /\
    axis target 2 == 50 /\
    dict_get loc_eqb ids (SInt 0, SStr "center", SStr "mid") = Some [1%nat] /\
    coordinate (map (xyz2cra (L := axis_libm)) centerline_points) 2 1 == 500004 # 10000 /\
    ~ Qabs ((500004 # 10000) - 50) <= (1 # 1000000) * (1 + Qabs 50).
Proof.
  eexists. eexists. eexists. eexists.
  split; [vm_compute; reflexivity |].
  split; [vm_compute; reflexivity |].
  split; [reflexivity |].
  split; [reflexivity |].
  split; [reflexivity |].
  split; [reflexivity |].
  vm_compute. intros H. apply H. reflexivity.
Qed.

End GetIdsExamples.

(* --------------------------------------------------------------------- *)
(** ** Claims about the time average, the start step and the wall shear source *)
(* --------------------------------------------------------------------- *)

Section ResultsClaims.
Import PostSteadyFluid Spec.
Context {L : Libm}.


(** C3.  When [start_step] is at least the number of snapshots,
    [post_process] raises a [RuntimeError]: the one about the start step
    when there is a snapshot, the one about missing results when there
    is none.  Nothing has been extracted or averaged by then: the only
    line printed is the number of time steps, and the outcome is the
    same for any other snapshots of the same number. *)
Theorem start_step_beyond_snapshots_raises (res : list vtu) (start_step : Z) :
  (Z.of_nat (length res) <= start_step)%Z ->
  (exists m, snd (post_process res start_step) = Raise (RuntimeError m)) /\
  (res <> [] ->
   post_process res start_step =
   ([MsgTotalTimeSteps (length res)],
    Raise (RuntimeError (StartStepBeyond start_step (length res))))) /\
  (forall m, In m (fst (post_process res start_step)) ->
     m = MsgTotalTimeSteps (length res)) /\
  (forall res', length res' = length res ->
     post_process res' start_step = post_process res start_step).
Proof.
  intros Hge.
  assert (forall r rs, (Z.of_nat (length (r :: rs)) <= start_step)%Z ->
            post_process (r :: rs) start_step =
            ([MsgTotalTimeSteps (length (r :: rs))],
             Raise (RuntimeError (StartStepBeyond start_step (length (r :: rs))))))
    as Hcons.
  { intros r rs H. unfold post_process.
    apply Z.leb_le in H. rewrite H. reflexivity. }
  destruct res as [| r rs].
  - split; [exists NoResultsFound; reflexivity |].
    split; [congruence |].
    split; [intros m [] |].
    intros [| r' rs'] Hlen; [reflexivity | discriminate].
  - rewrite (Hcons r rs Hge).
    split; [eexists; reflexivity |].
    split; [reflexivity |].
    split; [intros m [H | []]; now symmetry |].
    intros [| r' rs'] Hlen; [discriminate |].
    rewrite Hcons by (rewrite Hlen; exact Hge).
    now rewrite Hlen.
Qed.

End ResultsClaims.

Section ResultsExamples.
Import PostSteadyFluid Spec Examples.


(** Three snapshots and a start step of 3. *)
Lemma start_step_beyond_snapshots_raises_witness :
  post_process (L := axis_libm) three_snapshots 3 =
  ([MsgTotalTimeSteps 3], Raise (RuntimeError (StartStepBeyond 3 3))).
Proof.
  destruct (@start_step_beyond_snapshots_raises axis_libm three_snapshots 3)
    as [_ [H _]].
  - simpl. lia.
  - apply H. discriminate.
Defined.

(** C6.  The claim holds for [extract_wss] and fails for its sibling
    [extract_wss_mid_timeseries], which has the same three branches
    without the [print] of the last one.  On a snapshot with neither a
    WSS nor a Traction array [extract_wss] stores zeros and prints the
    warning; [extract_wss_mid_timeseries] takes the same zeros and
    prints nothing.  In a run of [post_process] with [start_step = 1]
    the first snapshot is read by the mid ring series only, so its wall
    shear stress is taken as zero and the run prints no warning at
    all. *)
Lemma mid_series_substitutes_zero_without_warning :
  WSS no_wss_snapshot = None /\ Traction no_wss_snapshot = None /\
  (exists post,
     extract_wss (L := axis_libm) (empty_post [(mid_ring, [5; 6]%nat)])
       no_wss_snapshot wall_points [(mid_ring, [5; 6]%nat)] =
       ([MsgWssNotFound], Ok post) /\
     field_of post mid_ring "wss" = Some [[0; 0]]) /\
  (exists v,
     extract_wss_mid_timeseries (L := axis_libm) [no_wss_snapshot] wall_points
       [(mid_ring, [5; 6]%nat)] = ([], Ok (Some [v])) /\ v == 0) /\
  (exists log p v0 v1,
     post_process (L := axis_libm) [no_wss_snapshot; full_snapshot] 1 = (log, Ok p) /\
     ~ In MsgWssNotFound log /\
     wss_mid_all p = Some [v0; v1] /\ v0 == 0 /\ v1 == 5).
Proof.
  split; [reflexivity |]. split; [reflexivity |]. split; [| split].
  - eexists. split; [vm_compute; reflexivity | reflexivity].
  - eexists. split; [vm_compute; reflexivity | reflexivity].
  - do 4 eexists. split; [vm_compute; reflexivity |].
    split; [| split; [reflexivity | split; reflexivity]].
    intros H. simpl in H.
    repeat (destruct H as [H | H]; [discriminate |]). exact H.
Qed.

End ResultsExamples.

(* --------------------------------------------------------------------- *)
(** ** Further properties of the regression comparator *)
(* --------------------------------------------------------------------- *)

Section MoreCompareFacts.
Import CompareResults Spec Notions.

Lemma field_loop_filter items : forall cd,
  field_loop items cd = field_loop (filter (fun m => is_list (snd m)) items) cd.
Proof.
  induction items as [| [f v] items IH]; intros cd; [reflexivity |].
  destruct v as [| | | | | tse |]; cbn [filter snd is_list field_loop]; try apply IH.
  destruct (if (time_steps cd =? 0)%nat then Ok (length tse)
            else if negb (time_steps cd =? length tse)%nat
                 then Raise (ComparisonError
                               (InconsistentTimeSteps (time_steps cd) (length tse)))
                 else Ok (time_steps cd)) as [ts |]; cbn [bind]; [| reflexivity].
  destruct (time_step_loop f 0 tse (iterations cd) []) as [r |]; cbn [bind];
    [apply IH | reflexivity].
Qed.

Lemma select_error_member e rest :
  select_errors (("error", e) :: rest) = Ok e.
Proof. reflexivity. Qed.

(** What a successful pass over the time steps of one field returns. *)
Lemma time_step_loop_finals f l : forall t iters finals iters' finals',
  time_step_loop f t l iters finals = Ok (iters', finals') ->
  finals' = finals ++ map final_error l /\ Forall (fun j => valid_entry j = true) l.
Proof.
  induction l as [| j l IH]; intros t iters finals iters' finals' H; simpl in H.
  - inversion H. rewrite app_nil_r. split; [reflexivity | constructor].
  - destruct j as [| | | | | [| e0 es] |]; try discriminate.
    apply IH in H. destruct H as [H1 H2]. split.
    + rewrite H1, <- app_assoc. reflexivity.
    + constructor; [reflexivity | exact H2].
Qed.

(** The first entry that is not a non-empty list stops the pass. *)
Lemma time_step_loop_invalid f good bad rest : forall t iters finals,
  Forall (fun j => valid_entry j = true) good ->
  valid_entry bad = false ->
  time_step_loop f t (good ++ bad :: rest) iters finals =
  Raise (ComparisonError (InvalidErrorData f (t + length good))).
Proof.
  induction good as [| j good IH]; intros t iters finals Hgood Hbad; simpl.
  - rewrite Nat.add_0_r.
    destruct bad as [| | | | | [| e0 es] |]; try reflexivity. discriminate.
  - inversion Hgood as [| ? ? Hj Hrest]; subst.
    destruct j as [| | | | | [| e0 es] |]; try discriminate.
    rewrite IH by assumption. f_equal. f_equal. f_equal. lia.
Qed.

Lemma dict_set_Forall {V} (P : string * V -> Prop) (d : list (string * V)) k v :
  Forall P d -> P (k, v) -> (forall k' v', String.eqb k k' = true -> P (k, v') -> P (k', v')) ->
  Forall P (dict_set String.eqb d k v).
Proof.
  intros Hd Hk Hcong. induction d as [| [k0 v0] d IH]; simpl.
  - constructor; [exact Hk | constructor].
  - inversion Hd as [| ? ? H0 Hrest]; subst.
    destruct (String.eqb k k0) eqn:E.
    + constructor; [| exact Hrest]. now apply Hcong.
    + constructor; [exact H0 | now apply IH].
Qed.

(** The shape of the record that the loop over the fields maintains. *)
Lemma field_loop_shape items : forall cd cd',
  length (iterations cd) = time_steps cd ->
  Forall (fun n => (1 <= n)%Z) (iterations cd) ->
  Forall (fun e : string * list json =>
            length (snd e) = time_steps cd \/ snd e = []) (errors cd) ->
  field_loop items cd = Ok cd' ->
  length (iterations cd') = time_steps cd' /\
  Forall (fun n => (1 <= n)%Z) (iterations cd') /\
  Forall (fun e : string * list json =>
            length (snd e) = time_steps cd' \/ snd e = []) (errors cd').
Proof.
  induction items as [| [f v] items IH]; intros cd cd' Hlen Hpos Herr H;
    cbn [field_loop] in H.
  - inversion H; subst. auto.
  - destruct v as [| | | | | tse |]; try (apply (IH cd cd'); assumption).
    destruct (Nat.eqb_spec (time_steps cd) 0) as [E0 | E0]; cbn [bind] in H.
    + destruct (time_step_loop f 0 tse (iterations cd) []) as [[iters finals] |] eqn:T;
        cbn [bind fst snd] in H; [| discriminate].
      assert (iterations cd = []) as Hnil
        by (destruct (iterations cd); [reflexivity | simpl in Hlen; lia]).
      rewrite Hnil in T.
      pose proof (time_step_loop_finals _ _ _ _ _ T) as [Hf Hvalid].
      apply time_step_loop_fresh in T; [| reflexivity].
      simpl in T, Hf. subst iters finals.
      apply IH in H; [exact H | | |]; cbn [iterations time_steps errors].
      * now rewrite length_map.
      * apply Forall_map. eapply Forall_impl; [| exact Hvalid].
        intros j Hj. destruct j as [| | | | | [| e0 es] |]; try discriminate.
        simpl. lia.
      * apply dict_set_Forall.
        -- eapply Forall_impl; [| exact Herr]. intros e [He | He]; right;
             [| exact He].
           rewrite E0 in He. now apply length_zero_iff_nil.
        -- left. simpl. now rewrite length_map.
        -- intros k' v' _ Hk. exact Hk.
    + destruct (Nat.eqb_spec (time_steps cd) (length tse)) as [E | E];
        cbn [negb bind] in H; [| discriminate].
      destruct (time_step_loop f 0 tse (iterations cd) []) as [[iters finals] |] eqn:T;
        cbn [bind fst snd] in H; [| discriminate].
      pose proof (time_step_loop_finals _ _ _ _ _ T) as [Hf _].
      apply time_step_loop_recorded in T; [| simpl; lia].
      simpl in Hf. subst iters finals.
      apply IH in H; [exact H | | |]; cbn [iterations time_steps errors];
        try assumption.
      apply dict_set_Forall.
      * exact Herr.
      * left. simpl. rewrite length_map. now symmetry.
      * intros k' v' _ Hk. exact Hk.
Qed.

Lemma list_field_skip f g v items :
  String.eqb f g = false -> list_field ((g, v) :: items) f = list_field items f.
Proof. intros E. unfold list_field. simpl. now rewrite E. Qed.

Lemma list_field_fresh g items :
  ~ In g (map fst items) -> list_field items g = None.
Proof.
  intros H. unfold list_field.
  now rewrite (proj2 (@dict_get_None _ _ _ string_eqb_eq items g) H).
Qed.

(** The final errors that the loop over the fields records. *)
Lemma field_loop_errors items : forall cd cd',
  NoDup (map fst items) ->
  field_loop items cd = Ok cd' ->
  forall f,
    dict_get String.eqb (errors cd') f =
    match list_field items f with
    | Some tse => Some (map final_error tse)
    | None => dict_get String.eqb (errors cd) f
    end.
Proof.
  induction items as [| [g v] items IH]; intros cd cd' Hnd H f;
    cbn [field_loop] in H.
  - inversion H; subst. reflexivity.
  - inversion Hnd as [| ? ? Hfresh Hnd']; subst.
    destruct (String.eqb f g) eqn:E.
    + apply String.eqb_eq in E. subst g.
      destruct v as [| | | | | tse |];
        try (rewrite (IH cd cd' Hnd' H f), (list_field_fresh _ _ Hfresh);
             unfold list_field; simpl; rewrite String.eqb_refl; reflexivity).
      destruct (if (time_steps cd =? 0)%nat then Ok (length tse)
                else if negb (time_steps cd =? length tse)%nat
                     then Raise (ComparisonError
                                   (InconsistentTimeSteps (time_steps cd) (length tse)))
                     else Ok (time_steps cd)) as [ts |]; cbn [bind] in H;
        [| discriminate].
      destruct (time_step_loop f 0 tse (iterations cd) []) as [[iters finals] |] eqn:T;
        cbn [bind fst snd] in H; [| discriminate].
      apply time_step_loop_finals in T. destruct T as [Hf _]. simpl in Hf. subst finals.
      rewrite (IH _ cd' Hnd' H f), (list_field_fresh _ _ Hfresh).
      cbn [errors]. rewrite (@dict_get_set_same _ _ _ string_eqb_eq).
      unfold list_field. simpl. rewrite String.eqb_refl. reflexivity.
    + rewrite (@list_field_skip f g v items E).
      destruct v as [| | | | | tse |]; try apply (IH cd cd' Hnd' H f).
      destruct (if (time_steps cd =? 0)%nat then Ok (length tse)
                else if negb (time_steps cd =? length tse)%nat
                     then Raise (ComparisonError
                                   (InconsistentTimeSteps (time_steps cd) (length tse)))
                     else Ok (time_steps cd)) as [ts |]; cbn [bind] in H;
        [| discriminate].
      destruct (time_step_loop g 0 tse (iterations cd) []) as [[iters finals] |] eqn:T;
        cbn [bind fst snd] in H; [| discriminate].
      rewrite (IH _ cd' Hnd' H f). cbn [errors].
      rewrite (@dict_get_set_other _ _ _ string_eqb_eq); [reflexivity |].
      intros ->. rewrite String.eqb_refl in E. discriminate.
Qed.

(** The iteration table of [print_summary] reads past the end of the
    reference counts when the test has more time steps. *)
Lemma summary_iterations_short refs tests : forall ts1 t ts2,
  Forall (fun t' => (t' < length refs)%nat /\ (t' < length tests)%nat) ts1 ->
  (length refs <= t)%nat ->
  summary_iterations refs tests (ts1 ++ t :: ts2) = Raise IndexError.
Proof.
  induction ts1 as [| t1 ts1 IH]; intros t ts2 Hin Hout; simpl.
  - unfold getitem. rewrite (proj2 (nth_error_None refs t) Hout). reflexivity.
  - inversion Hin as [| ? ? [Hr Ht] Hrest]; subst.
    rewrite (getitem_nth refs 0%Z Hr), (getitem_nth tests 0%Z Ht). simpl.
    now apply IH.
Qed.

(** What a difference that is not greater than the tolerance says
    about the two values: they are finite and within the finite
    tolerance, unless the difference is NaN or the tolerance is one
    that nothing exceeds. *)
Lemma not_greater_cases (r s d tol : pyfloat) :
  rel_diff r s = Ok d -> float_gt d tol = false ->
  nan_difference r s \/ never_exceeded tol \/
  exists qr qs qt,
    r = Finite qr /\ s = Finite qs /\ tol = Finite qt /\ norm_diff qr qs <= qt.
Proof.
  assert (forall t, float_gt (Special PosInf) t = false -> never_exceeded t) as Hinf.
  { intros [qt | [| |]]; cbn [float_gt]; intros H; try discriminate;
      [left | right]; reflexivity. }
  intros Hd Hg.
  destruct r as [qr | [| |]]; destruct s as [qs | [| |]];
    first [ left; left; reflexivity
          | left; right; left; reflexivity
          | left; right; right; left; reflexivity
          | left; right; right; right; split; reflexivity
          | idtac ].
  - rewrite rel_diff_finite in Hd. inversion Hd; subst d.
    destruct tol as [qt | [| |]]; cbn [float_gt] in Hg.
    + right. right. exists qr, qs, qt.
      split; [reflexivity |]. split; [reflexivity |]. split; [reflexivity |].
      now apply Qlt_bool_false_iff.
    + right. left. left. reflexivity.
    + discriminate.
    + right. left. right. reflexivity.
  - right. left. apply Hinf.
    unfold rel_diff in Hd. cbn [float_gt float_sub float_abs float_truediv] in Hd.
    destruct (Qlt_bool 0 qr) eqn:E.
    + destruct (Qeq_bool qr 0); [discriminate |]. inversion Hd; subst d. exact Hg.
    + inversion Hd; subst d. exact Hg.
  - right. left. apply Hinf.
    unfold rel_diff in Hd. cbn [float_gt float_sub float_abs float_truediv] in Hd.
    destruct (Qlt_bool 0 qr) eqn:E.
    + destruct (Qeq_bool qr 0); [discriminate |]. inversion Hd; subst d. exact Hg.
    + inversion Hd; subst d. exact Hg.
  - right. left. apply Hinf. inversion Hd; subst d. exact Hg.
  - right. left. apply Hinf. inversion Hd; subst d. exact Hg.
Qed.

(** The loop over the fields reads the reference data only at the
    fields it visits. *)
Lemma norms_field_loop_ext rd rd' td tol fields : forall acc,
  time_steps rd = time_steps rd' ->
  (forall f, In f fields ->
     dict_get String.eqb (errors rd) f = dict_get String.eqb (errors rd') f) ->
  norms_field_loop rd td tol fields acc = norms_field_loop rd' td tol fields acc.
Proof.
  induction fields as [| f fields IH]; intros acc Hts Hget; [reflexivity |].
  cbn [norms_field_loop]. rewrite <- (Hget f) by now left. rewrite <- Hts.
  destruct (dict_get String.eqb (errors rd) f) as [refs |]; [| reflexivity].
  destruct (dict_get String.eqb (errors td) f) as [tests |]; [| reflexivity].
  destruct (norms_step_loop f refs tests tol (seq 0 (time_steps rd)) acc);
    cbn [bind]; [| reflexivity].
  apply IH; [exact Hts |]. intros g Hg. apply Hget. now right.
Qed.

Lemma keys_filter {V} (p : string -> bool) (d : list (string * V)) :
  map fst (filter (fun e : string * V => p (fst e)) d) = filter p (map fst d).
Proof.
  induction d as [| [k v] d IH]; simpl; [reflexivity |].
  destruct (p k); simpl; now rewrite IH.
Qed.

Lemma dict_get_filter {V} (p : string -> bool) (d : list (string * V)) k :
  p k = true ->
  dict_get String.eqb (filter (fun e : string * V => p (fst e)) d) k =
  dict_get String.eqb d k.
Proof.
  intros Hk. induction d as [| [k0 v0] d IH]; simpl; [reflexivity |].
  destruct (String.eqb k k0) eqn:E.
  - apply String.eqb_eq in E. subst k0. rewrite Hk. simpl.
    now rewrite String.eqb_refl.
  - destruct (p k0); simpl; [now rewrite E | exact IH].
Qed.

Lemma filter_idem {A} (p : A -> bool) (l : list A) :
  filter p (filter p l) = filter p l.
Proof.
  induction l as [| a l IH]; simpl; [reflexivity |].
  destruct (p a) eqn:E; simpl; [rewrite E; now f_equal | exact IH].
Qed.

End MoreCompareFacts.

Section MoreCompareProperties.
Import CompareResults Spec Notions Examples.

(** X1.  Members of the [error] mapping whose value is not a list are
    skipped: removing them from the document does not change what
    [extract_convergence_data] returns or raises. *)
Theorem non_list_members_are_skipped (items rest : list (string * json)) :
  extract_convergence_data (("error", JObj items) :: rest) =
  extract_convergence_data
    (("error", JObj (filter (fun m => is_list (snd m)) items)) :: rest).
Proof.
  unfold extract_convergence_data. rewrite !select_error_member.
  cbn [bind items_of]. now rewrite field_loop_filter.
Qed.

(** X2.  On success the record holds, for every member of the [errors]
    mapping that is a list, the last element of each of its time-step
    entries, and it holds no other field. *)
Theorem final_errors_are_last_entries
    (data items : list (string * json)) (cd : convergence_data) :
  select_errors data = Ok (JObj items) ->
  NoDup (map fst items) ->
  extract_convergence_data data = Ok cd ->
  forall f,
    dict_get String.eqb (errors cd) f = option_map (map final_error) (list_field items f).
Proof.
  intros Hsel Hnd H f. unfold extract_convergence_data in H.
  apply except_KeyError_Ok in H. rewrite Hsel in H. cbn [bind items_of] in H.
  rewrite (@field_loop_errors items _ cd Hnd H f). cbn [errors dict_get].
  now destruct (list_field items f).
Qed.

Lemma final_errors_are_last_entries_witness :
  exists cd,
    extract_convergence_data ref_log = Ok cd /\
    dict_get String.eqb (errors cd) "solid" =
      Some [JNum (1 # 100); JNum (1 # 10); JNum (1 # 500)] /\
    dict_get String.eqb (errors cd) "other" = None.
Proof.
  destruct (extract_convergence_data ref_log) as [cd |] eqn:E;
    [| vm_compute in E; discriminate].
  exists cd. split; [reflexivity |].
  pose proof (@final_errors_are_last_entries ref_log _ cd eq_refl) as H.
  split; rewrite H; try reflexivity; try exact E;
    repeat constructor; simpl; intuition discriminate.
Defined.

(** X3.  Every successful extraction returns a record in which the
    number of iteration counts is the number of time steps, every count
    is at least 1, and every field holds one final error per time step
    (or none at all, for an empty list met before any time step). *)
Theorem extraction_shape (data : list (string * json)) (cd : convergence_data) :
  extract_convergence_data data = Ok cd ->
  length (iterations cd) = time_steps cd /\
  Forall (fun n => (1 <= n)%Z) (iterations cd) /\
  Forall (fun e : string * list json =>
            length (snd e) = time_steps cd \/ snd e = []) (errors cd).
Proof.
  intros H. unfold extract_convergence_data in H.
  apply except_KeyError_Ok in H.
  destruct (select_errors data) as [errs |]; cbn [bind] in H; [| discriminate].
  destruct (items_of errs) as [items |]; cbn [bind] in H; [| discriminate].
  apply field_loop_shape in H; [exact H | reflexivity | constructor | constructor].
Qed.

Lemma extraction_shape_witness :
  exists cd,
    extract_convergence_data test_log = Ok cd /\
    length (iterations cd) = 3%nat /\ time_steps cd = 3%nat /\
    Forall (fun n => (1 <= n)%Z) (iterations cd).
Proof.
  destruct (extract_convergence_data test_log) as [cd |] eqn:E;
    [| vm_compute in E; discriminate].
  exists cd. split; [reflexivity |].
  destruct (@extraction_shape test_log cd E) as [H1 [H2 _]].
  assert (time_steps cd = 3%nat) as H3 by (vm_compute in E; inversion E; reflexivity).
  split; [congruence |]. split; [exact H3 | exact H2].
Defined.

(** X4.  When the first field of the [error] mapping has a time-step
    entry that is not a non-empty list, the extraction raises the
    comparison error that names this field and the index of the first
    such entry. *)
Theorem invalid_entry_is_reported
    (f : string) (good : list json) (bad : json) (rest : list json)
    (others more : list (string * json)) :
  Forall (fun j => valid_entry j = true) good ->
  valid_entry bad = false ->
  extract_convergence_data
    (("error", JObj ((f, JList (good ++ bad :: rest)) :: others)) :: more) =
  Raise (ComparisonError (InvalidErrorData f (length good))).
Proof.
  intros Hgood Hbad. unfold extract_convergence_data.
  rewrite select_error_member. cbn [bind items_of field_loop time_steps iterations].
  cbn [Nat.eqb bind].
  rewrite (@time_step_loop_invalid f good bad rest 0%nat [] [] Hgood Hbad). reflexivity.
Qed.

Lemma invalid_entry_is_reported_witness :
  extract_convergence_data
    [("error", JObj [("solid", JList [nums [1; 1 # 2]; JList []; nums [1]])])] =
  Raise (ComparisonError (InvalidErrorData "solid" 1)).
Proof.
  apply (@invalid_entry_is_reported "solid" [nums [1; 1 # 2]] (JList []) [nums [1]] [] []).
  - repeat constructor.
  - reflexivity.
Defined.

(** X5.  A document with neither an [error] nor a [convergence] member
    raises the comparison error about the missing field; a [convergence]
    object without an [error] member raises the comparison error made
    from the [KeyError]; a [convergence] member that is not an object
    raises a [TypeError], which is no comparison error; and when the
    document has an [error] member, nothing else of it is read. *)
Theorem document_shape_errors (data : list (string * json)) :
  (dict_mem String.eqb data "error" = false ->
   dict_mem String.eqb data "convergence" = false ->
   extract_convergence_data data = Raise (ComparisonError NoErrorField)) /\
  (forall c,
     dict_mem String.eqb data "error" = false ->
     dict_get String.eqb data "convergence" = Some (JObj c) ->
     dict_mem String.eqb c "error" = false ->
     extract_convergence_data data = Raise (ComparisonError (MissingField "error"))) /\
  (forall v,
     dict_mem String.eqb data "error" = false ->
     dict_get String.eqb data "convergence" = Some v ->
     (forall c, v <> JObj c) ->
     extract_convergence_data data = Raise TypeError) /\
  (forall e,
     dict_get String.eqb data "error" = Some e ->
     extract_convergence_data data = extract_convergence_data [("error", e)]).
Proof.
  unfold extract_convergence_data, select_errors, subscript, get_member, dict_mem.
  split; [| split; [| split]].
  - intros He Hc.
    destruct (dict_get String.eqb data "error"); [discriminate |].
    destruct (dict_get String.eqb data "convergence"); [discriminate |]. reflexivity.
  - intros c He Hc Hce.
    destruct (dict_get String.eqb data "error"); [discriminate |].
    rewrite Hc. cbn [bind].
    destruct (dict_get String.eqb c "error"); [discriminate |]. reflexivity.
  - intros v He Hc Hv.
    destruct (dict_get String.eqb data "error"); [discriminate |].
    rewrite Hc. cbn [bind].
    destruct v as [| | | | | |c]; try reflexivity. exfalso. now apply (Hv c).
  - intros e He. rewrite He. reflexivity.
Qed.

Lemma document_shape_errors_witness :
  extract_convergence_data [("convergence", JObj [("iterations", JList [])])] =
    Raise (ComparisonError (MissingField "error")) /\
  extract_convergence_data [("results", JObj [])] =
    Raise (ComparisonError NoErrorField) /\
  extract_convergence_data [("convergence", JList [])] = Raise TypeError.
Proof.
  split; [| split].
  - destruct (@document_shape_errors [("convergence", JObj [("iterations", JList [])])])
      as [_ [H _]].
    apply (H [("iterations", JList [])]); reflexivity.
  - destruct (@document_shape_errors [("results", JObj [])]) as [H _].
    apply H; reflexivity.
  - destruct (@document_shape_errors [("convergence", JList [])]) as [_ [_ [H _]]].
    apply (H (JList [])); [reflexivity | reflexivity | discriminate].
Defined.

(** X6.  [main] prints the summary before it compares the time-step
    counts.  When the test log has more time steps than the reference,
    the summary reads past the end of the reference counts and the run
    ends with an [IndexError], not with the time-step mismatch report;
    that report is raised when the test log has fewer time steps and the
    summary could be printed.  The exit code is 1 in both cases. *)
Theorem summary_precedes_time_step_check
    (ref_json test_json : list (string * json)) (rd td : convergence_data)
    (iter_tolerance : Z) (error_tolerance : pyfloat) (vtu : option (result unit)) :
  extract_convergence_data ref_json = Ok rd ->
  extract_convergence_data test_json = Ok td ->
  ((time_steps rd < time_steps td)%nat ->
   main_body ref_json test_json iter_tolerance error_tolerance vtu = Raise IndexError) /\
  ((time_steps td < time_steps rd)%nat ->
   print_summary rd td = Ok tt ->
   main_body ref_json test_json iter_tolerance error_tolerance vtu =
   Raise (ComparisonError (TimeStepMismatch (time_steps rd) (time_steps td)))) /\
  (time_steps rd <> time_steps td ->
   main ref_json test_json iter_tolerance error_tolerance vtu = 1%Z).
Proof.
  intros Hr Ht.
  pose proof (extract_length _ Hr) as Lr.
  pose proof (extract_length _ Ht) as Lt.
  assert ((time_steps rd < time_steps td)%nat ->
          main_body ref_json test_json iter_tolerance error_tolerance vtu
          = Raise IndexError) as Hmore.
  { intros Hlt. unfold main_body. rewrite Hr, Ht. cbn [bind].
    unfold print_summary.
    replace (seq 0 (time_steps td))
      with (seq 0 (time_steps rd) ++
            time_steps rd :: seq (S (time_steps rd)) (time_steps td - S (time_steps rd))).
    - rewrite summary_iterations_short; [reflexivity | | lia].
      apply Forall_forall. intros t Hin. apply in_seq in Hin. lia.
    - change (time_steps rd :: seq (S (time_steps rd)) (time_steps td - S (time_steps rd)))
        with (seq (0 + time_steps rd) (S (time_steps td - S (time_steps rd)))).
      rewrite <- seq_app. f_equal. lia. }
  assert ((time_steps td < time_steps rd)%nat ->
          print_summary rd td = Ok tt ->
          main_body ref_json test_json iter_tolerance error_tolerance vtu =
          Raise (ComparisonError (TimeStepMismatch (time_steps rd) (time_steps td))))
    as Hless.
  { intros Hlt Hsum. unfold main_body. rewrite Hr, Ht. cbn [bind].
    rewrite Hsum. cbn [bind]. unfold compare_time_steps.
    destruct (Nat.eqb_spec (time_steps rd) (time_steps td)) as [E | E]; [lia |].
    reflexivity. }
  split; [exact Hmore |]. split; [exact Hless |].
  intros Hne.
  destruct (Nat.lt_trichotomy (time_steps rd) (time_steps td)) as [H | [H | H]].
  - eapply main_raise. now apply Hmore.
  - contradiction.
  - unfold main, main_body. rewrite Hr, Ht. cbn [bind].
    destruct (print_summary rd td) as [[] | e]; cbn [bind]; [| now destruct e].
    unfold compare_time_steps.
    destruct (Nat.eqb_spec (time_steps rd) (time_steps td)) as [E | E]; [lia |].
    reflexivity.
Qed.

Lemma summary_precedes_time_step_check_witness :
  main_body MoreExamples.short_log ref_log 2 (1 # 10) None = Raise IndexError /\
  main_body ref_log MoreExamples.short_log 2 (1 # 10) None =
    Raise (ComparisonError (TimeStepMismatch 3 2)).
Proof.
  destruct (extract_convergence_data ref_log) as [rd |] eqn:Er;
    [| vm_compute in Er; discriminate].
  destruct (extract_convergence_data MoreExamples.short_log) as [sd |] eqn:Es;
    [| vm_compute in Es; discriminate].
  assert (time_steps rd = 3%nat) as Tr by (vm_compute in Er; inversion Er; reflexivity).
  assert (time_steps sd = 2%nat) as Ts by (vm_compute in Es; inversion Es; reflexivity).
  split.
  - destruct (@summary_precedes_time_step_check MoreExamples.short_log ref_log sd rd
                2%Z (1 # 10) None Es Er) as [H _].
    apply H. rewrite Tr, Ts. lia.
  - destruct (@summary_precedes_time_step_check ref_log MoreExamples.short_log rd sd
                2%Z (1 # 10) None Er Es) as [_ [H _]].
    rewrite <- Tr, <- Ts. apply H.
    + rewrite Tr, Ts. lia.
    + vm_compute in Er, Es. inversion Er. inversion Es. reflexivity.
Defined.

(** X7.  What exit code 0 guarantees: both documents were extracted,
    they have the same number of time steps, the iteration counts of
    every time step differ by at most the iteration tolerance, a
    requested VTU comparison has passed, and for every field that both
    records have the final errors of every time step are numbers that
    were not reported.  For finite values and a finite tolerance that
    means their difference (relative for a positive reference, absolute
    otherwise) is at most the tolerance.  It does not mean so when the
    difference is NaN (a reference norm that is infinite or NaN, a test
    norm that is NaN) or the tolerance is [inf] or [nan]: then the step
    passes whatever the values are. *)
Theorem exit_code_zero_is_sound
    (ref_json test_json : list (string * json))
    (iter_tolerance : Z) (error_tolerance : pyfloat) (vtu : option (result unit)) :
  main ref_json test_json iter_tolerance error_tolerance vtu = 0%Z ->
  exists rd td,
    extract_convergence_data ref_json = Ok rd /\
    extract_convergence_data test_json = Ok td /\
    time_steps rd = time_steps td /\
    (forall t, (t < time_steps rd)%nat ->
       (Z.abs (nth t (iterations td) 0 - nth t (iterations rd) 0) <= iter_tolerance)%Z) /\
    (forall f refs tests t,
       dict_get String.eqb (errors rd) f = Some refs ->
       dict_get String.eqb (errors td) f = Some tests ->
       (t < time_steps rd)%nat ->
       norm_within error_tolerance refs tests t) /\
    (forall check, vtu = Some check -> check = Ok tt).
Proof.
  intros H. unfold main in H.
  destruct (main_body ref_json test_json iter_tolerance error_tolerance vtu)
    as [u | e] eqn:B; [clear H | destruct e; discriminate].
  unfold main_body in B.
  destruct (extract_convergence_data ref_json) as [rd |] eqn:Er; cbn [bind] in B;
    [| discriminate].
  destruct (extract_convergence_data test_json) as [td |] eqn:Et; cbn [bind] in B;
    [| discriminate].
  destruct (print_summary rd td); cbn [bind] in B; [| discriminate].
  unfold compare_time_steps in B.
  destruct (Nat.eqb_spec (time_steps rd) (time_steps td)) as [Ets | Ets];
    cbn [negb bind] in B; [| discriminate].
  pose proof (extract_length _ Er) as Lr.
  pose proof (extract_length _ Et) as Lt. rewrite <- Ets in Lt.
  rewrite (compare_iterations_spec rd td iter_tolerance Lr Lt) in B.
  destruct (violations rd td iter_tolerance) as [| v vs] eqn:V; cbn [bind] in B;
    [| discriminate].
  destruct (compare_error_norms rd td error_tolerance) as [b |] eqn:N; cbn [bind] in B;
    [| discriminate].
  assert (b = true) as Eb.
  { unfold compare_error_norms in N.
    destruct (norms_field_loop rd td error_tolerance
                (filter (dict_mem String.eqb (errors td)) (dict_keys (errors rd))) [])
      as [fs |]; cbn [bind] in N; [| discriminate].
    destruct fs; [now inversion N | discriminate]. }
  subst b.
  exists rd, td. split; [reflexivity |]. split; [reflexivity |].
  split; [exact Ets |]. split; [| split].
  - intros t Ht.
    destruct (Z.le_gt_cases
                (Z.abs (nth t (iterations td) 0 - nth t (iterations rd) 0))%Z
                iter_tolerance) as [Hle | Hgt]; [exact Hle |].
    exfalso.
    assert (In t (map if_step (violations rd td iter_tolerance))) as Hin
      by (apply in_violations; split; assumption).
    rewrite V in Hin. exact Hin.
  - intros f refs tests t Gr Gt Ht.
    destruct (proj1 (compare_error_norms_pass_iff rd td error_tolerance) N
                f refs tests t Gr Gt Ht)
      as [r [s [d [[jr [js [Hr [Hs [Ar [As Hd]]]]]] Hg]]]].
    exists jr, js, r, s. split; [exact Hr |]. split; [exact Hs |].
    split; [exact Ar |]. split; [exact As |].
    exact (@not_greater_cases r s d error_tolerance Hd Hg).
  - intros check Hv. subst vtu. destruct check as [[] | e]; [reflexivity | discriminate].
Qed.

(** Two runs that end with exit code 0: one on finite logs, and one in
    which the last reference norm of a step is [1e400], which
    [json.load] reads as infinity, against the test norm 7. *)
Lemma exit_code_zero_is_sound_witness :
  main ref_log test_log_fluid_only 2 (1 # 10) None = 0%Z /\
  (exists rd td,
     extract_convergence_data ref_log = Ok rd /\
     extract_convergence_data test_log_fluid_only = Ok td /\
     (forall t, (t < 3)%nat ->
        (Z.abs (nth t (iterations td) 0 - nth t (iterations rd) 0) <= 2)%Z)) /\
  main MoreExamples.overflow_log MoreExamples.seven_log 2 (1 # 10) None = 0%Z /\
  norm_within (1 # 10) [JNonFinite PosInf] [JNum 7] 0.
Proof.
  assert (main ref_log test_log_fluid_only 2 (1 # 10) None = 0%Z) as H0
    by (vm_compute; reflexivity).
  assert (main MoreExamples.overflow_log MoreExamples.seven_log 2 (1 # 10) None = 0%Z)
    as H1 by (vm_compute; reflexivity).
  split; [exact H0 |]. split; [| split; [exact H1 |]].
  - destruct (@exit_code_zero_is_sound ref_log test_log_fluid_only 2%Z (1 # 10) None H0)
      as [rd [td [Er [Et [_ [Hit _]]]]]].
    exists rd, td. split; [exact Er |]. split; [exact Et |].
    intros t Ht. apply Hit.
    vm_compute in Er. inversion Er. simpl. exact Ht.
  - destruct (@exit_code_zero_is_sound MoreExamples.overflow_log MoreExamples.seven_log
                2%Z (1 # 10) None H1)
      as [rd [td [Er [Et [_ [_ [Hn _]]]]]]].
    vm_compute in Er, Et. inversion Er; subst rd. inversion Et; subst td.
    apply (Hn "solid"); [reflexivity | reflexivity | simpl; lia].
Defined.

(** X8.  The error-norm check compares only the fields that both
    records have: it gives the same result when the fields that the test
    record lacks are removed from the reference record, and it passes
    when the two records share no field. *)
Theorem unshared_fields_are_not_compared
    (rd td : convergence_data) (rel_tolerance : pyfloat) :
  compare_error_norms rd td rel_tolerance =
  compare_error_norms (restrict_to (errors td) rd) td rel_tolerance /\
  ((forall f, In f (dict_keys (errors rd)) ->
      dict_mem String.eqb (errors td) f = false) ->
   compare_error_norms rd td rel_tolerance = Ok true).
Proof.
  split.
  - unfold compare_error_norms, restrict_to, dict_keys. cbn [errors].
    rewrite (keys_filter (dict_mem String.eqb (errors td))), filter_idem.
    rewrite (@norms_field_loop_ext rd
               (ConvergenceData (time_steps rd) (iterations rd)
                  (filter (fun e : string * list json =>
                             dict_mem String.eqb (errors td) (fst e)) (errors rd)))
               td rel_tolerance _ [] eq_refl); [reflexivity |].
    intros f Hf. apply filter_In in Hf. destruct Hf as [_ Hf]. cbn [errors].
    symmetry. now apply (dict_get_filter (dict_mem String.eqb (errors td))).
  - intros Hnone. unfold compare_error_norms.
    rewrite filter_none by exact Hnone. reflexivity.
Qed.

Lemma unshared_fields_are_not_compared_witness :
  compare_error_norms (single_norm "solid" 1) (single_norm "fluid" 5) (1 # 10) = Ok true.
Proof.
  destruct (@unshared_fields_are_not_compared
              (single_norm "solid" 1) (single_norm "fluid" 5) (1 # 10)) as [_ H].
  apply H. intros f [Hf | []]. subst f. reflexivity.
Defined.

End MoreCompareProperties.

(* --------------------------------------------------------------------- *)
(** ** The comparison of mesh files *)
(* --------------------------------------------------------------------- *)

Section VtuFacts.
Import CompareVtu Notions.










Lemma excess_self (rtol x : Q) : 0 <= rtol -> excess rtol x x <= 0.
Proof.
  intros H. unfold excess.
  assert (Qabs (x - x) == 0) as E.
  { assert (x - x == 0) as E0 by ring. rewrite E0. reflexivity. }
  rewrite E.
  assert (0 <= rtol * Qabs x) as Hm
    by (apply Qmult_le_0_compat; [exact H | apply Qabs_nonneg]).
  lra.
Qed.


End VtuFacts.

Section VtuProperties.
Import CompareVtu Notions MoreExamples.





End VtuProperties.

(* --------------------------------------------------------------------- *)
(** ** Mesh files with infinities and NaN *)
(* --------------------------------------------------------------------- *)

Section VtuFloatFacts.
Import CompareVtuFloat.

Lemma map2_same_length (f : pyfloat -> pyfloat -> pyfloat) (a : float_array) :
  length (map2 f a a) = length a.
Proof. induction a as [| x a IH]; simpl; congruence. Qed.

(** A value compared with itself is within the tolerance exactly when
    it is finite: the difference of an infinity or a NaN with itself is
    NaN, and NaN is not below zero. *)
Lemma excess_self_close (rtol : Q) (x : pyfloat) :
  0 <= rtol ->
  (float_le (excess rtol x x) (Finite 0) = true <-> is_finite x).
Proof.
  intros Hr. destruct x as [q | [| |]].
  - split; [intros _; now exists q |]. intros _.
    change (excess rtol (Finite q) (Finite q))
      with (Finite (CompareVtu.excess rtol q q)).
    cbn [float_le]. apply Qle_bool_iff. now apply excess_self.
  - split; [discriminate | intros [q Hq]; discriminate].
  - split; [discriminate | intros [q Hq]; discriminate].
  - split; [discriminate | intros [q Hq]; discriminate].
Qed.

Lemma self_close (rtol : Q) (a : float_array) :
  0 <= rtol ->
  (forallb (fun c : bool => c)
     (map (fun d => float_le d (Finite 0)) (map2 (excess rtol) a a)) = true <->
   Forall is_finite a).
Proof.
  intros Hr. induction a as [| x a IH]; simpl.
  - split; [constructor | reflexivity].
  - rewrite andb_true_iff, IH, (excess_self_close x Hr). split.
    + intros [H1 H2]. now constructor.
    + intros H. inversion H. auto.
Qed.

Lemma argmax_from_range (l : float_array) : forall best_i best i,
  (best_i < i)%nat -> (argmax_from best_i best i l < i + length l)%nat.
Proof.
  induction l as [| x l IH]; intros best_i best i H; cbn [argmax_from length].
  - lia.
  - destruct (is_nan best); [lia |].
    destruct (negb (float_le x best)).
    + specialize (IH i x (S i)). lia.
    + specialize (IH best_i best (S i)). lia.
Qed.

(** The loop on two files that agree on the compared fields: it never
    raises, and it adds a report line exactly when a compared array has
    an entry that is not finite. *)
Lemma fields_loop_same (ref_data test_data : point_data) (rtols : list (string * Q)) :
  (forall field rtol, In (field, rtol) rtols ->
     dict_get String.eqb test_data field = dict_get String.eqb ref_data field) ->
  (forall field rtol, In (field, rtol) rtols -> 0 <= rtol) ->
  forall msg, exists extra,
    fields_loop ref_data test_data rtols msg = Ok (msg ++ extra) /\
    (extra = [] <->
     forall field rtol arr, In (field, rtol) rtols ->
       dict_get String.eqb ref_data field = Some arr -> Forall is_finite arr).
Proof.
  induction rtols as [| [field rtol] rtols IH]; intros Hsame Hpos msg.
  - exists []. rewrite app_nil_r. split; [reflexivity |].
    split; [intros _ f r a [] | reflexivity].
  - assert (forall f r, In (f, r) rtols ->
              dict_get String.eqb test_data f = dict_get String.eqb ref_data f) as Hsame'
      by (intros f r H; apply (Hsame f r); now right).
    assert (forall f r, In (f, r) rtols -> 0 <= r) as Hpos'
      by (intros f r H; apply (Hpos f r); now right).
    pose proof (Hpos field rtol (or_introl eq_refl)) as Hr.
    cbn [fields_loop]. rewrite (Hsame field rtol (or_introl eq_refl)).
    destruct (dict_get String.eqb ref_data field) as [b |] eqn:Gb.
    + unfold broadcast2. rewrite Nat.eqb_refl. cbn [bind].
      destruct (forallb (fun c : bool => c)
                  (map (fun d => float_le d (Finite 0)) (map2 (excess rtol) b b)))
        eqn:Eall.
      * destruct (IH Hsame' Hpos' msg) as [extra [Hloop Hiff]].
        exists extra. split; [exact Hloop |]. rewrite Hiff. split.
        -- intros H f r a [E | Hin] Ga.
           ++ inversion E; subst f r. rewrite Gb in Ga. inversion Ga; subst a.
              now apply (self_close b Hr).
           ++ now apply (H f r a Hin).
        -- intros H f r a Hin. apply (H f r a). now right.
      * destruct (map2 (excess rtol) b b) as [| d0 ds] eqn:Ed; [discriminate |].
        cbn [argmax bind].
        pose proof (@argmax_from_range ds 0%nat d0 1%nat ltac:(lia)) as Hi.
        assert (argmax_from 0 d0 1 ds < length b)%nat as Hib.
        { rewrite <- (map2_same_length (excess rtol) b), Ed. simpl. lia. }
        rewrite (getitem_nth (d0 :: ds) (Finite 0)) by (simpl; lia). cbn [bind].
        rewrite (getitem_nth b (Finite 0) Hib). cbn [bind].
        match goal with
        | |- context [fields_loop _ _ _ (msg ++ [?r])] =>
            destruct (IH Hsame' Hpos' (msg ++ [r])) as [extra [Hloop _]];
            exists (r :: extra)
        end.
        split; [rewrite Hloop, <- app_assoc; reflexivity |].
        split; [discriminate |]. intros H. exfalso.
        specialize (H field rtol b (or_introl eq_refl) Gb).
        apply (self_close b Hr) in H. rewrite Ed in H. congruence.
    + destruct (IH Hsame' Hpos' msg) as [extra [Hloop Hiff]].
      exists extra. split; [exact Hloop |]. rewrite Hiff. split.
      * intros H f r a [E | Hin] Ga.
        -- inversion E; subst f r. rewrite Gb in Ga. discriminate.
        -- now apply (H f r a Hin).
      * intros H f r a Hin. apply (H f r a). now right.
Qed.

(** *** Agreement with the comparison of finite arrays *)

Lemma map2_finite (rtol : Q) : forall a b : list Q,
  map2 (excess rtol) (map Finite a) (map Finite b) =
  map Finite (CompareVtu.map2 (CompareVtu.excess rtol) a b).
Proof.
  induction a as [| x a IH]; intros [| y b]; simpl; try reflexivity.
  now rewrite IH.
Qed.

Lemma broadcast2_finite (rtol : Q) (a b : list Q) :
  broadcast2 (excess rtol) (map Finite a) (map Finite b) =
  match CompareVtu.broadcast2 (CompareVtu.excess rtol) a b with
  | Ok d => Ok (map Finite d)
  | Raise e => Raise e
  end.
Proof.
  unfold broadcast2, CompareVtu.broadcast2. rewrite !length_map.
  destruct (length a =? length b)%nat; [now rewrite map2_finite |].
  destruct a as [| x [| x' a]]; destruct b as [| y [| y' b]]; try reflexivity;
    cbn [map]; f_equal; rewrite ?map_map; try reflexivity.
Qed.

Lemma argmax_from_finite (l : list Q) : forall best_i best i,
  argmax_from best_i (Finite best) i (map Finite l) =
  CompareVtu.argmax_from best_i best i l.
Proof.
  induction l as [| x l IH]; intros best_i best i; [reflexivity |].
  cbn [map argmax_from CompareVtu.argmax_from is_nan float_le].
  change (negb (Qle_bool x best)) with (Qlt_bool best x).
  destruct (Qlt_bool best x); apply IH.
Qed.

Lemma getitem_map {A B} (f : A -> B) (l : list A) (i : nat) :
  getitem (map f l) i =
  match getitem l i with
  | Ok a => Ok (f a)
  | Raise e => Raise e
  end.
Proof.
  unfold getitem. rewrite nth_error_map.
  destruct (nth_error l i); reflexivity.
Qed.

Lemma fields_loop_finite (ref_data test_data : CompareVtu.point_data)
    (rtols : list (string * Q)) : forall msg,
  fields_loop (of_finite ref_data) (of_finite test_data) rtols
    (map report_of_finite msg) =
  match CompareVtu.fields_loop ref_data test_data rtols msg with
  | Ok m => Ok (map report_of_finite m)
  | Raise e => Raise e
  end.
Proof.
  induction rtols as [| [field rtol] rtols IH]; intros msg; [reflexivity |].
  cbn [fields_loop CompareVtu.fields_loop]. unfold of_finite.
  rewrite !(dict_get_map_values String.eqb
              (fun a : ndarray => map Finite (CompareVtu.flatten a))).
  fold (of_finite ref_data). fold (of_finite test_data).
  destruct (dict_get String.eqb ref_data field) as [rb |]; cbn [option_map];
    [| apply IH].
  destruct (dict_get String.eqb test_data field) as [ra |]; cbn [option_map];
    [| reflexivity].
  rewrite broadcast2_finite.
  destruct (CompareVtu.broadcast2 (CompareVtu.excess rtol)
              (CompareVtu.flatten ra) (CompareVtu.flatten rb)) as [d |];
    cbn [bind]; [| reflexivity].
  rewrite map_map. cbn [float_le].
  destruct (forallb (fun c : bool => c) (map (fun x => Qle_bool x 0) d));
    [apply IH |].
  destruct d as [| d0 ds]; [reflexivity |].
  cbn [map argmax CompareVtu.argmax bind]. rewrite argmax_from_finite.
  change (Finite d0 :: map Finite ds) with (map Finite (d0 :: ds)).
  rewrite !getitem_map.
  destruct (getitem (d0 :: ds) (CompareVtu.argmax_from 0 d0 1 ds)) as [max_rel |];
    cbn [bind]; [| reflexivity].
  destruct (getitem (CompareVtu.flatten ra) (CompareVtu.argmax_from 0 d0 1 ds))
    as [ai |]; cbn [bind]; [| reflexivity].
  destruct (getitem (CompareVtu.flatten rb) (CompareVtu.argmax_from 0 d0 1 ds))
    as [bi |]; cbn [bind]; [| reflexivity].
  rewrite <- IH. rewrite map_app. reflexivity.
Qed.

(** On files whose entries are all finite the comparison of this
    section is the comparison of [CompareVtu]. *)
Lemma compare_vtu_finite (ref_data test_data : CompareVtu.point_data) :
  compare_vtu (of_finite ref_data) (of_finite test_data) =
  outcome_of_finite (CompareVtu.compare_vtu ref_data test_data).
Proof.
  unfold compare_vtu, CompareVtu.compare_vtu.
  pose proof (fields_loop_finite ref_data test_data CompareVtu.RTOL []) as H.
  cbn [map] in H. rewrite H.
  destruct (CompareVtu.fields_loop ref_data test_data CompareVtu.RTOL [])
    as [[| r rs] | e]; reflexivity.
Qed.

End VtuFloatFacts.

Section VtuFloatProperties.
Import CompareVtuFloat MoreExamples.

(** X9.  When the two files hold the same Displacement and Velocity
    arrays, [compare_vtu] passes exactly when every entry of these
    arrays is finite, and otherwise it raises its report of differing
    fields and no other exception.  So a file compared with itself
    passes when its compared arrays are finite, whatever its other
    point-data arrays hold, and is reported as differing from itself
    when one of them has an infinite or NaN entry. *)
Theorem agreeing_fields_pass (ref_data test_data : point_data) :
  (forall field rtol, In (field, rtol) CompareVtu.RTOL ->
     dict_get String.eqb test_data field = dict_get String.eqb ref_data field) ->
  (compare_vtu ref_data test_data = VtuPass <->
   forall field rtol arr, In (field, rtol) CompareVtu.RTOL ->
     dict_get String.eqb ref_data field = Some arr -> Forall is_finite arr) /\
  (compare_vtu ref_data test_data = VtuPass \/
   exists reports, compare_vtu ref_data test_data = VtuDiffer reports).
Proof.
  intros Hsame.
  destruct (@fields_loop_same ref_data test_data CompareVtu.RTOL Hsame) with (msg := @nil field_report)
    as [extra [Hloop Hiff]].
  { intros field rtol [H | [H | []]]; inversion H; subst; discriminate. }
  unfold compare_vtu. rewrite Hloop. cbn [app].
  destruct extra as [| r rs].
  - split; [| now left]. split; [intros _; now apply Hiff | reflexivity].
  - split; [| right; now exists (r :: rs)].
    split; [discriminate |]. intros H. apply Hiff in H. discriminate.
Qed.

(** A finite file passes against itself with another pressure; a file
    whose displacement has a NaN entry does not pass against itself. *)
Lemma agreeing_fields_pass_witness :
  compare_vtu float_mesh float_mesh_pressure = VtuPass /\
  (exists reports, compare_vtu nan_mesh nan_mesh = VtuDiffer reports).
Proof.
  split.
  - apply (@agreeing_fields_pass float_mesh float_mesh_pressure).
    + intros field rtol [Hin | [Hin | []]]; inversion Hin; subst; reflexivity.
    + intros field rtol arr [Hin | [Hin | []]] Ga; inversion Hin; subst;
        inversion Ga; subst.
      repeat constructor; eexists; reflexivity.
  - destruct (@agreeing_fields_pass nan_mesh nan_mesh (fun _ _ _ => eq_refl))
      as [Hiff [Hpass | Hdiff]]; [| exact Hdiff].
    exfalso.
    pose proof (proj1 Hiff Hpass "Displacement" (1 # 100000000)
                  [Finite 1; Special NaN; Finite 3] (or_introl eq_refl) eq_refl) as H.
    inversion H as [| ? ? _ H2]; subst. inversion H2 as [| ? ? [q Hq] _]; subst.
    discriminate.
Defined.

End VtuFloatProperties.

(* --------------------------------------------------------------------- *)
(** ** Further properties of the pulsatile post-processing *)
(* --------------------------------------------------------------------- *)

Section MoreGetIdsFacts.
Import PostSteadyFluid Spec Notions.
Context {L : Libm}.

(** Python's [a % m] for a positive [m] lies in [0, m). *)
Lemma np_mod_range (a m : Q) : 0 < m -> 0 <= np_mod a m /\ np_mod a m < m.
Proof.
  intros Hm. unfold np_mod.
  pose proof (Qfloor_le (a / m)) as Hlo.
  pose proof (Qlt_floor (a / m)) as Hhi.
  rewrite inject_Z_plus in Hhi. change (inject_Z 1) with 1 in Hhi.
  assert (a == (a / m) * m) as Ha by (field; lra).
  set (q := a / m) in *. set (f := inject_Z (Qfloor q)) in *.
  assert (m * f <= q * m) as H1.
  { rewrite (Qmult_comm q m). apply Qmult_le_l; assumption. }
  assert (q * m < m * (f + 1)) as H2.
  { rewrite (Qmult_comm q m). apply Qmult_lt_l; assumption. }
  split.
  - rewrite Ha at 1. lra.
  - rewrite Ha at 1. lra.
Qed.

Lemma np_pi_pos : 0 < np_pi.
Proof. reflexivity. Qed.

Lemma fst_locations_of pts_xyz domain : fst (locations_of pts_xyz domain) = [].
Proof.
  unfold locations_of. rewrite !bind_out_lift.
  destruct (np_max _) as [ro |]; [| reflexivity].
  destruct (np_min _) as [ri |]; [| reflexivity].
  destruct (np_max _) as [h |]; [| reflexivity].
  unfold buckets.
  destruct (String.eqb domain "fluid");
    [| destruct (String.eqb domain "interface")]; reflexivity.
Qed.

Lemma dict_mem_set_other {V} (d : list (loc * V)) (k k' : loc) (v : V) :
  k' <> k -> dict_mem loc_eqb (dict_set loc_eqb d k v) k' = dict_mem loc_eqb d k'.
Proof.
  intros H. unfold dict_mem. now rewrite (@dict_get_set_other _ _ _ loc_eqb_eq).
Qed.

Lemma dict_mem_set_same {V} (d : list (loc * V)) (k : loc) (v : V) :
  dict_mem loc_eqb (dict_set loc_eqb d k v) k = true.
Proof. unfold dict_mem. now rewrite (@dict_get_set_same _ _ _ loc_eqb_eq). Qed.

(** The keys and the printed lines of the loop over the locations. *)
Lemma ids_loop_keys pts_cra locs : forall ids coords ids' coords',
  NoDup (map fst locs) ->
  (forall l, In l (map fst locs) -> dict_mem loc_eqb ids l = false) ->
  (forall l, In l (map fst locs) -> dict_mem loc_eqb coords l = false) ->
  snd (ids_loop pts_cra locs ids coords) = Ok (ids', coords') ->
  map fst ids' = map fst ids ++ map fst locs /\
  map fst coords' =
    map fst coords ++
    map fst (filter (fun e => negb (unmatched pts_cra e) && has_wildcard (fst e)) locs) /\
  fst (ids_loop pts_cra locs ids coords) =
    map (fun e => MsgNoPointsFound (fst e)) (filter (unmatched pts_cra) locs).
Proof.
  induction locs as [| [l pt] rest IH]; intros ids coords ids' coords' Hnd Hi Hc H.
  - simpl in H. inversion H; subst. simpl. rewrite !app_nil_r. auto.
  - inversion Hnd as [| ? ? Hfresh Hnd']; subst.
    assert (forall V (d : list (loc * V)) (v : V) l',
              In l' (map fst rest) ->
              dict_mem loc_eqb d l' = false ->
              dict_mem loc_eqb (dict_set loc_eqb d l v) l' = false) as Hkeep.
    { intros V d v l' Hin Hm. rewrite dict_mem_set_other; [exact Hm |].
      intros ->. contradiction. }
    rewrite ids_loop_cons in H |- *. cbv zeta in H |- *.
    cbn [filter fst].
    change (unmatched pts_cra (l, pt)) with (length (select pts_cra l pt) =? 0)%nat.
    change (has_wildcard l)
      with (match wildcard_index l with Some _ => true | None => false end).
    destruct (length (select pts_cra l pt) =? 0)%nat eqn:E0.
    + rewrite snd_bind_print in H.
      destruct (IH _ _ _ _ Hnd'
                  (fun l' Hl => Hkeep _ ids (select pts_cra l pt) l' Hl
                                  (Hi l' (or_intror Hl)))
                  (fun l' Hl => Hc l' (or_intror Hl)) H) as [K1 [K2 K3]].
      rewrite K1, K2. cbn [negb andb].
      rewrite dict_set_keys_fresh by (apply Hi; now left).
      rewrite <- app_assoc. split; [reflexivity |]. split; [reflexivity |].
      rewrite fst_bind_out. cbn [print snd fst]. rewrite K3. reflexivity.
    + cbn [negb andb].
      destruct (wildcard_index l) as [dim |].
      * destruct (length (np_unique _) =? length _)%nat; [| discriminate].
        destruct (IH _ _ _ _ Hnd'
                    (fun l' Hl => Hkeep _ _ _ l' Hl
                       (Hkeep _ ids (select pts_cra l pt) l' Hl (Hi l' (or_intror Hl))))
                    (fun l' Hl => Hkeep _ coords _ l' Hl (Hc l' (or_intror Hl))) H)
          as [K1 [K2 K3]].
        rewrite K1, K2, K3.
        rewrite dict_set_keys_mem by apply dict_mem_set_same.
        rewrite !dict_set_keys_fresh by (first [apply Hi | apply Hc]; now left).
        cbn [map fst]. rewrite <- !app_assoc. auto.
      * destruct (IH _ _ _ _ Hnd'
                    (fun l' Hl => Hkeep _ ids (select pts_cra l pt) l' Hl
                                    (Hi l' (or_intror Hl)))
                    (fun l' Hl => Hc l' (or_intror Hl)) H) as [K1 [K2 K3]].
        rewrite K1, K2, K3.
        rewrite dict_set_keys_fresh by (apply Hi; now left).
        rewrite <- app_assoc. auto.
Qed.

(** The registered keys of the interface domain include the mid wall
    ring. *)
Lemma interface_registers_mid_ring pts_xyz locations :
  snd (locations_of pts_xyz "interface") = Ok locations ->
  In mid_ring (map fst locations).
Proof.
  unfold locations_of. rewrite !bind_out_lift.
  destruct (np_max _) as [ro |]; [| discriminate].
  destruct (np_min _) as [ri |]; [| discriminate].
  destruct (np_max _) as [h |]; [| discriminate].
  cbn. intros H. inversion H. clear H H1.
  vm_compute. tauto.
Qed.

Lemma get_ids_keys pts_xyz domain locations ids coords :
  snd (locations_of pts_xyz domain) = Ok locations ->
  snd (get_ids pts_xyz domain) = Ok (ids, coords) ->
  map fst ids = map fst locations /\
  map fst coords =
    map fst (filter (fun e => negb (unmatched (map xyz2cra pts_xyz) e)
                              && has_wildcard (fst e)) locations) /\
  fst (get_ids pts_xyz domain) =
    map (fun e => MsgNoPointsFound (fst e))
        (filter (unmatched (map xyz2cra pts_xyz)) locations).
Proof.
  intros Hloc H. rewrite get_ids_unfold, Hloc in H.
  pose proof (locations_of_NoDup _ _ Hloc) as Hnd.
  destruct (@ids_loop_keys (map xyz2cra pts_xyz) locations [] [] ids coords Hnd
              (fun _ _ => eq_refl) (fun _ _ => eq_refl) H) as [K1 [K2 K3]].
  split; [exact K1 |]. split; [exact K2 |].
  unfold get_ids. rewrite fst_bind_out, Hloc, fst_locations_of. exact K3.
Qed.

Lemma get_ids_locations pts_xyz domain r :
  snd (get_ids pts_xyz domain) = Ok r ->
  exists locations, snd (locations_of pts_xyz domain) = Ok locations.
Proof.
  rewrite get_ids_unfold.
  destruct (snd (locations_of pts_xyz domain)) as [locations |]; [eauto | discriminate].
Qed.

(** Every index that [get_ids] returns is an index of a point. *)
Lemma get_ids_in_range pts_xyz domain ids coords :
  snd (get_ids pts_xyz domain) = Ok (ids, coords) ->
  forall l pt, In (l, pt) ids -> Forall (fun k => (k < length pts_xyz)%nat) pt.
Proof.
  intros H l pt Hin.
  destruct (get_ids_locations _ _ H) as [locations Hloc].
  destruct (get_ids_invariant _ _ Hloc H) as [Hok _].
  pose proof (get_ids_keys_NoDup _ _ H) as Hnd.
  apply (@In_dict_get _ _ _ loc_eqb_eq _ _ _ Hnd) in Hin.
  destruct (Hok l pt Hin) as [target [_ Hperm]].
  apply Forall_forall. intros k Hk.
  apply (Permutation_in _ Hperm) in Hk.
  pose proof (select_in_range (map xyz2cra pts_xyz) l target) as R.
  rewrite Forall_forall in R. specialize (R k Hk). now rewrite length_map in R.
Qed.

(** The coordinate array of a key is as long as its index array. *)
Lemma get_ids_coords_length pts_xyz domain ids coords l cs :
  snd (get_ids pts_xyz domain) = Ok (ids, coords) ->
  dict_get loc_eqb coords l = Some cs ->
  exists found, dict_get loc_eqb ids l = Some found /\ length cs = length found.
Proof.
  intros H G.
  destruct (get_ids_locations _ _ H) as [locations Hloc].
  destruct (get_ids_invariant _ _ Hloc H) as [_ [Hc _]].
  destruct (Hc l cs G) as [_ [dim [found [_ [Gi ->]]]]].
  exists found. split; [exact Gi | apply length_map].
Qed.

Lemma mid_loop_length pts pt : forall results s,
  mid_loop results pts pt = Ok s -> length s = length results.
Proof.
  induction results as [| res rest IH]; intros s H; simpl in H.
  - now inversion H.
  - destruct (wss_source res pts) as [w |]; cbn [bind] in H; [| discriminate].
    destruct (take (fst w) pt) as [sel |]; cbn [bind] in H; [| discriminate].
    destruct (mid_loop rest pts pt) as [s' |]; cbn [bind] in H; [| discriminate].
    inversion H. simpl. f_equal. now apply IH.
Qed.

End MoreGetIdsFacts.

Section MoreGetIdsProperties.
Import PostSteadyFluid Spec Notions Examples.
Context {L : Libm}.

(** X12.  Whatever angle [np.arctan2] returns, the circumferential
    coordinate that [xyz2cra] computes lies in [0, 2 pi), and the axial
    coordinate is the z coordinate of the point. *)
Theorem circumferential_coordinate_is_normalised (xyz : Q * Q * Q) :
  0 <= axis (xyz2cra xyz) 0 /\ axis (xyz2cra xyz) 0 < 2 * np_pi /\
  axis (xyz2cra xyz) 2 = axis xyz 2.
Proof.
  destruct xyz as [[x y] z]. cbn [xyz2cra axis fst snd].
  assert (0 < 2 * np_pi) as Hpos by reflexivity.
  destruct (np_mod_range (np_arctan2 x y + 2 * np_pi) Hpos) as [H0 H1].
  auto.
Qed.

(** X13.  [get_ids] raises a [ValueError] and prints nothing for an
    empty point set, whatever the domain (the maximum of an empty array
    is taken before the domain is looked at), and for a domain other
    than "fluid" and "interface" on a point set that is not empty. *)
Theorem get_ids_value_errors (pts_xyz : list (Q * Q * Q)) (domain : string) :
  (pts_xyz = [] ->
   get_ids pts_xyz domain =
   ([], Raise (ValueError
                 "zero-size array to reduction operation maximum which has no identity"))) /\
  (pts_xyz <> [] -> domain <> "fluid" -> domain <> "interface" ->
   get_ids pts_xyz domain = ([], Raise (ValueError ("Unknown domain: " ++ domain)))).
Proof.
  split.
  - intros ->. reflexivity.
  - intros Hne Hf Hi. unfold get_ids, locations_of. rewrite !bind_out_lift.
    destruct pts_xyz as [| p pts]; [congruence |].
    cbn [map np_max np_min]. unfold buckets.
    apply String.eqb_neq in Hf. apply String.eqb_neq in Hi. rewrite Hf, Hi.
    reflexivity.
Qed.

(** X14.  When [get_ids] returns, [ids] has an entry for every
    registered key, in the order of registration, also for the keys that
    no point matches; "no points found" is printed for exactly those
    keys, in that order, and nothing else is printed; [coords] has an
    entry for exactly the wildcard keys that some point matches. *)
Theorem get_ids_keys_and_log
    (pts_xyz : list (Q * Q * Q)) (domain : string) (locations : locations_t)
    (ids : ids_t) (coords : coords_t) :
  snd (locations_of pts_xyz domain) = Ok locations ->
  snd (get_ids pts_xyz domain) = Ok (ids, coords) ->
  let pts_cra := map xyz2cra pts_xyz in
  map fst ids = map fst locations /\
  fst (get_ids pts_xyz domain) =
    map (fun e => MsgNoPointsFound (fst e)) (filter (unmatched pts_cra) locations) /\
  map fst coords =
    map fst (filter (fun e => negb (unmatched pts_cra e) && has_wildcard (fst e))
               locations).
Proof.
  intros Hloc H pts_cra.
  destruct (get_ids_keys _ _ Hloc H) as [K1 [K2 K3]]. auto.
Qed.

(** X15.  After [get_ids] has returned for the interface domain, the
    mid wall ring is among the keys of [ids], so
    [extract_wss_mid_timeseries] never prints that the ring was not
    found and never returns [None]: when it returns, it returns a series
    with one value for every snapshot it is given. *)
Theorem mid_ring_is_always_found
    (pts_xyz : list (Q * Q * Q)) (ids : ids_t) (coords : coords_t)
    (results : list vtu) :
  snd (get_ids pts_xyz "interface") = Ok (ids, coords) ->
  (exists found, dict_get loc_eqb ids mid_ring = Some found) /\
  fst (extract_wss_mid_timeseries results pts_xyz ids) = [] /\
  (forall r, snd (extract_wss_mid_timeseries results pts_xyz ids) = Ok r ->
     exists series, r = Some series /\ length series = length results).
Proof.
  intros H.
  destruct (get_ids_locations _ _ H) as [locations Hloc].
  destruct (get_ids_keys _ _ Hloc H) as [K1 _].
  pose proof (interface_registers_mid_ring _ Hloc) as Hin. rewrite <- K1 in Hin.
  destruct (dict_get loc_eqb ids mid_ring) as [found |] eqn:G.
  2:{ apply (@dict_get_None _ _ _ loc_eqb_eq) in G. contradiction. }
  split; [eauto |].
  unfold extract_wss_mid_timeseries. rewrite G, bind_out_lift.
  destruct (mid_loop results pts_xyz found) as [s |] eqn:M.
  - split; [reflexivity |]. intros r Hr. inversion Hr; subst r.
    exists s. split; [reflexivity |]. now apply (mid_loop_length _ _ _ M).
  - split; [reflexivity |]. intros r Hr. discriminate.
Qed.

End MoreGetIdsProperties.

Section MoreGetIdsExamples.
Import PostSteadyFluid Spec Notions Examples.

Lemma get_ids_value_errors_witness :
  get_ids (L := axis_libm) wall_points "solid" =
    ([], Raise (ValueError "Unknown domain: solid")) /\
  get_ids (L := axis_libm) [] "interface" =
    ([], Raise (ValueError
                  "zero-size array to reduction operation maximum which has no identity")).
Proof.
  split.
  - destruct (@get_ids_value_errors axis_libm wall_points "solid") as [_ H].
    apply H; discriminate.
  - destruct (@get_ids_value_errors axis_libm [] "interface") as [H _].
    now apply H.
Defined.

(** On [centerline_points] the fluid domain has ten keys; each of them
    is matched by a point, so nothing is printed, and the seven keys
    with a wildcard have coordinates. *)
Lemma get_ids_keys_and_log_witness :
  exists ids coords,
    snd (get_ids (L := axis_libm) centerline_points "fluid") = Ok (ids, coords) /\
    length ids = 10%nat /\
    fst (get_ids (L := axis_libm) centerline_points "fluid") = [] /\
    length coords = 7%nat.
Proof.
  destruct (snd (locations_of (L := axis_libm) centerline_points "fluid"))
    as [locations |] eqn:Hloc; [| vm_compute in Hloc; discriminate].
  destruct (snd (get_ids (L := axis_libm) centerline_points "fluid"))
    as [[ids coords] |] eqn:H; [| vm_compute in H; discriminate].
  destruct (@get_ids_keys_and_log axis_libm centerline_points "fluid"
              locations ids coords Hloc H) as [K1 [K2 K3]].
  exists ids, coords. split; [reflexivity |].
  vm_compute in Hloc. inversion Hloc; subst locations. clear Hloc.
  split; [rewrite <- (length_map fst), K1; reflexivity |].
  split; [rewrite K2; vm_compute; reflexivity |].
  rewrite <- (length_map fst), K3. vm_compute. reflexivity.
Defined.

Lemma mid_ring_is_always_found_witness :
  exists ids coords found,
    snd (get_ids (L := axis_libm) wall_points "interface") = Ok (ids, coords) /\
    dict_get loc_eqb ids mid_ring = Some found /\
    fst (extract_wss_mid_timeseries (L := axis_libm) [bare_snapshot] wall_points ids) = [].
Proof.
  destruct (snd (get_ids (L := axis_libm) wall_points "interface"))
    as [[ids coords] |] eqn:H; [| vm_compute in H; discriminate].
  destruct (@mid_ring_is_always_found axis_libm wall_points ids coords [bare_snapshot] H)
    as [[found G] [Hlog _]].
  exists ids, coords, found. auto.
Defined.

End MoreGetIdsExamples.

Section MoreResultsFacts.
Import PostSteadyFluid Spec Notions.
Context {L : Libm}.

(** The snapshots before [start_step] are passed over. *)
Lemma snapshot_loop_skip (kept : list vtu) pts ids_fluid ids_interface start_step :
  forall (pre : list vtu) (i : nat) (pf pit : post_t),
  (Z.of_nat (i + length pre) <= start_step)%Z ->
  snapshot_loop i (pre ++ kept) pts ids_fluid ids_interface start_step pf pit =
  snapshot_loop (i + length pre) kept pts ids_fluid ids_interface start_step pf pit.
Proof.
  induction pre as [| res pre IH]; intros i pf pit H; simpl.
  - now rewrite Nat.add_0_r.
  - simpl in H.
    destruct (Z.leb_spec start_step (Z.of_nat i)) as [Hle | Hgt]; [lia |].
    rewrite IH by lia. f_equal. lia.
Qed.

Lemma wss_source_covers (pts : list (Q * Q * Q)) (res : vtu) :
  well_formed (length pts) res ->
  exists mag warned, wss_source res pts = Ok (mag, warned) /\ length mag = length pts.
Proof.
  intros [_ [_ [Hw Ht]]]. unfold wss_source.
  destruct (WSS res) as [[v | rows] |]; simpl in Hw.
  - contradiction.
  - eexists. eexists. split; [reflexivity |]. now rewrite length_map.
  - specialize (Ht eq_refl).
    destruct (Traction res) as [[v | rows] |]; simpl in Ht.
    + contradiction.
    + eexists. eexists. split; [reflexivity |]. now rewrite length_map.
    + eexists. eexists. split; [reflexivity |]. apply repeat_length.
Qed.

Lemma take_ok {A} (arr : list A) (idx : list nat) (n : nat) :
  length arr = n -> Forall (fun k => (k < n)%nat) idx -> is_ok (take arr idx) = true.
Proof.
  intros Hn Hidx. destruct arr as [| d arr].
  - simpl in Hn. subst n. destruct idx as [| k idx]; [reflexivity |].
    inversion Hidx; lia.
  - rewrite (take_spec d); [reflexivity |]. now rewrite Hn.
Qed.

Lemma readable_of_well_formed (pts : list (Q * Q * Q)) (ids_fluid ids_interface : ids_t)
    (res : vtu) :
  well_formed (length pts) res ->
  (forall l pt, In (l, pt) ids_fluid -> Forall (fun k => (k < length pts)%nat) pt) ->
  (forall l pt, In (l, pt) ids_interface -> Forall (fun k => (k < length pts)%nat) pt) ->
  readable pts ids_fluid ids_interface res.
Proof.
  intros Hwf Hf Hi.
  destruct (@wss_source_covers pts res Hwf) as [mag [warned [Hsrc Hmag]]].
  destruct Hwf as [[p [Hp Lp]] [[rows [Hv Lv]] _]].
  unfold readable, pressure_at, velocity_at, wss_at.
  rewrite Hp, Hv, Hsrc. cbn [v2n bind linalg_norm_axis1 is_ok fst].
  split; [reflexivity |]. split; [reflexivity |]. split; [reflexivity |].
  split.
  - intros l pt Hin. split.
    + eapply take_ok; [exact Lp | now apply (Hf l pt)].
    + eapply take_ok; [rewrite length_map; exact Lv | now apply (Hf l pt)].
  - intros l pt Hin. split.
    + eapply take_ok; [exact Lp | now apply (Hi l pt)].
    + eapply take_ok; [exact Hmag | now apply (Hi l pt)].
Qed.

Lemma mid_loop_total (pts : list (Q * Q * Q)) (pt : list nat) :
  Forall (fun k => (k < length pts)%nat) pt ->
  forall results,
  Forall (well_formed (length pts)) results ->
  exists s, mid_loop results pts pt = Ok s.
Proof.
  intros Hpt. induction results as [| res rest IH]; intros Hall; simpl.
  - eauto.
  - inversion Hall as [| ? ? Hres Hrest]; subst.
    destruct (@wss_source_covers pts res Hres) as [mag [warned [Hsrc Hmag]]].
    rewrite Hsrc. cbn [bind fst].
    assert (is_ok (take mag pt) = true) as Hok
      by (eapply take_ok; [exact Hmag | exact Hpt]).
    destruct (take mag pt) as [sel |]; [| discriminate]. cbn [bind].
    destruct (IH Hrest) as [s Hs]. rewrite Hs. cbn [bind]. eauto.
Qed.

(** After [get_ids] has returned for the interface domain, the mid wall
    ring is one of the keys. *)
Lemma interface_ids_have_mid_ring (pts_xyz : list (Q * Q * Q)) ids coords :
  snd (get_ids pts_xyz "interface") = Ok (ids, coords) ->
  exists found, In (mid_ring, found) ids /\ dict_get loc_eqb ids mid_ring = Some found.
Proof.
  intros H.
  destruct (get_ids_locations _ _ H) as [locations Hloc].
  destruct (get_ids_keys _ _ Hloc H) as [K1 _].
  pose proof (interface_registers_mid_ring _ Hloc) as Hin. rewrite <- K1 in Hin.
  destruct (dict_get loc_eqb ids mid_ring) as [found |] eqn:G.
  - exists found. split; [| reflexivity].
    now apply (@dict_get_In _ _ _ loc_eqb_eq).
  - apply (@dict_get_None _ _ _ loc_eqb_eq) in G. contradiction.
Qed.

Lemma retained_nonempty (start_step : Z) (results : list vtu) :
  results <> [] ->
  (start_step < Z.of_nat (length results))%Z -> retained start_step results <> [].
Proof.
  intros Hne H Hnil. unfold retained in Hnil.
  assert (length (skipn (Z.to_nat start_step) results) = 0%nat) as E
    by now rewrite Hnil.
  rewrite length_skipn in E.
  destruct results as [| r rs]; [congruence |]. cbn [length] in *. lia.
Qed.

Lemma retained_Forall (P : vtu -> Prop) (start_step : Z) (results : list vtu) :
  Forall P results -> Forall P (retained start_step results).
Proof.
  intros H. unfold retained. rewrite Forall_forall in *.
  intros x Hx. apply H.
  rewrite <- (firstn_skipn (Z.to_nat start_step) results).
  apply in_or_app. now right.
Qed.

(** The shape of what [get_results] stores for one key. *)
Lemma collect_rows (g : vtu -> result (list Q)) (n : nat) : forall rs rows,
  (forall r x, g r = Ok x -> length x = n) ->
  collect g rs = Ok rows ->
  length rows = length rs /\ Forall (fun row => length row = n) rows.
Proof.
  induction rs as [| r rs IH]; intros rows Hg H; simpl in H.
  - inversion H. split; [reflexivity | constructor].
  - destruct (g r) as [x |] eqn:E; cbn [bind] in H; [| discriminate].
    destruct (collect g rs) as [xs |] eqn:C; cbn [bind] in H; [| discriminate].
    inversion H; subst rows. destruct (IH xs Hg eq_refl) as [H1 H2].
    split; [simpl; now f_equal |]. constructor; [now apply (Hg r) | exact H2].
Qed.

Lemma pressure_at_length pt res x : pressure_at pt res = Ok x -> length x = length pt.
Proof.
  unfold pressure_at. destruct (v2n (Pressure res)); cbn [bind]; [| discriminate].
  apply take_length.
Qed.

Lemma velocity_at_length pt res x : velocity_at pt res = Ok x -> length x = length pt.
Proof.
  unfold velocity_at. destruct (v2n (Velocity res)) as [v |]; cbn [bind]; [| discriminate].
  destruct (linalg_norm_axis1 v); cbn [bind]; [| discriminate].
  apply take_length.
Qed.

Lemma wss_at_length pts pt res x : wss_at pts pt res = Ok x -> length x = length pt.
Proof.
  unfold wss_at. destruct (wss_source res pts); cbn [bind]; [| discriminate].
  apply take_length.
Qed.

Lemma mean_axis0_rows (rows : list (list Q)) (n : nat) :
  rows <> [] -> Forall (fun row => length row = n) rows ->
  length (mean_axis0 rows) = n.
Proof.
  destruct rows as [| row0 rest]; [congruence |]. intros _ H.
  rewrite mean_axis0_length. now inversion H.
Qed.

(** Everything [post_process] computes on well-formed snapshots. *)
Lemma post_process_spec (res : list vtu) (res0 : vtu) (start_step : Z)
    (ids_f : ids_t) (coords_f : coords_t) (ids_i : ids_t) (coords_i : coords_t) :
  hd_error res = Some res0 ->
  (start_step < Z.of_nat (length res))%Z ->
  snd (get_ids (points res0) "fluid") = Ok (ids_f, coords_f) ->
  snd (get_ids (points res0) "interface") = Ok (ids_i, coords_i) ->
  Forall (well_formed (length (points res0))) res ->
  exists df di dit series,
    snd (post_process res start_step) =
      Ok (Processed df di dit coords_f coords_i (length res) (Some series)) /\
    length series = length res /\
    (forall l pt f, In (l, pt) ids_f -> f = "pressure" \/ f = "velocity" ->
       exists m, field_of df l f = Some m /\ length m = length pt) /\
    (forall l pt f, In (l, pt) ids_i -> f = "pressure" \/ f = "wss" ->
       exists m rows,
         field_of di l f = Some m /\ length m = length pt /\
         field_of dit l f = Some rows /\
         length rows = length (retained start_step res) /\
         Forall (fun row => length row = length pt) rows).
Proof.
  intros Hhd Hstart Hf Hi Hall.
  destruct res as [| r0 rest]; [discriminate |].
  inversion Hhd; subst r0. clear Hhd.
  set (pts := points res0) in *.
  pose proof (get_ids_in_range _ _ Hf) as Rf.
  pose proof (get_ids_in_range _ _ Hi) as Ri.
  pose proof (get_ids_keys_NoDup _ _ Hf) as Nf.
  pose proof (get_ids_keys_NoDup _ _ Hi) as Ni.
  assert (retained start_step (res0 :: rest) <> []) as Hne
    by (apply retained_nonempty; [discriminate | exact Hstart]).
  assert (Forall (readable pts ids_f ids_i) (retained start_step (res0 :: rest))) as Hread.
  { apply retained_Forall. eapply Forall_impl; [| exact Hall].
    intros r Hr. now apply readable_of_well_formed. }
  destruct (@get_results_spec _ (res0 :: rest) pts ids_f ids_i start_step Nf Ni Hne Hread)
    as [df [di [dit [Hres [Hdf Hdi]]]]].
  destruct (interface_ids_have_mid_ring _ Hi) as [ring [Hring Gring]].
  destruct (@mid_loop_total pts ring (Ri _ _ Hring) (res0 :: rest) Hall) as [series Hmid].
  exists df, di, dit, series.
  split; [| split; [| split]].
  - unfold post_process.
    destruct (Z.leb_spec (Z.of_nat (length (res0 :: rest))) start_step) as [Hle | _];
      [lia |].
    rewrite snd_bind_out. cbn [print snd].
    fold pts. rewrite snd_bind_out, Hf. rewrite snd_bind_out, Hi. cbn [fst snd].
    rewrite snd_bind_out, Hres.
    unfold extract_wss_mid_timeseries. rewrite Gring, bind_out_lift, Hmid.
    reflexivity.
  - now apply (mid_loop_length _ _ _ Hmid).
  - intros l pt f Hin Hfield.
    destruct (Hdf l pt Hin) as [ps [vs [Cp [Cv [Fp Fv]]]]].
    destruct (@collect_rows (pressure_at pt) (length pt) _ ps
                (fun r x => @pressure_at_length pt r x) Cp) as [Lp Rp].
    destruct (@collect_rows (velocity_at pt) (length pt) _ vs
                (fun r x => @velocity_at_length pt r x) Cv) as [Lv Rv].
    destruct Hfield as [-> | ->].
    + exists (mean_axis0 ps). split; [exact Fp |].
      apply mean_axis0_rows; [| exact Rp].
      eapply collect_nonempty; eassumption.
    + exists (mean_axis0 vs). split; [exact Fv |].
      apply mean_axis0_rows; [| exact Rv].
      eapply collect_nonempty; eassumption.
  - intros l pt f Hin Hfield.
    destruct (Hdi l pt Hin) as [ps [ws [Cp [Cw [Fp [Fw [Tp Tw]]]]]]].
    destruct (@collect_rows (pressure_at pt) (length pt) _ ps
                (fun r x => @pressure_at_length pt r x) Cp) as [Lp Rp].
    destruct (@collect_rows (wss_at pts pt) (length pt) _ ws
                (fun r x => @wss_at_length pts pt r x) Cw) as [Lw Rw].
    destruct Hfield as [-> | ->].
    + exists (mean_axis0 ps), ps. split; [exact Fp |].
      split; [apply mean_axis0_rows; [eapply collect_nonempty; eassumption | exact Rp] |].
      split; [exact Tp |]. split; [exact Lp | exact Rp].
    + exists (mean_axis0 ws), ws. split; [exact Fw |].
      split; [apply mean_axis0_rows; [eapply collect_nonempty; eassumption | exact Rw] |].
      split; [exact Tw |]. split; [exact Lw | exact Rw].
Qed.

End MoreResultsFacts.

Section MoreResultsProperties.
Import PostSteadyFluid Spec Notions.
Context {L : Libm}.

(** X16.  [get_results] does not read the snapshots before
    [start_step]: replacing them by any other snapshots, as many as they
    are, changes neither what it returns nor what it prints. *)
Theorem earlier_snapshots_are_not_read
    (pre pre' kept : list vtu) (pts : list (Q * Q * Q))
    (ids_fluid ids_interface : ids_t) (start_step : Z) :
  length pre = length pre' ->
  (Z.of_nat (length pre) <= start_step)%Z ->
  get_results (pre ++ kept) pts ids_fluid ids_interface start_step =
  get_results (pre' ++ kept) pts ids_fluid ids_interface start_step.
Proof.
  intros Hlen Hstart. unfold get_results.
  rewrite !length_app, Hlen.
  rewrite !snapshot_loop_skip by (simpl; lia).
  now rewrite Hlen.
Qed.

(** X17.  [post_process] returns whenever [start_step] is below the
    number of snapshots, [get_ids] returns for both domains on the
    points of the first snapshot, and every snapshot has a pressure
    value and a velocity vector for every point and, if it has a WSS (or
    else a Traction) array, a vector for every point: no index or key
    can be missing.  It reports the number of snapshots, the coordinates
    that [get_ids] found, and a mid ring series with one value for every
    snapshot, also for those before [start_step]. *)
Theorem post_process_returns
    (res : list vtu) (res0 : vtu) (start_step : Z)
    (ids_f : ids_t) (coords_f : coords_t) (ids_i : ids_t) (coords_i : coords_t) :
  hd_error res = Some res0 ->
  (start_step < Z.of_nat (length res))%Z ->
  snd (get_ids (points res0) "fluid") = Ok (ids_f, coords_f) ->
  snd (get_ids (points res0) "interface") = Ok (ids_i, coords_i) ->
  Forall (well_formed (length (points res0))) res ->
  exists p,
    snd (post_process res start_step) = Ok p /\
    n_times p = length res /\
    coords_fluid p = coords_f /\ coords_interface p = coords_i /\
    exists series, wss_mid_all p = Some series /\ length series = length res.
Proof.
  intros Hhd Hstart Hf Hi Hall.
  destruct (@post_process_spec _ res res0 start_step ids_f coords_f ids_i coords_i
              Hhd Hstart Hf Hi Hall)
    as [df [di [dit [series [Hp [Hlen _]]]]]].
  eexists. split; [exact Hp |]. cbn.
  repeat split. exists series. auto.
Qed.

(** X18.  In what [post_process] returns on such snapshots, every key
    that has coordinates has time-averaged arrays of the length of its
    coordinate array, so the abscissae and ordinates of every spatial
    plot have the same length; the interface time series of the key has
    one row for every snapshot from [start_step] on, each of that
    length. *)
Theorem averages_match_coordinates
    (res : list vtu) (res0 : vtu) (start_step : Z) (p : processed) :
  hd_error res = Some res0 ->
  Forall (well_formed (length (points res0))) res ->
  snd (post_process res start_step) = Ok p ->
  (forall l cs f,
     dict_get loc_eqb (coords_fluid p) l = Some cs ->
     f = "pressure" \/ f = "velocity" ->
     exists m, field_of (data_fluid p) l f = Some m /\ length m = length cs) /\
  (forall l cs f,
     dict_get loc_eqb (coords_interface p) l = Some cs ->
     f = "pressure" \/ f = "wss" ->
     exists m rows,
       field_of (data_interface p) l f = Some m /\ length m = length cs /\
       field_of (data_interface_time p) l f = Some rows /\
       length rows = length (retained start_step res) /\
       Forall (fun row => length row = length cs) rows).
Proof.
  intros Hhd Hall Hp.
  destruct res as [| r0 rest]; [discriminate |].
  inversion Hhd; subst r0.
  pose proof Hp as Hp0. unfold post_process in Hp0.
  destruct (Z.leb_spec (Z.of_nat (length (res0 :: rest))) start_step) as [Hle | Hlt].
  { rewrite snd_bind_out in Hp0. cbn [print snd raise] in Hp0. discriminate. }
  rewrite snd_bind_out in Hp0. cbn [print snd] in Hp0.
  rewrite snd_bind_out in Hp0.
  destruct (snd (get_ids (points res0) "fluid")) as [[ids_f coords_f] |] eqn:Hf;
    [| discriminate].
  rewrite snd_bind_out in Hp0.
  destruct (snd (get_ids (points res0) "interface")) as [[ids_i coords_i] |] eqn:Hi;
    [| discriminate].
  clear Hp0.
  destruct (@post_process_spec _ (res0 :: rest) res0 start_step ids_f coords_f ids_i
              coords_i Hhd Hlt Hf Hi Hall)
    as [df [di [dit [series [Hspec [_ [Hdf Hdi]]]]]]].
  rewrite Hspec in Hp. inversion Hp; subst p. cbn.
  split.
  - intros l cs f G Hfield.
    destruct (@get_ids_coords_length _ (points res0) "fluid" ids_f coords_f l cs Hf G)
      as [found [Gi Hlen]].
    apply (@dict_get_In _ _ _ loc_eqb_eq) in Gi.
    destruct (Hdf l found f Gi Hfield) as [m [Fm Lm]].
    exists m. split; [exact Fm | congruence].
  - intros l cs f G Hfield.
    destruct (@get_ids_coords_length _ (points res0) "interface" ids_i coords_i l cs Hi G)
      as [found [Gi Hlen]].
    apply (@dict_get_In _ _ _ loc_eqb_eq) in Gi.
    destruct (Hdi l found f Gi Hfield) as [m [rows [Fm [Lm [Fr [Lr Rr]]]]]].
    exists m, rows. split; [exact Fm |]. split; [congruence |].
    split; [exact Fr |]. split; [exact Lr |].
    eapply Forall_impl; [| exact Rr]. intros row Hrow. simpl in Hrow. congruence.
Qed.

End MoreResultsProperties.

Section MoreResultsExamples.
Import PostSteadyFluid Spec Notions Examples.

(** A first snapshot without any array is harmless before [start_step]. *)
Lemma earlier_snapshots_are_not_read_witness :
  get_results (L := axis_libm) [bare_snapshot; full_snapshot] wall_points
    [] [(mid_ring, [5; 6]%nat)] 1 =
  get_results (L := axis_libm) [full_snapshot; full_snapshot] wall_points
    [] [(mid_ring, [5; 6]%nat)] 1.
Proof.
  apply (@earlier_snapshots_are_not_read axis_libm [bare_snapshot] [full_snapshot]
           [full_snapshot] wall_points [] [(mid_ring, [5; 6]%nat)] 1%Z).
  - reflexivity.
  - simpl. lia.
Defined.

Lemma full_snapshot_well_formed : Notions.well_formed 8 full_snapshot.
Proof.
  unfold well_formed, full_snapshot. cbn.
  split; [eexists; split; reflexivity |].
  split; [eexists; split; reflexivity |].
  split; [reflexivity | discriminate].
Qed.

Lemma post_process_returns_witness :
  exists p series,
    snd (post_process (L := axis_libm) [full_snapshot; full_snapshot] 1) = Ok p /\
    n_times p = 2%nat /\ wss_mid_all p = Some series /\ length series = 2%nat.
Proof.
  destruct (snd (get_ids (L := axis_libm) wall_points "fluid"))
    as [[ids_f coords_f] |] eqn:Hf; [| vm_compute in Hf; discriminate].
  destruct (snd (get_ids (L := axis_libm) wall_points "interface"))
    as [[ids_i coords_i] |] eqn:Hi; [| vm_compute in Hi; discriminate].
  destruct (@post_process_returns axis_libm [full_snapshot; full_snapshot] full_snapshot
              1%Z ids_f coords_f ids_i coords_i eq_refl)
    as [p [Hp [Hn [_ [_ [series [Hs Hl]]]]]]].
  - simpl. lia.
  - exact Hf.
  - exact Hi.
  - repeat constructor; apply full_snapshot_well_formed.
  - exists p, series. auto.
Defined.

Lemma averages_match_coordinates_witness :
  exists p m,
    snd (post_process (L := axis_libm) [full_snapshot; full_snapshot] 1) = Ok p /\
    field_of (data_interface p) mid_ring "wss" = Some m /\ length m = 2%nat.
Proof.
  destruct (snd (post_process (L := axis_libm) [full_snapshot; full_snapshot] 1))
    as [p |] eqn:Hp; [| vm_compute in Hp; discriminate].
  destruct (@averages_match_coordinates axis_libm [full_snapshot; full_snapshot]
              full_snapshot 1%Z p eq_refl) as [_ H].
  - repeat constructor; apply full_snapshot_well_formed.
  - exact Hp.
  - assert (exists cs, dict_get loc_eqb (coords_interface p) mid_ring = Some cs /\
                       length cs = 2%nat) as [cs [G Hlen]].
    { vm_compute in Hp. inversion Hp. eexists. split; reflexivity. }
    destruct (H mid_ring cs "wss" G (or_intror eq_refl)) as [m [rows [Fm [Lm _]]]].
    exists p, m. split; [reflexivity |]. split; [exact Fm | congruence].
Defined.

End MoreResultsExamples.

(* --------------------------------------------------------------------- *)
(** ** Further properties of the per-step results and the overlays *)
(* --------------------------------------------------------------------- *)

Section MorePostFluidFacts.
Import Spec Notions.
Context {L : Libm}.

Lemma floordiv_negative (a b : Z) :
  (0 < a)%Z -> (b < 0)%Z -> (a / b < 0)%Z.
Proof.
  intros Ha Hb.
  pose proof (Z.div_mod a b ltac:(lia)) as E.
  pose proof (Z.mod_neg_bound a b Hb) as B.
  nia.
Qed.

Lemma dict_mem_set (r : PostFluid.results_t) (k k' : string) (v : PostFluid.value) :
  dict_mem String.eqb (PostFluid.set r k v) k' =
  String.eqb k' k || dict_mem String.eqb r k'.
Proof.
  unfold dict_mem, PostFluid.set.
  destruct (String.eqb k' k) eqn:E.
  - apply String.eqb_eq in E. subst k'.
    now rewrite (@dict_get_set_same _ _ _ string_eqb_eq).
  - rewrite (@dict_get_set_other _ _ _ string_eqb_eq); [reflexivity |].
    intros ->. rewrite String.eqb_refl in E. discriminate.
Qed.

Lemma dict_get_set_keep (r : PostFluid.results_t) (k k' : string) (v : PostFluid.value) :
  String.eqb k' k = false ->
  dict_get String.eqb (PostFluid.set r k v) k' = dict_get String.eqb r k'.
Proof.
  intros E. unfold PostFluid.set.
  apply (@dict_get_set_other _ _ _ string_eqb_eq).
  intros ->. rewrite String.eqb_refl in E. discriminate.
Qed.

(** The keys that each part adds. *)
Lemma extract_pressure_keys res r r' k :
  PostFluid.extract_pressure res r = Ok r' ->
  dict_mem String.eqb r' k =
  (present (Pressure res) && among pressure_keys k) || dict_mem String.eqb r k.
Proof.
  unfold PostFluid.extract_pressure. destruct (Pressure res) as [p |].
  - destruct (np_max p); cbn [bind]; [| discriminate].
    destruct (np_min p); cbn [bind]; [| discriminate].
    intros H. inversion H. rewrite !dict_mem_set.
    unfold among, pressure_keys. cbn [present existsb andb].
    destruct (String.eqb k "pressure"), (String.eqb k "pressure_mean"),
      (String.eqb k "pressure_max"), (String.eqb k "pressure_min"),
      (dict_mem String.eqb r k); reflexivity.
  - intros H. inversion H. reflexivity.
Qed.

Lemma extract_velocity_keys res r r' k :
  PostFluid.extract_velocity res r = Ok r' ->
  dict_mem String.eqb r' k =
  (present (Velocity res) && among velocity_keys k) || dict_mem String.eqb r k.
Proof.
  unfold PostFluid.extract_velocity. destruct (Velocity res) as [v |].
  - destruct (linalg_norm_axis1 v) as [m |]; cbn [bind]; [| discriminate].
    destruct (np_max m); cbn [bind]; [| discriminate].
    intros H. inversion H. rewrite !dict_mem_set.
    unfold among, velocity_keys. cbn [present existsb andb].
    destruct (String.eqb k "velocity"), (String.eqb k "velocity_mag"),
      (String.eqb k "velocity_mean"), (String.eqb k "velocity_max"),
      (dict_mem String.eqb r k); reflexivity.
  - intros H. inversion H. reflexivity.
Qed.

Lemma extract_wss_keys res r r' k :
  PostFluid.extract_wss res r = Ok r' ->
  dict_mem String.eqb r' k =
  (present (WSS res) && among wss_keys k) || dict_mem String.eqb r k.
Proof.
  unfold PostFluid.extract_wss. destruct (WSS res) as [w |].
  - destruct (PostFluid.magnitude w) as [m |]; cbn [bind]; [| discriminate].
    destruct (np_max m); cbn [bind]; [| discriminate].
    destruct (PostFluid.wss_mid_mean_of (points res) m); cbn [bind]; [| discriminate].
    intros H. inversion H. rewrite !dict_mem_set.
    unfold among, wss_keys. cbn [present existsb andb].
    destruct (String.eqb k "wss"), (String.eqb k "wss_mag"),
      (String.eqb k "wss_mean"), (String.eqb k "wss_max"),
      (String.eqb k "wss_mid_mean"), (dict_mem String.eqb r k); reflexivity.
  - intros H. inversion H. reflexivity.
Qed.

Lemma extract_traction_keys res r r' k :
  PostFluid.extract_traction res r = Ok r' ->
  dict_mem String.eqb r' k =
  (present (Traction res) && among traction_keys k) || dict_mem String.eqb r k.
Proof.
  unfold PostFluid.extract_traction. destruct (Traction res) as [t |].
  - destruct (PostFluid.magnitude t) as [m |]; cbn [bind]; [| discriminate].
    destruct (np_max m); cbn [bind]; [| discriminate].
    intros H. inversion H. rewrite !dict_mem_set.
    unfold among, traction_keys. cbn [present existsb andb].
    destruct (String.eqb k "traction"), (String.eqb k "traction_mag"),
      (String.eqb k "traction_mean"), (String.eqb k "traction_max"),
      (dict_mem String.eqb r k); reflexivity.
  - intros H. inversion H. reflexivity.
Qed.



Lemma extract_traction_keeps_other res r r' k :
  among traction_keys k = false ->
  PostFluid.extract_traction res r = Ok r' ->
  dict_get String.eqb r' k = dict_get String.eqb r k.
Proof.
  unfold among, traction_keys. cbn [existsb]. intros Hk.
  repeat (apply orb_false_iff in Hk; destruct Hk as [? Hk]).
  unfold PostFluid.extract_traction. destruct (Traction res) as [t |].
  - destruct (PostFluid.magnitude t) as [m |]; cbn [bind]; [| discriminate].
    destruct (np_max m); cbn [bind]; [| discriminate].
    intros H'. inversion H'. now rewrite !dict_get_set_keep by assumption.
  - intros H'. now inversion H'.
Qed.







(** The column of a key breaks off at the first dictionary without it. *)
Lemma scalar_column_missing (k : string) (results : list PostFluid.results_t) :
  Forall (scalar_at k) results ->
  Exists (fun r => dict_mem String.eqb r k = false) results ->
  PostFluid.scalar_column results k = Raise (KeyError (KStr k)).
Proof.
  induction results as [| r results IH]; intros Hscalar Hex;
    [inversion Hex |].
  inversion Hscalar as [| ? ? Hr Hrest]; subst.
  cbn [PostFluid.scalar_column]. unfold PostFluid.scalar_item, dict_mem in *.
  destruct (dict_get String.eqb r k) as [[a | q] |] eqn:G.
  - exfalso. now apply (Hr a).
  - cbn [bind]. rewrite IH; [reflexivity | exact Hrest |].
    inversion Hex as [? ? Hhead | ? ? Htail]; subst; [| exact Htail].
    rewrite G in Hhead. discriminate.
  - reflexivity.
Qed.

End MorePostFluidFacts.

Section MorePostFluidProperties.
Import Spec Notions.
Context {L : Libm}.

(** X19.  With [steps_per_beat = 0] both overlay functions raise a
    division error.  With a negative [steps_per_beat] and a series that
    is not empty, the number of beats is negative, not zero: the
    functions do not skip the plot, they save a figure without any
    curve. *)
Theorem overlay_with_nonpositive_period
    (series : list Q) (results : list PostFluid.results_t) (steps_per_beat : Z) :
  series <> [] ->
  PostFluid.scalar_column results "wss_mid_mean" = Ok series ->
  PostSteadyFluid.plot_wss_heartbeat_overlay series 0 = ([], Raise ZeroDivisionError) /\
  PostFluid.plot_wss_heartbeats results 0 = Raise ZeroDivisionError /\
  ((steps_per_beat < 0)%Z ->
   PostSteadyFluid.plot_wss_heartbeat_overlay series steps_per_beat =
     ([PostSteadyFluid.MsgSaved "wss_heartbeat_overlay_mid.pdf"], Ok (Some [])) /\
   PostFluid.plot_wss_heartbeats results steps_per_beat = Ok (Some [])).
Proof.
  intros Hne Hcol.
  assert (exists r0 rest, results = r0 :: rest /\
                          dict_mem String.eqb r0 "wss_mid_mean" = true)
    as [r0 [rest [-> Hmem]]].
  { destruct results as [| r0 rest].
    - simpl in Hcol. inversion Hcol. congruence.
    - exists r0, rest. split; [reflexivity |].
      simpl in Hcol.
      destruct (PostFluid.scalar_item r0 "wss_mid_mean") as [q |] eqn:Hq;
        [| discriminate].
      now apply (scalar_item_mem _ _ Hq). }
  assert (0 < Z.of_nat (length series))%Z as Hlen
    by (destruct series; [congruence | simpl; lia]).
  split; [reflexivity |]. split.
  - unfold PostFluid.plot_wss_heartbeats. cbn [getitem nth_error bind].
    rewrite Hmem, Hcol. reflexivity.
  - intros Hneg.
    pose proof (floordiv_negative Hlen Hneg) as Hq.
    split.
    + unfold PostSteadyFluid.plot_wss_heartbeat_overlay.
      rewrite bind_out_lift, length_map. unfold floordiv.
      destruct (Z.eqb_spec steps_per_beat 0) as [E | _]; [lia |].
      destruct (Z.eqb_spec (Z.of_nat (length series) / steps_per_beat) 0) as [E | _];
        [lia |].
      unfold py_range.
      replace (Z.to_nat (Z.of_nat (length series) / steps_per_beat)) with 0%nat by lia.
      reflexivity.
    + unfold PostFluid.plot_wss_heartbeats. cbn [getitem nth_error bind].
      rewrite Hmem, Hcol. cbn [negb bind]. unfold floordiv.
      destruct (Z.eqb_spec steps_per_beat 0) as [E | _]; [lia |]. cbn [bind].
      destruct (Z.eqb_spec (Z.of_nat (length series) / steps_per_beat) 0) as [E | _];
        [lia |].
      unfold py_range.
      replace (Z.to_nat (Z.of_nat (length series) / steps_per_beat)) with 0%nat by lia.
      reflexivity.
Qed.

(** X20.  [plot_wss_heartbeats] decides from the first time step alone
    whether there is mid-section data: with no time step it raises an
    [IndexError]; when the first dictionary lacks [wss_mid_mean] it
    skips the plot, whatever the later dictionaries hold; and when the
    first one has it but a later one lacks it, it raises a [KeyError]. *)
Theorem heartbeat_plot_is_decided_by_first_step
    (r0 : PostFluid.results_t) (rest : list PostFluid.results_t) (steps_per_beat : Z) :
  PostFluid.plot_wss_heartbeats [] steps_per_beat = Raise IndexError /\
  (dict_mem String.eqb r0 "wss_mid_mean" = false ->
   PostFluid.plot_wss_heartbeats (r0 :: rest) steps_per_beat = Ok None) /\
  (dict_mem String.eqb r0 "wss_mid_mean" = true ->
   Forall (scalar_at "wss_mid_mean") (r0 :: rest) ->
   Exists (fun r => dict_mem String.eqb r "wss_mid_mean" = false) rest ->
   PostFluid.plot_wss_heartbeats (r0 :: rest) steps_per_beat =
   Raise (KeyError (KStr "wss_mid_mean"))).
Proof.
  split; [reflexivity |]. split.
  - intros Hmem. unfold PostFluid.plot_wss_heartbeats. cbn [getitem nth_error bind].
    now rewrite Hmem.
  - intros Hmem Hscalar Hex.
    unfold PostFluid.plot_wss_heartbeats. cbn [getitem nth_error bind].
    rewrite Hmem. cbn [negb].
    rewrite scalar_column_missing; [reflexivity | exact Hscalar |].
    now apply Exists_cons_tl.
Qed.

(** X21.  The keys of the dictionary that [extract_results_fluid]
    returns are exactly the keys of the parts whose array the snapshot
    has: the pressure keys for [Pressure], the velocity keys for
    [Velocity], the wss keys (with [wss_mid_mean]) for [WSS] and the
    traction keys for [Traction].  In particular a Traction array never
    stands in for a missing WSS array here. *)
Theorem result_keys_follow_arrays (res : vtu) (results : PostFluid.results_t) :
  PostFluid.extract_results_fluid res = Ok results ->
  forall k,
    dict_mem String.eqb results k =
    (present (Pressure res) && among pressure_keys k) ||
    (present (Velocity res) && among velocity_keys k) ||
    (present (WSS res) && among wss_keys k) ||
    (present (Traction res) && among traction_keys k).
Proof.
  intros H k. unfold PostFluid.extract_results_fluid in H.
  destruct (PostFluid.extract_pressure res []) as [r1 |] eqn:E1; cbn [bind] in H;
    [| discriminate].
  destruct (PostFluid.extract_velocity res r1) as [r2 |] eqn:E2; cbn [bind] in H;
    [| discriminate].
  destruct (PostFluid.extract_wss res r2) as [r3 |] eqn:E3; cbn [bind] in H;
    [| discriminate].
  rewrite (extract_traction_keys _ _ k H), (extract_wss_keys _ _ k E3),
    (extract_velocity_keys _ _ k E2), (extract_pressure_keys _ _ k E1).
  cbn [dict_mem dict_get].
  destruct (present (Pressure res) && among pressure_keys k),
    (present (Velocity res) && among velocity_keys k),
    (present (WSS res) && among wss_keys k),
    (present (Traction res) && among traction_keys k); reflexivity.
Qed.


(** X23.  A WSS array with a single component is treated differently by
    the two scripts: [post_fluid.extract_results_fluid] takes its values
    as the magnitudes, while [post_steady_fluid.extract_wss] and
    [extract_wss_mid_timeseries] raise an axis error, because they take
    the norm along axis 1 whatever the shape. *)
Theorem scalar_wss_array (res : vtu) (v : list Q) :
  WSS res = Some (Arr1 v) ->
  (forall results,
     PostFluid.extract_results_fluid res = Ok results ->
     dict_get String.eqb results "wss_mag" = Some (PostFluid.VArr (Arr1 v))) /\
  (forall post pts ids,
     PostSteadyFluid.extract_wss post res pts ids = ([], Raise AxisError)) /\
  (forall rest pts ids pt,
     dict_get PostSteadyFluid.loc_eqb ids PostSteadyFluid.mid_ring = Some pt ->
     PostSteadyFluid.extract_wss_mid_timeseries (res :: rest) pts ids =
     ([], Raise AxisError)).
Proof.
  intros Hw. split; [| split].
  - intros results H.
    unfold PostFluid.extract_results_fluid in H.
    destruct (PostFluid.extract_pressure res []) as [r1 |]; cbn [bind] in H;
      [| discriminate].
    destruct (PostFluid.extract_velocity res r1) as [r2 |]; cbn [bind] in H;
      [| discriminate].
    destruct (PostFluid.extract_wss res r2) as [r3 |] eqn:E3; cbn [bind] in H;
      [| discriminate].
    rewrite (@extract_traction_keeps_other _ res r3 results "wss_mag" eq_refl H).
    unfold PostFluid.extract_wss in E3. rewrite Hw in E3.
    cbn [PostFluid.magnitude bind] in E3.
    destruct (np_max v); cbn [bind] in E3; [| discriminate].
    destruct (PostFluid.wss_mid_mean_of (points res) v); cbn [bind] in E3;
      [| discriminate].
    inversion E3. rewrite !dict_get_set_keep by reflexivity.
    unfold PostFluid.set. apply (@dict_get_set_same _ _ _ string_eqb_eq).
  - intros post pts ids. unfold PostSteadyFluid.extract_wss, PostSteadyFluid.wss_source.
    rewrite Hw. reflexivity.
  - intros rest pts ids pt Hring.
    unfold PostSteadyFluid.extract_wss_mid_timeseries. rewrite Hring.
    cbn [PostSteadyFluid.mid_loop]. unfold PostSteadyFluid.wss_source.
    rewrite Hw. reflexivity.
Qed.

End MorePostFluidProperties.

Section MorePostFluidExamples.
Import Spec Notions Examples MoreExamples.

Lemma overlay_with_nonpositive_period_witness :
  PostSteadyFluid.plot_wss_heartbeat_overlay wss_series 0 = ([], Raise ZeroDivisionError) /\
  PostFluid.plot_wss_heartbeats wss_results 0 = Raise ZeroDivisionError /\
  PostFluid.plot_wss_heartbeats wss_results (-3) = Ok (Some []).
Proof.
  destruct (@overlay_with_nonpositive_period wss_series wss_results (-3)%Z)
    as [H1 [H2 H3]].
  - discriminate.
  - reflexivity.
  - split; [exact H1 |]. split; [exact H2 |]. apply H3. reflexivity.
Defined.

Lemma heartbeat_plot_is_decided_by_first_step_witness :
  PostFluid.plot_wss_heartbeats [[]; [("wss_mid_mean", PostFluid.VNum 1)]] 1 = Ok None /\
  PostFluid.plot_wss_heartbeats [[("wss_mid_mean", PostFluid.VNum 1)]; []] 1 =
    Raise (KeyError (KStr "wss_mid_mean")).
Proof.
  split.
  - apply (@heartbeat_plot_is_decided_by_first_step
             [] [[("wss_mid_mean", PostFluid.VNum 1)]] 1%Z). reflexivity.
  - apply (@heartbeat_plot_is_decided_by_first_step
             [("wss_mid_mean", PostFluid.VNum 1)] [[]] 1%Z).
    + reflexivity.
    + repeat constructor; intros a; discriminate.
    + constructor. reflexivity.
Defined.

(** [ring_snapshot] has a WSS array and nothing else. *)
Lemma result_keys_follow_arrays_witness :
  exists results,
    PostFluid.extract_results_fluid (L := axis_libm) ring_snapshot = Ok results /\
    dict_mem String.eqb results "wss_mid_mean" = true /\
    dict_mem String.eqb results "pressure_mean" = false /\
    dict_mem String.eqb results "traction_mean" = false.
Proof.
  destruct (PostFluid.extract_results_fluid (L := axis_libm) ring_snapshot)
    as [results |] eqn:H; [| vm_compute in H; discriminate].
  exists results. split; [reflexivity |].
  rewrite !(@result_keys_follow_arrays axis_libm ring_snapshot results H).
  repeat split; reflexivity.
Defined.


Lemma scalar_wss_array_witness :
  PostSteadyFluid.extract_wss (L := axis_libm) [] scalar_wss_snapshot wall_points [] =
    ([], Raise AxisError) /\
  exists results,
    PostFluid.extract_results_fluid (L := axis_libm) scalar_wss_snapshot = Ok results /\
    dict_get String.eqb results "wss_mag" =
      Some (PostFluid.VArr (Arr1 [1; 2; 3; 4; 5; 6; 7; 8])).
Proof.
  destruct (@scalar_wss_array axis_libm scalar_wss_snapshot [1; 2; 3; 4; 5; 6; 7; 8] eq_refl)
    as [H1 [H2 _]].
  split; [apply H2 |].
  destruct (PostFluid.extract_results_fluid (L := axis_libm) scalar_wss_snapshot)
    as [results |] eqn:H; [| vm_compute in H; discriminate].
  exists results. split; [reflexivity |]. now apply H1.
Defined.

End MorePostFluidExamples.

(* --------------------------------------------------------------------- *)
(** ** The ring time series and the extraction on one snapshot *)
(* --------------------------------------------------------------------- *)

Section RingSeriesFacts.
Import PostSteadyFluid PostSteadyPlots Spec Notions.
Context {L : Libm}.

(** The three wall rings are registered keys of the interface domain. *)
Lemma interface_registers_rings pts_xyz locations :
  snd (locations_of pts_xyz "interface") = Ok locations ->
  forall l label, In (l, label) rings -> In l (map fst locations).
Proof.
  unfold locations_of. rewrite !bind_out_lift.
  destruct (np_max _) as [ro |]; [| discriminate].
  destruct (np_min _) as [ri |]; [| discriminate].
  destruct (np_max _) as [h |]; [| discriminate].
  cbn. intros H. inversion H. clear H H1.
  intros l label [E | [E | [E | []]]]; inversion E; subst; vm_compute; tauto.
Qed.

Lemma interface_ids_have_rings (pts_xyz : list (Q * Q * Q)) ids coords :
  snd (get_ids pts_xyz "interface") = Ok (ids, coords) ->
  forall l label, In (l, label) rings -> exists pt, In (l, pt) ids.
Proof.
  intros H l label Hring.
  destruct (get_ids_locations _ _ H) as [locations Hloc].
  destruct (get_ids_keys _ _ Hloc H) as [K1 _].
  pose proof (@interface_registers_rings pts_xyz locations Hloc l label Hring) as Hin. rewrite <- K1 in Hin.
  apply in_map_iff in Hin. destruct Hin as [[l' pt] [E Hin]]. simpl in E. subst l'.
  now exists pt.
Qed.

(** The curve of a ring whose series is stored. *)
Lemma ring_curve_of_field (dit : post_t) (start_step : Z) (l : loc) (label : string)
    (ws : list (list Q)) :
  field_of dit l "wss" = Some ws -> ws <> [] ->
  ring_curve dit start_step l label =
  Ok (Some (SeriesLine label (step_numbers (length ws) start_step)
              (map (fun row => np_mean row * f_scales_wss) ws))).
Proof.
  unfold field_of, ring_curve. intros H Hne.
  destruct (dict_get loc_eqb dit l) as [fields |]; [| discriminate].
  rewrite H. destruct ws as [| w ws]; [congruence |].
  cbn [mean_axis1 bind]. rewrite !length_map, map_map. reflexivity.
Qed.

(** [np.arange(n) + start_step + 1] counts on from [start_step + 1]. *)
Lemma step_numbers_consecutive (n : nat) (start_step : Z) :
  (0 <= start_step)%Z ->
  step_numbers n start_step = map Z.of_nat (seq (Z.to_nat start_step + 1) n).
Proof.
  intros Hs. unfold step_numbers.
  assert (forall a, map (fun k => (Z.of_nat k + start_step + 1)%Z) (seq a n) =
                    map Z.of_nat (seq (a + (Z.to_nat start_step + 1)) n)) as H.
  { induction n as [| n IH]; intros a; [reflexivity |].
    cbn [seq map]. f_equal; [lia |]. apply (IH (S a)). }
  apply (H 0%nat).
Qed.

End RingSeriesFacts.

Section RingSeriesProperties.
Import PostSteadyFluid PostSteadyPlots Spec Notions.
Context {L : Libm}.

(** X24.  After [get_ids] and [get_results] on snapshots that have every
    array for every point, [plot_wss_time_series] draws the three
    curves Inlet, Mid and Outlet and prints one line.  Each curve has a
    point for every retained snapshot, at the steps [start_step + 1],
    [start_step + 2], ... up to the number of snapshots, and for a ring
    with points its values are the means (the sum divided by the number
    of points) of the wall shear stress over the ring, times 10000. *)
Theorem ring_time_series_covers_window
    (results : list vtu) (pts : list (Q * Q * Q)) (start_step : Z)
    (ids_f ids_i : ids_t) (coords_f coords_i : coords_t)
    (df di : mean_t) (dit : post_t) :
  snd (get_ids pts "fluid") = Ok (ids_f, coords_f) ->
  snd (get_ids pts "interface") = Ok (ids_i, coords_i) ->
  results <> [] ->
  (0 <= start_step < Z.of_nat (length results))%Z ->
  Forall (well_formed (length pts)) results ->
  snd (get_results results pts ids_f ids_i start_step) = Ok (df, di, dit) ->
  let kept := retained start_step results in
  let steps := map Z.of_nat (seq (Z.to_nat start_step + 1) (length kept)) in
  exists lines,
    plot_wss_time_series dit start_step =
      ([MsgSaved "wss_time_series_rings.pdf"], Ok lines) /\
    map sl_label lines = ["Inlet"; "Mid"; "Outlet"] /\
    Forall (fun line => sl_steps line = steps) lines /\
    last steps 0%Z = Z.of_nat (length results) /\
    (forall l label pt,
       In (l, label) rings -> In (l, pt) ids_i -> pt <> [] ->
       exists ws,
         collect (wss_at pts pt) kept = Ok ws /\
         In (SeriesLine label steps (map (fun row => mean_of row * 10000) ws)) lines).
Proof.
  intros Hf Hi Hne0 [Hs0 Hs1] Hall Hres kept steps.
  assert (kept = retained start_step results) as Ek by reflexivity.
  clearbody kept. subst steps.
  pose proof (get_ids_in_range _ _ Hf) as Rf.
  pose proof (get_ids_in_range _ _ Hi) as Ri.
  pose proof (get_ids_keys_NoDup _ _ Hf) as Nf.
  pose proof (get_ids_keys_NoDup _ _ Hi) as Ni.
  assert (kept <> []) as Hne by (rewrite Ek; apply retained_nonempty; assumption).
  assert (Forall (readable pts ids_f ids_i) kept) as Hread.
  { rewrite Ek. apply retained_Forall. eapply Forall_impl; [| exact Hall].
    intros r Hr. now apply readable_of_well_formed. }
  rewrite Ek in Hne, Hread.
  destruct (@get_results_spec _ results pts ids_f ids_i start_step Nf Ni Hne Hread)
    as [df' [di' [dit' [Hres' [_ Hdi]]]]].
  cbv zeta in Hdi. rewrite <- Ek in Hne, Hread, Hdi.
  rewrite Hres in Hres'. inversion Hres'; subst df' di' dit'. clear Hres'.
  assert (forall l label, In (l, label) rings ->
            exists pt ws,
              In (l, pt) ids_i /\
              collect (wss_at pts pt) kept = Ok ws /\
              field_of dit l "wss" = Some ws /\
              ring_curve dit start_step l label =
                Ok (Some (SeriesLine label
                            (map Z.of_nat (seq (Z.to_nat start_step + 1) (length kept)))
                            (map (fun row => np_mean row * f_scales_wss) ws)))) as Hring.
  { intros l label Hin.
    destruct (@interface_ids_have_rings _ pts ids_i coords_i Hi l label Hin) as [pt Hpt].
    destruct (Hdi l pt Hpt) as [ps [ws [_ [Cw [_ [_ [_ Fw]]]]]]].
    exists pt, ws. split; [exact Hpt |]. split; [exact Cw |]. split; [exact Fw |].
    assert (ws <> []) as Hws.
    { intros ->. apply collect_length in Cw. apply Hne.
      apply length_zero_iff_nil. symmetry. exact Cw. }
    rewrite (@ring_curve_of_field dit start_step l label ws Fw Hws).
    rewrite (collect_length _ _ Cw), (@step_numbers_consecutive (length kept) start_step Hs0). reflexivity. }
  destruct (Hring _ "Inlet" (or_introl eq_refl)) as [p1 [w1 [I1 [C1 [F1 R1]]]]].
  destruct (Hring _ "Mid" (or_intror (or_introl eq_refl))) as [p2 [w2 [I2 [C2 [F2 R2]]]]].
  destruct (Hring _ "Outlet" (or_intror (or_intror (or_introl eq_refl))))
    as [p3 [w3 [I3 [C3 [F3 R3]]]]].
  eexists. split; [| split; [| split; [| split]]].
  - unfold plot_wss_time_series, rings. cbn [ring_loop].
    rewrite R1, R2, R3. reflexivity.
  - reflexivity.
  - repeat constructor.
  - subst kept. unfold retained. rewrite length_skipn.
    assert (exists n, (length results - Z.to_nat start_step = S n)%nat) as [n En]
      by (exists (length results - Z.to_nat start_step - 1)%nat; lia).
    rewrite En, seq_S, map_app. cbn [map]. rewrite last_last. lia.
  - intros l label pt Hin Hpt _.
    destruct (Hdi l pt Hpt) as [ps [ws [_ [Cw [_ [_ [_ Fw]]]]]]].
    exists ws. split; [exact Cw |].
    destruct Hin as [E | [E | [E | []]]]; inversion E; subst l label.
    + rewrite F1 in Fw. inversion Fw; subst. now left.
    + rewrite F2 in Fw. inversion Fw; subst. right. now left.
    + rewrite F3 in Fw. inversion Fw; subst. right. right. now left.
Qed.


End RingSeriesProperties.

Section RingSeriesExamples.
Import PostSteadyFluid PostSteadyPlots Spec Notions Examples.

(** Three snapshots with a wall shear stress of magnitude 5 at every
    point, from step 1 on: every curve has the steps 2 and 3, and the
    curve of the mid ring has the value 50000 at both. *)
Lemma ring_time_series_covers_window_witness :
  exists ids_f coords_f ids_i coords_i df di dit lines values,
    snd (get_ids (L := axis_libm) wall_points "fluid") = Ok (ids_f, coords_f) /\
    snd (get_ids (L := axis_libm) wall_points "interface") = Ok (ids_i, coords_i) /\
    snd (get_results (L := axis_libm) [full_snapshot; full_snapshot; full_snapshot]
           wall_points ids_f ids_i 1) = Ok (df, di, dit) /\
    plot_wss_time_series dit 1 = ([MsgSaved "wss_time_series_rings.pdf"], Ok lines) /\
    map sl_label lines = ["Inlet"; "Mid"; "Outlet"] /\
    Forall (fun line => sl_steps line = [2; 3]%Z) lines /\
    In (SeriesLine "Mid" [2; 3]%Z values) lines /\
    Forall2 Qeq values [50000; 50000].
Proof.
  destruct (snd (get_ids (L := axis_libm) wall_points "fluid"))
    as [[ids_f coords_f] |] eqn:Hf; [| vm_compute in Hf; discriminate].
  destruct (snd (get_ids (L := axis_libm) wall_points "interface"))
    as [[ids_i coords_i] |] eqn:Hi; [| vm_compute in Hi; discriminate].
  destruct (snd (get_results (L := axis_libm) [full_snapshot; full_snapshot; full_snapshot]
                   wall_points ids_f ids_i 1)) as [[[df di] dit] |] eqn:Hres.
  - destruct (@ring_time_series_covers_window axis_libm
                [full_snapshot; full_snapshot; full_snapshot] wall_points 1%Z
                ids_f ids_i coords_f coords_i df di dit Hf Hi)
      as [lines [Hplot [Hlab [Hsteps [_ Hvalues]]]]].
    + discriminate.
    + simpl. lia.
    + repeat constructor; apply full_snapshot_well_formed.
    + exact Hres.
    + destruct (Hvalues mid_ring "Mid" [5; 6]%nat) as [ws [Hws Hin]].
      * right. left. reflexivity.
      * vm_compute in Hi. inversion Hi. simpl. tauto.
      * discriminate.
      * exists ids_f, coords_f, ids_i, coords_i, df, di, dit, lines.
        exists (map (fun row => mean_of row * 10000) ws).
        split; [reflexivity |]. split; [reflexivity |]. split; [exact Hres |].
        split; [exact Hplot |]. split; [exact Hlab |]. split; [exact Hsteps |].
        split; [exact Hin |].
        vm_compute in Hws. inversion Hws; subst ws.
        repeat constructor.
  - exfalso. vm_compute in Hf. inversion Hf; subst ids_f coords_f.
    vm_compute in Hi. inversion Hi; subst ids_i coords_i.
    vm_compute in Hres. discriminate.
Defined.


End RingSeriesExamples.
